(** * Master/worker task distribution over MPI, and the trapezoidal rule

    A shallow embedding of the two translation units of the repository:

    - the MPI example ([func_cheap], [func_expensive], [inputDataGenerator],
      [masterCode], [slaveCode]): rank 0 hands the elements of an input
      vector to the ranks [1 .. size-1], one element per request, and tells
      each rank to stop once the input is exhausted;
    - [Quadrature::trapezoidal].

    Conventions.

    - A C++ [int] is a [Z].  The loop counters and table entries of
      [masterCode] never leave the interval [-1 .. max N size] (this is part
      of the invariants proved below), so they are written without
      wrap-around; the arithmetic applied to arbitrary data ([x + 1] in
      [func_cheap], [n + 1] in [trapezoidal]) is written with the 32-bit
      two's-complement wrap-around [int_wrap].
    - A [std::vector<int>] is a [list Z]; [operator[]] does no bounds check,
      so an access outside the vector has no defined behaviour: [vec_read]
      and [vec_write] return [None] there and the enclosing computation
      propagates it.
    - [MPI_Isend] is recorded as an emitted [Isend] event; [MPI_Recv] takes
      its message from an explicit list of arrivals ([masterLoop],
      [slaveLoop]) or from the channel of the system model ([sys_step]).
    - The random engine and [uniform_int_distribution] belong to the C++
      standard library; they are parameters of the development. *)

From Stdlib Require Import QArith Qcanon.
From stdpp Require Import base tactics option numbers list.

Local Open Scope Z_scope.

(** ** Machine integers and vectors *)

Definition INT_MAX : Z := 2147483647.
Definition INT_MIN : Z := -2147483648.

(** Reduction of an integer to the 32-bit two's-complement range. *)
Definition int_wrap (z : Z) : Z := (z + 2147483648) `mod` 4294967296 - 2147483648.

(** [v[i]] as an rvalue; [None] outside [0 .. v.size()-1]. *)
Definition vec_read (v : list Z) (i : Z) : option Z :=
  if bool_decide (0 ≤ i) then v !! Z.to_nat i else None.

(** [v[i] = x]; [None] outside [0 .. v.size()-1]. *)
Definition vec_write (v : list Z) (i : Z) (x : Z) : option (list Z) :=
  if bool_decide (0 ≤ i < Z.of_nat (length v)) then Some (<[Z.to_nat i := x]> v) else None.

(** [std::vector<int> v(n)]: [n] value-initialised (zero) elements. *)
Definition vec_make (n : Z) : list Z := replicate (Z.to_nat n) 0.

(** ** The task function *)

Definition func_cheap (x : Z) : Z := int_wrap (x + 1).

(** [Sleep(100 * x)] only delays the caller; the value is [func_cheap x]. *)
Definition func_expensive (x : Z) : Z := func_cheap x.

(** ** Messages *)

(** The buffer handed to [MPI_Isend] by the master: an element of [input]
    ([input.data() + offset]) or the local [errValue]. *)
Inductive buffer : Type :=
  | input_data (offset : Z)
  | errValue_addr.

(** One [MPI_Isend(buf, 1, MPI_INT, dest, 0, MPI_COMM_WORLD, &request)]. *)
Record Isend : Type := mkIsend {
  dest : Z;
  buf : buffer;
  payload : Z
}.

Definition errValue : Z := -1.

Global Instance buffer_eq_dec : EqDecision buffer.
Proof. solve_decision. Defined.

Global Instance Isend_eq_dec : EqDecision Isend.
Proof. solve_decision. Defined.

(** The offset of a task message, nothing for a termination message. *)
Definition task_of (m : Isend) : option Z :=
  match buf m with
  | input_data c => Some c
  | errValue_addr => None
  end.

Definition is_task (m : Isend) : bool :=
  match buf m with input_data _ => true | errValue_addr => false end.

(** Offsets of the task messages of a trace, in the order they were sent. *)
Definition assigned (tr : list Isend) : list Z := omap task_of tr.

(** The values sent to rank [r], in the order they were sent. *)
Definition payloads_to (r : Z) (tr : list Isend) : list Z :=
  payload <$> filter (λ m, dest m = r) tr.

(** ** The master's variables *)

Record Master : Type := mkMaster {
  counter : Z;
  output : list Z;
  inputIdx2proc : list Z;
  proc2inputIdx : list Z;
  N_activeProc : Z       (* declared after the start-up loop; 0 until then *)
}.

Section MPI.

(** [std::default_random_engine] and the call operator of
    [std::uniform_int_distribution<int>(a, b)]. *)
Variable Engine : Type.
Variable default_engine : Engine.
Variable distribution : Z → Z → Engine → Z * Engine.

(** ** [inputDataGenerator] *)

Fixpoint generate (ks : list Z) (data : list Z) (generator : Engine) : option (list Z) :=
  match ks with
  | [] => Some data
  | k :: ks' =>
      let '(number, generator') := distribution 0 10 generator in
      data' ← vec_write data k number;
      generate ks' data' generator'
  end.

(** [None]: the constructor [vector<int> data(N)] throws for a negative [N]. *)
Definition inputDataGenerator (N : Z) : option (list Z) :=
  if bool_decide (N < 0) then None
  else generate (seqZ 0 N) (vec_make N) default_engine.

(** ** [masterCode] *)

(** Body of the start-up loop, lines 82-91, for loop index [k]. *)
Definition startup_body (input : list Z) (kmax : Z) (k : Z) (st : Master)
  : option (Master * Isend) :=
  if bool_decide (counter st < kmax) then
    x ← vec_read input (counter st);
    i2p ← vec_write (inputIdx2proc st) (counter st) k;
    p2i ← vec_write (proc2inputIdx st) k (counter st);
    Some (mkMaster (counter st + 1) (output st) i2p p2i (N_activeProc st),
          mkIsend k (input_data (counter st)) x)
  else
    p2i ← vec_write (proc2inputIdx st) k (-1);
    Some (mkMaster (counter st) (output st) (inputIdx2proc st) p2i (N_activeProc st),
          mkIsend k errValue_addr errValue).

(** [for (int k = lo; ...; k++)] over the indices [ks], collecting the sends. *)
Fixpoint startup_loop (input : list Z) (kmax : Z) (ks : list Z) (st : Master)
  : option (Master * list Isend) :=
  match ks with
  | [] => Some (st, [])
  | k :: ks' =>
      '(st1, m) ← startup_body input kmax k st;
      '(st2, tr) ← startup_loop input kmax ks' st1;
      Some (st2, m :: tr)
  end.

(** Lines 68-93: declarations, start-up loop, [N_activeProc = counter]. *)
Definition startup (N size : Z) (input : list Z) : option (Master * list Isend) :=
  let st := mkMaster 0 (vec_make (Z.of_nat (length input))) (vec_make N) (vec_make size) 0 in
  let kmax := Z.min (size - 1) N in
  '(st', tr) ← startup_loop input kmax (seqZ 1 (size - 1)) st;
  Some (mkMaster (counter st') (output st') (inputIdx2proc st') (proc2inputIdx st')
          (counter st'), tr).

(** Body of the receive loop, lines 97-113, for the received value [y] and
    its source [procNr]. *)
Definition loop_body (input : list Z) (procNr y : Z) (st : Master)
  : option (Master * Isend) :=
  idx ← vec_read (proc2inputIdx st) procNr;
  out ← vec_write (output st) idx y;
  if bool_decide (counter st < Z.of_nat (length input)) then
    x ← vec_read input (counter st);
    i2p ← vec_write (inputIdx2proc st) (counter st) procNr;
    p2i ← vec_write (proc2inputIdx st) procNr (counter st);
    Some (mkMaster (counter st + 1) out i2p p2i (N_activeProc st),
          mkIsend procNr (input_data (counter st)) x)
  else
    p2i ← vec_write (proc2inputIdx st) procNr (-1);
    Some (mkMaster (counter st) out (inputIdx2proc st) p2i (N_activeProc st - 1),
          mkIsend procNr errValue_addr errValue).

(** How a run of the master ends, with the sends it emitted on the way. *)
Inductive outcome : Type :=
  | Exited (st : Master) (tr : list Isend) (unread : list (Z * Z))
      (* the loop condition became false *)
  | Blocked (st : Master) (tr : list Isend)
      (* [MPI_Recv] waits: no arrival is left *)
  | Undefined (tr : list Isend)
      (* an access outside a vector *)
  | Throws.
      (* a vector constructor was given a negative size *)

Definition emit (m : list Isend) (o : outcome) : outcome :=
  match o with
  | Exited st tr u => Exited st (m ++ tr) u
  | Blocked st tr => Blocked st (m ++ tr)
  | Undefined tr => Undefined (m ++ tr)
  | Throws => Throws
  end.

(** [while (N_activeProc > 0) { MPI_Recv(..., MPI_ANY_SOURCE, ...); ... }]
    against the arrivals [msgs], each a pair (source rank, value). *)
Fixpoint masterLoop (input : list Z) (msgs : list (Z * Z)) (st : Master) : outcome :=
  if bool_decide (0 < N_activeProc st) then
    match msgs with
    | [] => Blocked st []
    | (procNr, y) :: rest =>
        match loop_body input procNr y st with
        | Some (st', m) => emit [m] (masterLoop input rest st')
        | None => Undefined []
        end
    end
  else Exited st [] msgs.

(** Lines 123-128: the indices at which the serial value differs. *)
Definition check_errors (N : Z) (input out : list Z) : option (list Z) :=
  foldr (λ k acc,
           x ← vec_read input k; o ← vec_read out k; rest ← acc;
           Some (if bool_decide (func_cheap x - o ≠ 0) then k :: rest else rest))
        (Some []) (seqZ 0 N).

Definition masterCode (N size : Z) (msgs : list (Z * Z)) : outcome :=
  match inputDataGenerator N with
  | None => Throws
  | Some input =>
      if bool_decide (size < 0) then Throws
      else match startup N size input with
           | None => Undefined []
           | Some (st, tr) => emit tr (masterLoop input msgs st)
           end
  end.

End MPI.

Arguments inputDataGenerator {Engine}.
Arguments generate {Engine}.
Arguments masterCode {Engine}.

(** ** [slaveCode] *)

(** One pass through the loop of lines 149-157 for the received value [x]:
    [None] is the [break]; otherwise the value passed to [MPI_Send] and the
    line appended to the file [rank-<rank>.dat]. *)
Definition slave_body (rank x : Z) : option (Z * (Z * Z)) :=
  if bool_decide (x < 0) then None
  else Some (func_expensive x, (x, rank)).

Inductive slave_outcome : Type :=
  | Finished (sent : list Z) (file : list (Z * Z)) (unread : list Z)
      (* the loop was left through [break] *)
  | Waiting (sent : list Z) (file : list (Z * Z)).
      (* [MPI_Recv] waits: no message is left *)

Definition slave_emit (y : Z) (line : Z * Z) (o : slave_outcome) : slave_outcome :=
  match o with
  | Finished s f u => Finished (y :: s) (line :: f) u
  | Waiting s f => Waiting (y :: s) (line :: f)
  end.

(** [while (true) { MPI_Recv(&x, ...); ... }] against the messages [msgs]
    that rank 0 sends to this rank. *)
Fixpoint slaveLoop (rank : Z) (msgs : list Z) : slave_outcome :=
  match msgs with
  | [] => Waiting [] []
  | x :: rest =>
      match slave_body rank x with
      | None => Finished [] [] rest
      | Some (y, line) => slave_emit y line (slaveLoop rank rest)
      end
  end.

Definition slaveCode (rank : Z) (msgs : list Z) : slave_outcome := slaveLoop rank msgs.

(** ** The processes together *)

(** A worker rank with its two channels: [inbox] holds what rank 0 sent and
    the worker has not received yet, [outbox] what the worker sent and rank 0
    has not received yet (both oldest first: MPI does not reorder the
    messages of one sender to one receiver). *)
Record Slave : Type := mkSlave {
  inbox : list Z;
  outbox : list Z;
  received : list Z;          (* every value received so far *)
  file : list (Z * Z);        (* lines of rank-<rank>.dat *)
  finished : bool             (* the loop was left *)
}.

(** Rank 0 in its receive loop, the worker ranks [1 .. size-1] (rank [r] at
    position [r-1]), and every send of rank 0 so far, oldest first. *)
Record System : Type := mkSystem {
  mst : Master;
  slaves : list Slave;
  log : list Isend
}.

Definition slave_at (r : Z) (sl : list Slave) : option Slave :=
  if bool_decide (1 ≤ r) then sl !! Z.to_nat (r - 1) else None.

Definition slave_put (r : Z) (s : Slave) (sl : list Slave) : list Slave :=
  <[Z.to_nat (r - 1) := s]> sl.

(** The message [m] enters the channel to its destination. *)
Definition deliver (m : Isend) (sl : list Slave) : option (list Slave) :=
  s ← slave_at (dest m) sl;
  Some (slave_put (dest m)
          (mkSlave (inbox s ++ [payload m]) (outbox s) (received s) (file s) (finished s)) sl).

Inductive action : Type :=
  | master_recv (r : Z)    (* [MPI_Recv] of rank 0 is matched with a message of rank [r] *)
  | slave_recv (r : Z).    (* [MPI_Recv] of rank [r] is matched *)

(** One step of the whole program; [None] when the action is not possible
    in [cfg] (or when it leaves the defined behaviour of a vector). *)
Definition sys_step (input : list Z) (a : action) (cfg : System) : option System :=
  match a with
  | master_recv r =>
      if bool_decide (0 < N_activeProc (mst cfg)) then
        s ← slave_at r (slaves cfg);
        match outbox s with
        | [] => None
        | y :: out =>
            '(st', m) ← loop_body input r y (mst cfg);
            sl' ← deliver m (slave_put r
                     (mkSlave (inbox s) out (received s) (file s) (finished s)) (slaves cfg));
            Some (mkSystem st' sl' (log cfg ++ [m]))
        end
      else None
  | slave_recv r =>
      s ← slave_at r (slaves cfg);
      if finished s then None
      else match inbox s with
           | [] => None
           | x :: inb =>
               let s' :=
                 match slave_body r x with
                 | None => mkSlave inb (outbox s) (received s ++ [x]) (file s) true
                 | Some (y, line) =>
                     mkSlave inb (outbox s ++ [y]) (received s ++ [x]) (file s ++ [line]) false
                 end in
               Some (mkSystem (mst cfg) (slave_put r s' (slaves cfg)) (log cfg))
           end
  end.

Fixpoint sys_exec (input : list Z) (sched : list action) (cfg : System) : option System :=
  match sched with
  | [] => Some cfg
  | a :: sched' => cfg' ← sys_step input a cfg; sys_exec input sched' cfg'
  end.

(** The configuration in which rank 0 enters its receive loop: every worker
    has been started and the start-up sends are in the channels. *)
Definition sys_init (size : Z) (st : Master) (tr : list Isend) : System :=
  mkSystem st
    ((λ r, mkSlave (payloads_to r tr) [] [] [] false) <$> seqZ 1 (size - 1))
    tr.

(** Nothing is left to do: rank 0 has left its loop and so has every worker. *)
Definition sys_final (cfg : System) : Prop :=
  N_activeProc (mst cfg) ≤ 0 ∧ Forall (λ s, finished s = true) (slaves cfg).

(** What rank 0 receives in the step [a], and along a schedule. *)
Definition arrival_of (a : action) (cfg : System) : list (Z * Z) :=
  match a with
  | master_recv r =>
      match slave_at r (slaves cfg) with
      | Some s => match outbox s with y :: _ => [(r, y)] | [] => [] end
      | None => []
      end
  | slave_recv _ => []
  end.

Fixpoint arrivals (input : list Z) (sched : list action) (cfg : System) : list (Z * Z) :=
  match sched with
  | [] => []
  | a :: sched' =>
      match sys_step input a cfg with
      | None => []
      | Some cfg' => arrival_of a cfg ++ arrivals input sched' cfg'
      end
  end.

Definition is_master_recv (a : action) : bool :=
  match a with master_recv _ => true | slave_recv _ => false end.

(** The number of times rank 0 went through its receive loop. *)
Definition receives (sched : list action) : Z :=
  Z.of_nat (length (filter (λ a, is_master_recv a = true) sched)).

(** A linear congruential engine (the parameters of [std::minstd_rand0]) and
    a reduction of its output to [a .. b], as one instance of the engine. *)
Definition lcg_next (g : Z) : Z := (16807 * g) `mod` 2147483647.

Definition lcg_distribution (a b : Z) (g : Z) : Z * Z :=
  let g' := lcg_next g in (a + g' `mod` (b - a + 1), g').


(** The whole program for [N] inputs on [size] ranks: the input vector and
    the configuration in which rank 0 enters its receive loop. *)
Definition program_init {Engine : Type} (default_engine : Engine)
    (distribution : Z → Z → Engine → Z * Engine) (N size : Z) : option (list Z * System) :=
  input ← inputDataGenerator default_engine distribution N;
  if bool_decide (size < 0) then None
  else '(st, tr) ← startup N size input; Some (input, sys_init size st tr).

(** ** Predicates and measures used in the proofs *)

(** The message that the start-up loop sends to rank [r]. *)
Definition startup_msg (input : list Z) (kmax r : Z) : Isend :=
  if bool_decide (r ≤ kmax) then mkIsend r (input_data (r - 1)) (input !!! Z.to_nat (r - 1))
  else mkIsend r errValue_addr errValue.

(** The table entry that the start-up loop leaves for rank [r]. *)
Definition startup_slot (kmax r : Z) : Z :=
  if bool_decide (r ≤ kmax) then r - 1 else -1.

(** State of the master when the start-up loop is about to run index [k]. *)
Definition startup_inv (N size kmax k : Z) (st : Master) : Prop :=
  counter st = Z.min (k - 1) kmax
  ∧ output st = vec_make N
  ∧ Z.of_nat (length (inputIdx2proc st)) = N
  ∧ Z.of_nat (length (proc2inputIdx st)) = size
  ∧ N_activeProc st = 0
  ∧ proc2inputIdx st !! 0%nat = Some 0
  ∧ ∀ r, 1 ≤ r < k → proc2inputIdx st !! Z.to_nat r = Some (startup_slot kmax r).

(** Bounds on the two counters of rank 0 ([kmax] is the value both have when
    the loop is entered). *)
Definition master_inv (N kmax : Z) (st : Master) : Prop :=
  0 ≤ kmax ∧ kmax ≤ counter st ≤ N
  ∧ 0 ≤ N_activeProc st ≤ kmax
  ∧ (counter st < N → N_activeProc st = kmax ∧ 0 < kmax).

(** The sends of an outcome. *)
Definition sends_of (o : outcome) : list Isend :=
  match o with
  | Exited _ tr _ | Blocked _ tr | Undefined tr => tr
  | Throws => []
  end.

(** The table entry [slot] of a rank against the state [s] of that rank and
    its channels: either the rank has been told to stop, or it holds exactly
    one input, which is in its inbox or whose result is in its outbox. *)
Definition slot_ok (input : list Z) (cnt slot : Z) (s : Slave) : Prop :=
  (slot = -1 ∧ outbox s = []
   ∧ (inbox s = [errValue] ∧ finished s = false ∨ inbox s = [] ∧ finished s = true))
  ∨ (0 ≤ slot < cnt ∧ finished s = false
     ∧ ∃ x, input !! Z.to_nat slot = Some x
            ∧ (inbox s = [x] ∧ outbox s = []
               ∨ inbox s = [] ∧ outbox s = [func_expensive x])).

(** Number of ranks [1 ..] whose table entry is not the marker [-1]. *)
Definition active_count (p2i : list Z) : Z :=
  Z.of_nat (length (filter (λ slot, slot ≠ -1) (drop 1 p2i))).

Record sys_inv (input : list Z) (size : Z) (cfg : System) : Prop := mk_sys_inv {
  inv_output : length (output (mst cfg)) = length input;
  inv_i2p : length (inputIdx2proc (mst cfg)) = length input;
  inv_p2i : Z.of_nat (length (proc2inputIdx (mst cfg))) = size;
  inv_slaves : Z.of_nat (length (slaves cfg)) = size - 1;
  inv_counter : 0 ≤ counter (mst cfg) ≤ Z.of_nat (length input);
  inv_slots : ∀ r, 1 ≤ r < size →
    ∃ slot s, proc2inputIdx (mst cfg) !! Z.to_nat r = Some slot
              ∧ slave_at r (slaves cfg) = Some s
              ∧ slot_ok input (counter (mst cfg)) slot s;
  inv_distinct : ∀ r r' slot, 1 ≤ r < size → 1 ≤ r' < size → slot ≠ -1 →
    proc2inputIdx (mst cfg) !! Z.to_nat r = Some slot →
    proc2inputIdx (mst cfg) !! Z.to_nat r' = Some slot → r = r';
  inv_done : ∀ i, 0 ≤ i < counter (mst cfg) →
    (∃ r, 1 ≤ r < size ∧ proc2inputIdx (mst cfg) !! Z.to_nat r = Some i)
    ∨ (∃ x, input !! Z.to_nat i = Some x
            ∧ output (mst cfg) !! Z.to_nat i = Some (func_expensive x));
  inv_active : N_activeProc (mst cfg) = active_count (proc2inputIdx (mst cfg));
  inv_all_active : counter (mst cfg) < Z.of_nat (length input) →
    ∀ r, 1 ≤ r < size → proc2inputIdx (mst cfg) !! Z.to_nat r ≠ Some (-1)
}.

(** Passes through the loop that rank 0 can still make. *)
Definition budget (N : Z) (st : Master) : Z := (N - counter st) + N_activeProc st.

(** Work that is left in a configuration; every step uses some of it. *)
Definition pending (s : Slave) : nat := (2 * length (inbox s) + length (outbox s))%nat.

Definition measure (N : Z) (cfg : System) : Z :=
  3 * budget N (mst cfg) + Z.of_nat (sum_list_with pending (slaves cfg)).

(** With [N ≤ size - 1] the input is exhausted by the start-up loop: rank
    [r ≤ N] is sent the input [r-1] and later the termination value, a rank
    [r > N] only the termination value.  [received s ++ inbox s] is all that
    was sent to the rank so far. *)
Definition excess_ok (input : list Z) (N r slot : Z) (s : Slave) : Prop :=
  (r ≤ N ∧ ∃ x, input !! Z.to_nat (r - 1) = Some x
                ∧ (slot = r - 1 ∧ received s ++ inbox s = [x]
                   ∨ slot = -1 ∧ received s ++ inbox s = [x; errValue]))
  ∨ (N < r ∧ slot = -1 ∧ received s ++ inbox s = [errValue]).

Definition excess_inv (input : list Z) (N size : Z) (cfg : System) : Prop :=
  counter (mst cfg) = N
  ∧ ∀ r, 1 ≤ r < size →
      ∃ slot s, proc2inputIdx (mst cfg) !! Z.to_nat r = Some slot
                ∧ slave_at r (slaves cfg) = Some s
                ∧ excess_ok input N r slot s.

Global Instance action_eq_dec : EqDecision action.
Proof. solve_decision. Defined.

(** Number of termination messages to rank [r] in a trace. *)
Definition term_count (r : Z) (tr : list Isend) : Z :=
  Z.of_nat (length (filter (λ m, dest m = r ∧ buf m = errValue_addr) tr)).

(** Number of passes through the loop of rank 0, along [sched], that served
    rank [r] and executed [N_activeProc--]. *)
Fixpoint decrements (input : list Z) (r : Z) (sched : list action) (cfg : System) : Z :=
  match sched with
  | [] => 0
  | a :: sched' =>
      match sys_step input a cfg with
      | None => 0
      | Some cfg' =>
          (if bool_decide (a = master_recv r
                           ∧ N_activeProc (mst cfg') = N_activeProc (mst cfg) - 1)
           then 1 else 0)
          + decrements input r sched' cfg'
      end
  end.

(** A rank has been sent the termination message once if its table entry is
    the marker, and not at all otherwise. *)
Definition term_inv (size : Z) (cfg : System) : Prop :=
  ∀ r, 1 ≤ r < size →
    ∃ slot, proc2inputIdx (mst cfg) !! Z.to_nat r = Some slot
            ∧ term_count r (log cfg) = if decide (slot = -1) then 1 else 0.

(** A task message carries an element of the input vector. *)
Definition carries (input : list Z) (m : Isend) : Prop :=
  match buf m with
  | input_data c => 0 ≤ c ∧ input !! Z.to_nat c = Some (payload m)
  | errValue_addr => payload m = errValue
  end.

Global Instance sys_final_dec (cfg : System) : Decision (sys_final cfg).
Proof. unfold sys_final. apply _. Defined.

(** ** [Quadrature::trapezoidal] *)

Section Quadrature.

(** The type [double] and its arithmetic, the conversion from [int], the
    constant [0.5], and [Integrable::func] of the object that is passed. *)
Context {D : Type}.
Context (fadd fsub fmul fdiv : D → D → D) (of_int : Z → D) (half : D).
Context (func : D → D).

(** The loop of lines 19-28 from index [k] on; [None] when it has not been
    left after [fuel] passes. *)
Fixpoint trapezoidal_loop (fuel : nat) (a dx : D) (n k : Z) (result : D) : option D :=
  if bool_decide (k ≤ int_wrap (n + 1)) then
    match fuel with
    | O => None
    | S fuel' =>
        let x := fadd a (fmul (of_int k) dx) in
        let y := func x in
        let result' :=
          if bool_decide (k = 0 ∨ k = n) then fadd result (fmul half y)
          else fadd result y in
        trapezoidal_loop fuel' a dx n (int_wrap (k + 1)) result'
    end
  else Some result.

Definition trapezoidal (fuel : nat) (a b : D) (n : Z) : option D :=
  let dx := fdiv (fsub b a) (of_int (int_wrap (n + 1))) in
  result ← trapezoidal_loop fuel a dx n 0 (of_int 0);
  Some (fmul result dx).

(** The formula of the claim: [dx * (w_0 f(x_0) + ... + w_{n+1} f(x_{n+1}))]
    with [x_k = a + k dx] and [dx = (b - a) / (n + 1)], the terms added from
    left to right starting from 0. *)
Definition weight (one : D) (n k : Z) : D :=
  if bool_decide (k = 0 ∨ k = n) then half else one.

Definition weighted_term (one : D) (a dx : D) (n k : Z) : D :=
  fmul (weight one n k) (func (fadd a (fmul (of_int k) dx))).

Definition weighted_sum (one : D) (a dx : D) (n : Z) (ks : list Z) (start : D) : D :=
  foldl (λ acc k, fadd acc (weighted_term one a dx n k)) start ks.

Definition trapezoidal_formula (one : D) (a b : D) (n : Z) : D :=
  let dx := fdiv (fsub b a) (of_int (n + 1)) in
  fmul dx (weighted_sum one a dx n (seqZ 0 (n + 2)) (of_int 0)).

End Quadrature.

(** The rationals as an instance of the arithmetic, and an integrand that is
    1 at 0 and 0 elsewhere. *)
Definition Qc_bump (x : Qc) : Qc := if decide (x = 0%Qc) then 1%Qc else 0%Qc.

Definition Qc_trapezoidal : nat → Qc → Qc → Z → option Qc :=
  trapezoidal Qcplus Qcminus Qcmult Qcdiv Qc_of_Z (/ 2)%Qc Qc_bump.

Definition Qc_formula : Qc → Qc → Z → Qc :=
  trapezoidal_formula Qcplus Qcminus Qcmult Qcdiv Qc_of_Z (/ 2)%Qc Qc_bump 1%Qc.

(** ** The files written by the processes, and [main] *)

(** Lines 116-120: the lines of [rank-0.dat], one per input: the input value
    and the entry of [inputIdx2proc]. *)
Definition master_file (N : Z) (input i2p : list Z) : option (list (Z * Z)) :=
  mapM (λ k, x ← vec_read input k; p ← vec_read i2p k; Some (x, p)) (seqZ 0 N).

(** Every task message of the trace [tr] is remembered in [inputIdx2proc]. *)
Definition recorded (i2p : list Z) (cnt : Z) (tr : list Isend) : Prop :=
  ∀ m c, m ∈ tr → task_of m = Some c →
    0 ≤ c < cnt ∧ i2p !! Z.to_nat c = Some (dest m).

(** The state and the sends of a run of rank 0 that has not left the defined
    behaviour. *)
Definition final_state (o : outcome) : option (Master * list Isend) :=
  match o with
  | Exited st tr _ | Blocked st tr => Some (st, tr)
  | Undefined _ | Throws => None
  end.

(** The channel to a worker holds what rank 0 sent to it and it has not yet
    received; the file of a worker lists the inputs it has received. *)
Definition chan_inv (size : Z) (cfg : System) : Prop :=
  Forall (λ m, 1 ≤ dest m < size) (log cfg)
  ∧ ∀ r s, slave_at r (slaves cfg) = Some s →
      received s ++ inbox s = payloads_to r (log cfg)
      ∧ file s = (λ x, (x, r)) <$> filter (λ x, 0 ≤ x) (received s).

(** What rank 0 has sent to a worker: inputs, followed by the termination
    value exactly when the table entry of the worker is the marker. *)
Definition sent_inv (size : Z) (cfg : System) : Prop :=
  ∀ r, 1 ≤ r < size →
    ∃ slot tasks, proc2inputIdx (mst cfg) !! Z.to_nat r = Some slot
                  ∧ Forall (λ x, 0 ≤ x) tasks
                  ∧ payloads_to r (log cfg)
                    = tasks ++ (if decide (slot = -1) then [errValue] else []).

(** Steps that are left in a configuration: two for every pass of rank 0
    through its loop that is still to come (the pass itself, and the step of
    the worker that produces the result it receives), and one for every
    message on its way to a worker. *)
Definition work (N : Z) (cfg : System) : Z :=
  2 * budget N (mst cfg) + Z.of_nat (sum_list_with (λ s, length (inbox s)) (slaves cfg)).

(** The numbers that [distribution(generator)] of line 55 yields in [n]
    successive calls, starting from the engine state [generator]. *)
Fixpoint draws {Engine : Type} (distribution : Z → Z → Engine → Z * Engine)
    (n : nat) (generator : Engine) : list Z :=
  match n with
  | O => []
  | S n' =>
      let '(number, generator') := distribution 0 10 generator in
      number :: draws distribution n' generator'
  end.

(** Lines 174-186 of [main]: what the process of rank [mpiRank] runs between
    the barrier and [MPI_Finalize]. *)
Inductive process : Type :=
  | run_masterCode (N N_proc : Z)
  | run_slaveCode (rank : Z)
  | size_message.
      (* prints that the MPI size must be at least 2 *)

Definition main (mpiRank mpiSize : Z) : process :=
  let N := 21 in
  if bool_decide (mpiSize < 2) then size_message
  else if bool_decide (mpiRank = 0) then run_masterCode N mpiSize
  else run_slaveCode mpiRank.

(** The processes that [main] starts on [mpiSize] ranks, once rank 0 has
    left its start-up loop; [None] when rank 0 does not run [masterCode]. *)
Definition main_system {Engine : Type} (default_engine : Engine)
    (distribution : Z → Z → Engine → Z * Engine) (mpiSize : Z) : option (list Z * System) :=
  match main 0 mpiSize with
  | run_masterCode N N_proc => program_init default_engine distribution N N_proc
  | _ => None
  end.

(** * Properties *)

(** ** Vectors *)

Lemma vec_read_Some (v : list Z) (i x : Z) :
  vec_read v i = Some x ↔ 0 ≤ i ∧ v !! Z.to_nat i = Some x.
Proof.
  unfold vec_read. case_bool_decide; split; try done; tauto.
Qed.

Lemma vec_write_Some (v : list Z) (i x : Z) (v' : list Z) :
  vec_write v i x = Some v' ↔ 0 ≤ i < Z.of_nat (length v) ∧ v' = <[Z.to_nat i := x]> v.
Proof.
  unfold vec_write. case_bool_decide; split.
  - by intros [= <-].
  - by intros [_ ->].
  - done.
  - by intros [? _].
Qed.

Lemma vec_write_None (v : list Z) (i x : Z) :
  vec_write v i x = None ↔ ¬ (0 ≤ i < Z.of_nat (length v)).
Proof. unfold vec_write. case_bool_decide; split; try done; tauto. Qed.

Lemma vec_write_ok (v : list Z) (i x : Z) :
  0 ≤ i < Z.of_nat (length v) → vec_write v i x = Some (<[Z.to_nat i := x]> v).
Proof. intros Hi. unfold vec_write. by rewrite bool_decide_eq_true_2 by done. Qed.

Lemma vec_write_length (v : list Z) (i x : Z) (v' : list Z) :
  vec_write v i x = Some v' → length v' = length v.
Proof. rewrite vec_write_Some. intros [_ ->]. apply length_insert. Qed.

Lemma vec_read_lt (v : list Z) (i x : Z) :
  vec_read v i = Some x → 0 ≤ i < Z.of_nat (length v).
Proof.
  rewrite vec_read_Some. intros [Hi Hx]. apply lookup_lt_Some in Hx. lia.
Qed.

Lemma vec_read_is_Some (v : list Z) (i : Z) :
  0 ≤ i < Z.of_nat (length v) → is_Some (vec_read v i).
Proof.
  intros Hi. destruct (lookup_lt_is_Some_2 v (Z.to_nat i)) as [x Hx]; [lia|].
  exists x. apply vec_read_Some. split; [lia|done].
Qed.

Lemma vec_make_length (n : Z) : Z.of_nat (length (vec_make n)) = Z.max 0 n.
Proof. unfold vec_make. rewrite length_replicate. lia. Qed.

Lemma int_wrap_id (z : Z) : INT_MIN ≤ z ≤ INT_MAX → int_wrap z = z.
Proof. unfold INT_MIN, INT_MAX, int_wrap. intros H. Z.div_mod_to_equations. lia. Qed.

Lemma int_wrap_range (z : Z) : INT_MIN ≤ int_wrap z ≤ INT_MAX.
Proof. unfold INT_MIN, INT_MAX, int_wrap. Z.div_mod_to_equations. lia. Qed.

(** ** The input generator *)

Section Generator.

Context {Engine : Type} (default_engine : Engine).
Context (distribution : Z → Z → Engine → Z * Engine).

Lemma generate_length (ks : list Z) (data : list Z) (g : Engine) (out : list Z) :
  generate distribution ks data g = Some out → length out = length data.
Proof.
  revert data g. induction ks as [|k ks IH]; intros data g; simpl.
  - by intros [= ->].
  - destruct (distribution 0 10 g) as [number g'].
    destruct (vec_write data k number) as [data'|] eqn:Hw; simpl; [|done].
    intros Hg. apply IH in Hg. apply vec_write_length in Hw. congruence.
Qed.

Lemma generate_total (n : nat) (k : Z) (data : list Z) (g : Engine) :
  0 ≤ k → k + Z.of_nat n ≤ Z.of_nat (length data) →
  is_Some (generate distribution (seqZ k (Z.of_nat n)) data g).
Proof.
  revert k data g. induction n as [|n IH]; intros k data g Hk Hlen.
  - simpl. by eexists.
  - rewrite seqZ_cons by lia. simpl.
    destruct (distribution 0 10 g) as [number g'].
    destruct (vec_write data k number) as [data'|] eqn:Hw; simpl.
    + replace (Z.pred (Z.of_nat (S n))) with (Z.of_nat n) by lia.
      apply IH; [lia|]. apply vec_write_length in Hw. lia.
    + apply vec_write_None in Hw. lia.
Qed.

Lemma inputDataGenerator_total (N : Z) :
  0 ≤ N →
  ∃ input, inputDataGenerator default_engine distribution N = Some input
           ∧ Z.of_nat (length input) = N.
Proof.
  intros HN. unfold inputDataGenerator. rewrite bool_decide_eq_false_2 by lia.
  destruct (generate_total (Z.to_nat N) 0 (vec_make N) default_engine) as [input Hin].
  - done.
  - rewrite vec_make_length. lia.
  - rewrite Z2Nat.id in Hin by done. exists input. split; [done|].
    apply generate_length in Hin. rewrite Hin, vec_make_length. lia.
Qed.

Lemma inputDataGenerator_length (N : Z) (input : list Z) :
  inputDataGenerator default_engine distribution N = Some input →
  0 ≤ N ∧ Z.of_nat (length input) = N.
Proof.
  unfold inputDataGenerator. case_bool_decide; [done|]. intros Hg.
  apply generate_length in Hg. rewrite Hg, vec_make_length. lia.
Qed.

(** The contract of [std::uniform_int_distribution<int>(a, b)]: every number
    it produces lies in [a .. b]. *)
Hypothesis distribution_range :
  ∀ (a b : Z) (g : Engine), a ≤ b → a ≤ (distribution a b g).1 ≤ b.

(** Writing at the indices [ks] leaves every cell of [ks] in range, and does
    not touch the others. *)
Lemma generate_range (ks : list Z) (data : list Z) (g : Engine) (out : list Z) :
  generate distribution ks data g = Some out →
  ∀ (i : nat) (x : Z), out !! i = Some x →
    (0 ≤ x ≤ 10) ∨ ((Z.of_nat i ∉ ks) ∧ (data !! i = Some x)).
Proof.
  revert data g. induction ks as [|k ks IH]; intros data g; simpl.
  - intros [= ->] i x Hx. right. split; [apply not_elem_of_nil|done].
  - pose proof (distribution_range 0 10 g) as Hr.
    destruct (distribution 0 10 g) as [number g']. simpl in Hr.
    destruct (vec_write data k number) as [data'|] eqn:Hw; simpl; [|done].
    intros Hg i x Hx. apply vec_write_Some in Hw as [Hk ->].
    destruct (IH _ _ Hg i x Hx) as [?|[Hni Hd]]; [by left|].
    destruct (decide (i = Z.to_nat k)) as [->|Hne].
    + rewrite list_lookup_insert_eq in Hd by lia. left. simplify_eq. lia.
    + rewrite list_lookup_insert_ne in Hd by done. right. split; [|done].
      rewrite not_elem_of_cons. split; [lia|done].
Qed.

Lemma inputDataGenerator_range (N : Z) (input : list Z) :
  inputDataGenerator default_engine distribution N = Some input →
  Forall (λ x, 0 ≤ x ≤ 10) input.
Proof.
  intros Hin. pose proof (inputDataGenerator_length _ _ Hin) as [HN Hlen].
  unfold inputDataGenerator in Hin. rewrite bool_decide_eq_false_2 in Hin by lia.
  apply Forall_lookup. intros i x Hx.
  destruct (generate_range _ _ _ _ Hin i x Hx) as [?|[Hni _]]; [done|].
  exfalso. apply Hni. apply elem_of_seqZ. apply lookup_lt_Some in Hx. lia.
Qed.

End Generator.

(** ** The start-up loop *)

Lemma startup_body_spec (input : list Z) (N size kmax k : Z) (st : Master) :
  Z.of_nat (length input) = N → 0 ≤ kmax ≤ N → 1 ≤ k < size →
  startup_inv N size kmax k st →
  ∃ st', startup_body input kmax k st = Some (st', startup_msg input kmax k)
         ∧ startup_inv N size kmax (k + 1) st'.
Proof.
  intros Hlen Hkmax Hk (Hc & Ho & Hl1 & Hl2 & Hn & H0 & Hs).
  unfold startup_body, startup_msg. case_bool_decide as Hlt.
  - assert (counter st = k - 1) as Hck by lia.
    destruct (vec_read_is_Some input (counter st)) as [x Hx]; [lia|].
    rewrite Hx. simpl.
    unfold vec_write. rewrite !bool_decide_eq_true_2 by lia. simpl.
    apply vec_read_Some in Hx as [_ Hx].
    rewrite Hck in *. rewrite (list_lookup_total_correct _ _ _ Hx).
    eexists. split; [done|].
    repeat split; simpl; try done; try lia.
    + rewrite length_insert. lia.
    + rewrite length_insert. lia.
    + rewrite list_lookup_insert_ne by lia. done.
    + intros r Hr. destruct (decide (r = k)) as [->|Hne].
      * rewrite list_lookup_insert_eq by lia. unfold startup_slot.
        by rewrite bool_decide_eq_true_2 by lia.
      * rewrite list_lookup_insert_ne by lia. apply Hs. lia.
  - unfold vec_write. rewrite bool_decide_eq_true_2 by lia. simpl.
    rewrite bool_decide_eq_false_2 by lia.
    eexists. split; [done|].
    repeat split; simpl; try done; try lia.
    + rewrite length_insert. lia.
    + rewrite list_lookup_insert_ne by lia. done.
    + intros r Hr. destruct (decide (r = k)) as [->|Hne].
      * rewrite list_lookup_insert_eq by lia. unfold startup_slot.
        by rewrite bool_decide_eq_false_2 by lia.
      * rewrite list_lookup_insert_ne by lia. apply Hs. lia.
Qed.

Lemma startup_loop_spec (input : list Z) (N size kmax : Z) (n : nat) (k : Z) (st : Master) :
  Z.of_nat (length input) = N → 0 ≤ kmax ≤ N → 1 ≤ k → k + Z.of_nat n ≤ size →
  startup_inv N size kmax k st →
  ∃ st', startup_loop input kmax (seqZ k (Z.of_nat n)) st
           = Some (st', startup_msg input kmax <$> seqZ k (Z.of_nat n))
         ∧ startup_inv N size kmax (k + Z.of_nat n) st'.
Proof.
  intros Hlen Hkmax. revert k st. induction n as [|n IH]; intros k st Hk Hkn Hinv.
  - exists st. simpl. rewrite Z.add_0_r. done.
  - rewrite seqZ_cons by lia.
    replace (Z.pred (Z.of_nat (S n))) with (Z.of_nat n) by lia.
    destruct (startup_body_spec input N size kmax k st) as (st1 & Hb & Hinv1);
      [done|done|lia|done|].
    destruct (IH (Z.succ k) st1) as (st2 & Hl & Hinv2); [lia|lia|by rewrite <- Z.add_1_r|].
    exists st2. simpl. rewrite Hb. simpl. rewrite Hl. simpl. split; [done|].
    replace (k + Z.of_nat (S n)) with (Z.succ k + Z.of_nat n) by lia. done.
Qed.

(** What [startup] returns, in closed form. *)
Lemma startup_spec (N size : Z) (input : list Z) :
  Z.of_nat (length input) = N → 1 ≤ size →
  ∃ st, startup N size input
          = Some (st, startup_msg input (Z.min (size - 1) N) <$> seqZ 1 (size - 1))
        ∧ counter st = Z.min (size - 1) N
        ∧ N_activeProc st = Z.min (size - 1) N
        ∧ output st = vec_make N
        ∧ Z.of_nat (length (inputIdx2proc st)) = N
        ∧ Z.of_nat (length (proc2inputIdx st)) = size
        ∧ proc2inputIdx st !! 0%nat = Some 0
        ∧ ∀ r, 1 ≤ r < size →
            proc2inputIdx st !! Z.to_nat r = Some (startup_slot (Z.min (size - 1) N) r).
Proof.
  intros Hlen Hsize. unfold startup.
  set (kmax := Z.min (size - 1) N).
  set (st0 := mkMaster 0 _ _ _ 0).
  destruct (startup_loop_spec input N size kmax (Z.to_nat (size - 1)) 1 st0)
    as (st' & Hl & Hc & Ho & Hl1 & Hl2 & Hn & H0 & Hs).
  - done.
  - subst kmax. lia.
  - done.
  - lia.
  - unfold st0, startup_inv. simpl. rewrite !vec_make_length.
    repeat split; try lia.
    + by rewrite Hlen.
    + unfold vec_make. apply lookup_replicate_2. lia.
  - rewrite Z2Nat.id in Hl by lia. rewrite Hl. simpl.
    eexists. split; [done|]. simpl.
    replace (1 + Z.of_nat (Z.to_nat (size - 1))) with size in * by lia.
    repeat split; try done; lia.
Qed.

(** ** The receive loop of rank 0, for arbitrary arrivals *)

(** What one pass through the loop does, read off [loop_body]. *)
Lemma loop_body_Some (input : list Z) (p y : Z) (st st' : Master) (m : Isend) :
  loop_body input p y st = Some (st', m) →
  ∃ idx,
    vec_read (proc2inputIdx st) p = Some idx
    ∧ 0 ≤ idx < Z.of_nat (length (output st))
    ∧ 0 ≤ p < Z.of_nat (length (proc2inputIdx st))
    ∧ output st' = <[Z.to_nat idx := y]> (output st)
    ∧ ((counter st < Z.of_nat (length input)
        ∧ (∃ x, vec_read input (counter st) = Some x
                ∧ m = mkIsend p (input_data (counter st)) x)
        ∧ counter st' = counter st + 1
        ∧ N_activeProc st' = N_activeProc st
        ∧ inputIdx2proc st' = <[Z.to_nat (counter st) := p]> (inputIdx2proc st)
        ∧ proc2inputIdx st' = <[Z.to_nat p := counter st]> (proc2inputIdx st))
       ∨ (Z.of_nat (length input) ≤ counter st
          ∧ m = mkIsend p errValue_addr errValue
          ∧ counter st' = counter st
          ∧ N_activeProc st' = N_activeProc st - 1
          ∧ inputIdx2proc st' = inputIdx2proc st
          ∧ proc2inputIdx st' = <[Z.to_nat p := -1]> (proc2inputIdx st))).
Proof.
  unfold loop_body. intros H.
  destruct (vec_read (proc2inputIdx st) p) as [idx|] eqn:Hidx; simpl in H; [|done].
  destruct (vec_write (output st) idx y) as [out|] eqn:Hout; simpl in H; [|done].
  apply vec_write_Some in Hout as [Hio ->].
  exists idx. split; [done|]. split; [done|].
  split; [by apply vec_read_lt in Hidx|]. split.
  - case_bool_decide;
      repeat match type of H with
      | context [vec_read ?v ?i] => destruct (vec_read v i); simpl in H; [|done]
      | context [vec_write ?v ?i ?x] => destruct (vec_write v i x); simpl in H; [|done]
      end; by simplify_eq.
  - case_bool_decide as Hc; [left|right].
    + destruct (vec_read input (counter st)) as [x|] eqn:Hx; simpl in H; [|done].
      destruct (vec_write (inputIdx2proc st) _ _) as [i2p|] eqn:Hi2p; simpl in H; [|done].
      destruct (vec_write (proc2inputIdx st) _ _) as [p2i|] eqn:Hp2i; simpl in H; [|done].
      apply vec_write_Some in Hi2p as [_ ->]. apply vec_write_Some in Hp2i as [_ ->].
      simplify_eq. simpl. repeat split; try done. by exists x.
    + destruct (vec_write (proc2inputIdx st) _ _) as [p2i|] eqn:Hp2i; simpl in H; [|done].
      apply vec_write_Some in Hp2i as [_ ->].
      simplify_eq. simpl. repeat split; try done. lia.
Qed.

Lemma loop_body_master_inv (input : list Z) (N kmax p y : Z) (st st' : Master) (m : Isend) :
  Z.of_nat (length input) = N → master_inv N kmax st → 0 < N_activeProc st →
  loop_body input p y st = Some (st', m) →
  master_inv N kmax st'
  ∧ (N - counter st') + N_activeProc st' = (N - counter st) + N_activeProc st - 1
  ∧ dest m = p
  ∧ (task_of m = Some (counter st) ∧ counter st' = counter st + 1 ∧ counter st < N
     ∨ task_of m = None ∧ counter st' = counter st ∧ counter st = N
       ∧ N_activeProc st' = N_activeProc st - 1).
Proof.
  intros Hlen (Hk & Hc & Hn & Hlt) Hpos Hb.
  apply loop_body_Some in Hb as (idx & _ & _ & _ & _ & Hcases).
  destruct Hcases as [(Hc1 & (x & _ & ->) & Hc2 & Hn2 & _)|(Hc1 & -> & Hc2 & Hn2 & _)].
  - unfold master_inv. rewrite Hc2, Hn2. simpl. split; [|split; [lia|split; [done|]]].
    + repeat split; try lia. all: destruct Hlt; lia.
    + left. unfold task_of. simpl. repeat split; try done. lia.
  - unfold master_inv. rewrite Hc2, Hn2. simpl. split; [|split; [lia|split; [done|]]].
    + repeat split; try lia.
    + right. unfold task_of. simpl. repeat split; try done. lia.
Qed.

Lemma emit_Exited (ms : list Isend) (o : outcome) (st : Master) (tr : list Isend)
    (rest : list (Z * Z)) :
  emit ms o = Exited st tr rest → ∃ tr', o = Exited st tr' rest ∧ tr = ms ++ tr'.
Proof. destruct o; simpl; intros H; simplify_eq. by eexists. Qed.

Lemma sends_of_emit (ms : list Isend) (o : outcome) :
  o ≠ Throws → sends_of (emit ms o) = ms ++ sends_of o.
Proof. by destruct o. Qed.

Lemma masterLoop_not_Throws (input : list Z) (msgs : list (Z * Z)) (st : Master) :
  masterLoop input msgs st ≠ Throws.
Proof.
  revert st. induction msgs as [|[p y] msgs IH]; intros st; simpl.
  - by case_bool_decide.
  - case_bool_decide; [|done].
    destruct (loop_body input p y st) as [[st' m]|]; [|done].
    specialize (IH st'). by destruct (masterLoop input msgs st').
Qed.

(** Whatever arrives, the loop is passed at most
    [(N - counter) + N_activeProc] more times. *)
Lemma masterLoop_bounded (input : list Z) (N kmax : Z) (msgs : list (Z * Z)) (st : Master) :
  Z.of_nat (length input) = N → master_inv N kmax st →
  Z.of_nat (length (sends_of (masterLoop input msgs st)))
    ≤ (N - counter st) + N_activeProc st.
Proof.
  intros Hlen. revert st. induction msgs as [|[p y] msgs IH]; intros st Hinv; simpl.
  - destruct Hinv as (? & ? & ? & ?). case_bool_decide; simpl; lia.
  - case_bool_decide as Hpos; [|destruct Hinv as (? & ? & ? & ?); simpl; lia].
    destruct (loop_body input p y st) as [[st' m]|] eqn:Hb;
      [|destruct Hinv as (? & ? & ? & ?); simpl; lia].
    destruct (loop_body_master_inv _ _ _ _ _ _ _ _ Hlen Hinv Hpos Hb) as (Hinv' & Hm & _).
    rewrite sends_of_emit by apply masterLoop_not_Throws.
    specialize (IH st' Hinv'). simpl. lia.
Qed.

(** When the loop is left, every offset from [counter] up to [N] has been
    sent exactly once, in order, one message per arrival and to its sender. *)
Lemma masterLoop_exited (input : list Z) (N kmax : Z) (msgs : list (Z * Z))
    (st st' : Master) (tr : list Isend) (rest : list (Z * Z)) :
  Z.of_nat (length input) = N → master_inv N kmax st →
  masterLoop input msgs st = Exited st' tr rest →
  ∃ consumed,
    msgs = consumed ++ rest
    ∧ dest <$> tr = consumed.*1
    ∧ assigned tr = seqZ (counter st) (N - counter st)
    ∧ Z.of_nat (length consumed) = (N - counter st) + N_activeProc st
    ∧ N_activeProc st' = 0
    ∧ counter st' = N.
Proof.
  intros Hlen. revert st tr. induction msgs as [|[p y] msgs IH]; intros st tr Hinv; simpl.
  - case_bool_decide as Hpos; [done|]. intros [= <- <- <-].
    destruct Hinv as (Hk & Hc & Hn & Hlt).
    assert (counter st = N) as HcN by (destruct (decide (counter st < N)) as [?%Hlt|]; lia).
    exists []. rewrite HcN, Z.sub_diag. simpl. repeat split; try done; lia.
  - case_bool_decide as Hpos.
    + destruct (loop_body input p y st) as [[st1 m]|] eqn:Hb; [|done].
      intros (tr1 & Ho & ->)%emit_Exited.
      destruct (loop_body_master_inv _ _ _ _ _ _ _ _ Hlen Hinv Hpos Hb)
        as (Hinv1 & Hmeasure & Hdest & Hcases).
      destruct (IH _ _ Hinv1 Ho) as (consumed & -> & Hd & Ha & Hlc & Hn' & Hc').
      exists ((p, y) :: consumed). cbn [app fmap list_fmap fst length].
      rewrite Hd, Hdest.
      repeat split; try done; [|lia].
      unfold assigned in *. cbn [omap list_omap].
      destruct Hcases as [(Ht & Hc1 & Hlt)|(Ht & Hc1 & HcN & _)]; rewrite Ht, Ha, Hc1.
      * rewrite (seqZ_cons (counter st)) by lia. f_equal. f_equal; lia.
      * rewrite HcN, Z.sub_diag. done.
    + intros [= <- <- <-].
      destruct Hinv as (Hk & Hc & Hn & Hlt).
      assert (counter st = N) as HcN by (destruct (decide (counter st < N)) as [?%Hlt|]; lia).
      exists []. rewrite HcN, Z.sub_diag. simpl. repeat split; try done; lia.
Qed.

(** ** Lists updated at one position *)

Lemma filter_length_insert {A : Type} (P : A → Prop) `{!∀ x, Decision (P x)}
    (l : list A) (i : nat) (a b : A) :
  l !! i = Some a →
  (length (filter P (<[i:=b]> l)) + (if decide (P a) then 1 else 0)
   = length (filter P l) + (if decide (P b) then 1 else 0))%nat.
Proof.
  intros Hi. pose proof (lookup_lt_Some _ _ _ Hi) as Hlt.
  rewrite insert_take_drop by done.
  rewrite <- (take_drop_middle l i a Hi) at 3.
  rewrite !filter_app, !filter_cons, !length_app.
  destruct (decide (P a)), (decide (P b)); simpl; lia.
Qed.

Lemma sum_list_with_insert {A : Type} (f : A → nat) (l : list A) (i : nat) (a b : A) :
  l !! i = Some a →
  (sum_list_with f (<[i:=b]> l) + f a = sum_list_with f l + f b)%nat.
Proof.
  intros Hi. pose proof (lookup_lt_Some _ _ _ Hi) as Hlt.
  rewrite insert_take_drop by done.
  rewrite <- (take_drop_middle l i a Hi) at 3.
  rewrite !sum_list_with_app. simpl. lia.
Qed.

Lemma filter_all {A : Type} (P : A → Prop) `{!∀ x, Decision (P x)} (l : list A) :
  Forall P l → filter P l = l.
Proof.
  induction 1 as [|x l Hx _ IH]; [done|]. by rewrite filter_cons_True, IH.
Qed.

Lemma filter_none {A : Type} (P : A → Prop) `{!∀ x, Decision (P x)} (l : list A) :
  Forall (λ x, ¬ P x) l → filter P l = [].
Proof.
  induction 1 as [|x l Hx _ IH]; [done|]. by rewrite filter_cons_False, IH.
Qed.

(** ** Channels and worker records *)

Lemma slave_at_Some (r : Z) (sl : list Slave) (s : Slave) :
  slave_at r sl = Some s ↔ 1 ≤ r ∧ sl !! Z.to_nat (r - 1) = Some s.
Proof. unfold slave_at. case_bool_decide; split; try done; tauto. Qed.

Lemma slave_at_range (r : Z) (sl : list Slave) (s : Slave) :
  slave_at r sl = Some s → 1 ≤ r ≤ Z.of_nat (length sl).
Proof. rewrite slave_at_Some. intros [Hr Hs]. apply lookup_lt_Some in Hs. lia. Qed.

Lemma slave_at_is_Some (r : Z) (sl : list Slave) :
  1 ≤ r ≤ Z.of_nat (length sl) → is_Some (slave_at r sl).
Proof.
  intros Hr. destruct (lookup_lt_is_Some_2 sl (Z.to_nat (r - 1))) as [s Hs]; [lia|].
  exists s. apply slave_at_Some. split; [lia|done].
Qed.

Lemma slave_at_put_eq (r : Z) (sl : list Slave) (s s' : Slave) :
  slave_at r sl = Some s → slave_at r (slave_put r s' sl) = Some s'.
Proof.
  rewrite !slave_at_Some. intros [Hr Hs]. split; [done|].
  unfold slave_put. apply list_lookup_insert_eq. by apply lookup_lt_Some in Hs.
Qed.

Lemma slave_at_put_ne (r r' : Z) (sl : list Slave) (s : Slave) :
  1 ≤ r → r ≠ r' → slave_at r' (slave_put r s sl) = slave_at r' sl.
Proof.
  intros Hr Hne. unfold slave_at, slave_put. case_bool_decide; [|done].
  apply list_lookup_insert_ne. lia.
Qed.

Lemma slave_put_length (r : Z) (sl : list Slave) (s : Slave) :
  length (slave_put r s sl) = length sl.
Proof. apply length_insert. Qed.

Lemma slave_put_put (r : Z) (sl : list Slave) (s s' : Slave) :
  slave_put r s' (slave_put r s sl) = slave_put r s' sl.
Proof. unfold slave_put. apply list_insert_insert_eq. Qed.

(** A step of a worker, read off [sys_step]. *)
Lemma sys_step_slave (input : list Z) (r : Z) (cfg cfg' : System) :
  sys_step input (slave_recv r) cfg = Some cfg' →
  ∃ s x inb,
    slave_at r (slaves cfg) = Some s ∧ finished s = false ∧ inbox s = x :: inb
    ∧ cfg' = mkSystem (mst cfg)
               (slave_put r
                  (if bool_decide (x < 0)
                   then mkSlave inb (outbox s) (received s ++ [x]) (file s) true
                   else mkSlave inb (outbox s ++ [func_expensive x]) (received s ++ [x])
                          (file s ++ [(x, r)]) false)
                  (slaves cfg))
               (log cfg).
Proof.
  simpl. destruct (slave_at r (slaves cfg)) as [s|] eqn:Hs; simpl; [|done].
  destruct (finished s) eqn:Hf; [done|].
  destruct (inbox s) as [|x inb] eqn:Hi; [done|].
  intros [= <-]. exists s, x, inb. repeat split; try done.
  unfold slave_body. by case_bool_decide.
Qed.

(** A step of rank 0, read off [sys_step]. *)
Lemma sys_step_master (input : list Z) (r : Z) (cfg cfg' : System) :
  sys_step input (master_recv r) cfg = Some cfg' →
  0 < N_activeProc (mst cfg)
  ∧ ∃ s y out st' m,
      slave_at r (slaves cfg) = Some s ∧ outbox s = y :: out
      ∧ loop_body input r y (mst cfg) = Some (st', m)
      ∧ cfg' = mkSystem st'
                 (slave_put r
                    (mkSlave (inbox s ++ [payload m]) out (received s) (file s) (finished s))
                    (slaves cfg))
                 (log cfg ++ [m]).
Proof.
  simpl. case_bool_decide as Hpos; [|done].
  destruct (slave_at r (slaves cfg)) as [s|] eqn:Hs; simpl; [|done].
  destruct (outbox s) as [|y out] eqn:Ho; [done|].
  destruct (loop_body input r y (mst cfg)) as [[st' m]|] eqn:Hb; simpl; [|done].
  pose proof (loop_body_Some _ _ _ _ _ _ Hb) as (idx & _ & _ & _ & _ & Hm).
  assert (dest m = r) as Hd by (destruct Hm as [(_ & (x & _ & ->) & _)|(_ & -> & _)]; done).
  unfold deliver. rewrite Hd.
  erewrite slave_at_put_eq by done. simpl. rewrite slave_put_put.
  intros [= <-]. split; [done|]. by exists s, y, out, st', m.
Qed.

(** ** The invariant of the running program *)

Lemma slot_ok_mono (input : list Z) (cnt cnt' slot : Z) (s : Slave) :
  cnt ≤ cnt' → slot_ok input cnt slot s → slot_ok input cnt' slot s.
Proof.
  intros Hle [H|(Hs & H)]; [by left|right]. split; [lia|done].
Qed.

Lemma active_count_insert (p2i : list Z) (r old new : Z) :
  1 ≤ r → p2i !! Z.to_nat r = Some old →
  active_count (<[Z.to_nat r := new]> p2i) + (if decide (old ≠ -1) then 1 else 0)
  = active_count p2i + (if decide (new ≠ -1) then 1 else 0).
Proof.
  intros Hr Hold. unfold active_count.
  rewrite drop_insert_ge by lia.
  assert (drop 1 p2i !! (Z.to_nat r - 1)%nat = Some old) as Hd.
  { rewrite lookup_drop. rewrite <- Hold. f_equal. lia. }
  pose proof (filter_length_insert (λ slot, slot ≠ -1) _ _ _ new Hd) as Hf.
  destruct (decide (old ≠ -1)), (decide (new ≠ -1)); lia.
Qed.

Lemma sys_inv_slave_at (input : list Z) (size r : Z) (cfg : System) (s : Slave) :
  sys_inv input size cfg → slave_at r (slaves cfg) = Some s → 1 ≤ r < size.
Proof.
  intros Hinv Hs. apply slave_at_range in Hs.
  pose proof (inv_slaves _ _ _ Hinv). lia.
Qed.

(** A worker step keeps the invariant, provided no input is negative. *)
Lemma sys_inv_slave_step (input : list Z) (size r : Z) (cfg cfg' : System) :
  Forall (λ x, 0 ≤ x) input →
  sys_inv input size cfg →
  sys_step input (slave_recv r) cfg = Some cfg' →
  sys_inv input size cfg'.
Proof.
  intros Hin Hinv (s & x & inb & Hs & Hf & Hi & ->)%sys_step_slave.
  pose proof (sys_inv_slave_at _ _ _ _ _ Hinv Hs) as Hr.
  destruct Hinv as [Ho Hi2p Hp2i Hsl Hc Hslots Hdist Hdone Hact Hall].
  constructor; simpl; try done.
  - by rewrite slave_put_length.
  - intros r' Hr'. destruct (Hslots r' Hr') as (slot & s' & Hslot & Hs' & Hok).
    destruct (decide (r = r')) as [<-|Hne].
    + rewrite Hs in Hs'. injection Hs' as <-.
      eexists slot, _. split; [done|]. split; [by eapply slave_at_put_eq|].
      destruct Hok as [(-> & Hout & [[Hinb _]|[Hinb Hfin]])|(Hsl0 & _ & y & Hy & [[Hinb Hout]|[Hinb _]])];
        try congruence.
      * rewrite Hi in Hinb. injection Hinb as -> ->.
        rewrite bool_decide_eq_true_2 by (unfold errValue; lia).
        left. simpl. auto.
      * rewrite Hi in Hinb. injection Hinb as -> ->.
        pose proof (Forall_lookup_1 _ _ _ _ Hin Hy) as Hx. simpl in Hx.
        rewrite bool_decide_eq_false_2 by lia.
        right. simpl. rewrite Hout. split; [done|]. split; [done|].
        exists y. split; [done|]. by right.
    + exists slot, s'. split; [done|]. split; [|done].
      rewrite slave_at_put_ne by lia. done.
Qed.

(** In a configuration that satisfies the invariant, a message waiting for
    rank 0 comes from a rank that holds an input, and is its result. *)
Lemma sys_inv_outbox (input : list Z) (size r : Z) (cfg : System) (s : Slave) (y : Z)
    (out : list Z) :
  sys_inv input size cfg → slave_at r (slaves cfg) = Some s → outbox s = y :: out →
  1 ≤ r < size
  ∧ ∃ slot x, proc2inputIdx (mst cfg) !! Z.to_nat r = Some slot
              ∧ 0 ≤ slot < counter (mst cfg)
              ∧ input !! Z.to_nat slot = Some x
              ∧ y = func_expensive x ∧ out = [] ∧ inbox s = [] ∧ finished s = false.
Proof.
  intros Hinv Hs Hout. pose proof (sys_inv_slave_at _ _ _ _ _ Hinv Hs) as Hr.
  split; [done|].
  destruct (inv_slots _ _ _ Hinv r Hr) as (slot & s' & Hslot & Hs' & Hok).
  rewrite Hs in Hs'. injection Hs' as <-.
  destruct Hok as [(_ & Ho & _)|(Hsl & Hf & x & Hx & [[_ Ho]|[Hi Ho]])]; try congruence.
  rewrite Hout in Ho. injection Ho as -> ->.
  by exists slot, x.
Qed.

(** A step of rank 0 keeps the invariant. *)
Lemma sys_inv_master_step (input : list Z) (size r : Z) (cfg cfg' : System) :
  sys_inv input size cfg →
  sys_step input (master_recv r) cfg = Some cfg' →
  sys_inv input size cfg'.
Proof.
  intros Hinv (Hpos & s & y & out & st' & m & Hs & Hout & Hb & ->)%sys_step_master.
  destruct (sys_inv_outbox _ _ _ _ _ _ _ Hinv Hs Hout)
    as (Hr & slot & x & Hslot & Hsl & Hx & -> & -> & Hinb & Hfin).
  destruct Hinv as [Ho Hi2p Hp2i Hsls Hc Hslots Hdist Hdone Hact Hall].
  apply loop_body_Some in Hb as (idx & Hidx & _ & _ & Hout' & Hcases).
  apply vec_read_Some in Hidx as [_ Hidx]. rewrite Hslot in Hidx. injection Hidx as <-.
  assert (Z.to_nat slot < length (output (mst cfg)))%nat as Hslot_lt by lia.
  assert (Z.to_nat r < length (proc2inputIdx (mst cfg)))%nat as Hr_lt by lia.
  destruct Hcases as [(Hlt & (x' & Hx' & ->) & Hc' & Hn' & Hi2p' & Hp2i')
                     |(Hge & -> & Hc' & Hn' & Hi2p' & Hp2i')].
  - (* one more input is handed to rank [r] *)
    apply vec_read_Some in Hx' as [_ Hx'].
    constructor; simpl; rewrite ?Hout', ?Hc', ?Hn', ?Hi2p', ?Hp2i', ?length_insert,
      ?slave_put_length; try done; try lia.
    + intros r' Hr'. destruct (decide (r = r')) as [<-|Hne].
      * rewrite list_lookup_insert_eq by done.
        eexists _, _. split; [done|]. split; [by eapply slave_at_put_eq|].
        right. simpl. rewrite Hinb. split; [lia|]. split; [done|].
        exists x'. split; [done|]. by left.
      * rewrite list_lookup_insert_ne by lia.
        destruct (Hslots r' Hr') as (slot' & s' & Hslot' & Hs' & Hok).
        exists slot', s'. split; [done|]. split; [by rewrite slave_at_put_ne by lia|].
        eapply slot_ok_mono; [|done]. lia.
    + intros r1 r2 sl Hr1 Hr2 Hsl1.
      destruct (decide (r = r1)) as [<-|Hne1], (decide (r = r2)) as [<-|Hne2]; try done.
      * rewrite list_lookup_insert_eq by done. rewrite list_lookup_insert_ne by lia.
        intros [= <-] H2. exfalso.
        destruct (Hslots r2 Hr2) as (slot2 & s2 & Hslot2 & _ & Hok). rewrite H2 in Hslot2.
        injection Hslot2 as <-. destruct Hok as [(? & _)|(? & _)]; lia.
      * rewrite list_lookup_insert_eq by done. rewrite list_lookup_insert_ne by lia.
        intros H1 [= <-]. exfalso.
        destruct (Hslots r1 Hr1) as (slot1 & s1 & Hslot1 & _ & Hok). rewrite H1 in Hslot1.
        injection Hslot1 as <-. destruct Hok as [(? & _)|(? & _)]; lia.
      * rewrite !list_lookup_insert_ne by lia. by apply Hdist.
    + intros i Hi. destruct (decide (i = counter (mst cfg))) as [->|Hne].
      { left. exists r. split; [done|]. by rewrite list_lookup_insert_eq. }
      destruct (decide (i = slot)) as [->|Hns].
      { right. exists x. split; [done|]. by rewrite list_lookup_insert_eq. }
      destruct (Hdone i) as [(r' & Hr' & Hsl')|(xi & Hxi & Hoi)]; [lia| |].
      * left. exists r'. split; [done|].
        rewrite list_lookup_insert_ne; [done|]. intros Heq.
        assert (r = r') as <- by lia. congruence.
      * right. exists xi. split; [done|]. rewrite list_lookup_insert_ne by lia. done.
    + pose proof (active_count_insert _ r slot (counter (mst cfg)) (proj1 Hr) Hslot)
        as Hcount.
      rewrite !decide_True in Hcount by lia. lia.
    + intros _ r' Hr'. destruct (decide (r = r')) as [<-|Hne].
      * rewrite list_lookup_insert_eq by done. intros [= ?]. lia.
      * rewrite list_lookup_insert_ne by lia. apply Hall; [lia|done].
  - (* the input is exhausted: rank [r] is told to stop *)
    constructor; simpl; rewrite ?Hout', ?Hc', ?Hn', ?Hi2p', ?Hp2i', ?length_insert,
      ?slave_put_length; try done; try lia.
    + intros r' Hr'. destruct (decide (r = r')) as [<-|Hne].
      * rewrite list_lookup_insert_eq by done.
        eexists _, _. split; [done|]. split; [by eapply slave_at_put_eq|].
        left. simpl. rewrite Hinb. split; [done|]. split; [done|]. by left.
      * rewrite list_lookup_insert_ne by lia.
        destruct (Hslots r' Hr') as (slot' & s' & Hslot' & Hs' & Hok).
        exists slot', s'. split; [done|]. split; [by rewrite slave_at_put_ne by lia|done].
    + intros r1 r2 sl Hr1 Hr2 Hsl1.
      destruct (decide (r = r1)) as [<-|Hne1], (decide (r = r2)) as [<-|Hne2]; try done.
      * rewrite list_lookup_insert_eq by done. intros [= <-]. done.
      * rewrite list_lookup_insert_eq by done. rewrite list_lookup_insert_ne by lia.
        intros _ [= <-]. done.
      * rewrite !list_lookup_insert_ne by lia. by apply Hdist.
    + intros i Hi.
      destruct (decide (i = slot)) as [->|Hns].
      { right. exists x. split; [done|]. by rewrite list_lookup_insert_eq. }
      destruct (Hdone i) as [(r' & Hr' & Hsl')|(xi & Hxi & Hoi)]; [lia| |].
      * left. exists r'. split; [done|].
        rewrite list_lookup_insert_ne; [done|]. intros Heq.
        assert (r = r') as <- by lia. congruence.
      * right. exists xi. split; [done|]. rewrite list_lookup_insert_ne by lia. done.
    + pose proof (active_count_insert _ r slot (-1) (proj1 Hr) Hslot) as Hcount.
      rewrite decide_True, decide_False in Hcount by lia. lia.
Qed.

(** ** The configuration after the start-up loop *)

Lemma startup_msg_dest (input : list Z) (kmax r : Z) : dest (startup_msg input kmax r) = r.
Proof. unfold startup_msg. by case_bool_decide. Qed.

Lemma payloads_to_startup (input : list Z) (kmax r : Z) (n : nat) (a : Z) :
  payloads_to r (startup_msg input kmax <$> seqZ a (Z.of_nat n))
  = if bool_decide (a ≤ r < a + Z.of_nat n) then [payload (startup_msg input kmax r)] else [].
Proof.
  revert a. induction n as [|n IH]; intros a.
  - simpl. by rewrite bool_decide_eq_false_2 by lia.
  - rewrite seqZ_cons by lia. replace (Z.pred (Z.of_nat (S n))) with (Z.of_nat n) by lia.
    unfold payloads_to in *. rewrite fmap_cons, filter_cons, startup_msg_dest.
    specialize (IH (Z.succ a)).
    destruct (decide (a = r)) as [->|Hne].
    + rewrite fmap_cons, IH. rewrite bool_decide_eq_false_2 by lia.
      by rewrite bool_decide_eq_true_2 by lia.
    + rewrite IH. erewrite bool_decide_ext; [done|lia].
Qed.

Lemma active_count_startup (p2i : list Z) (size kmax : Z) :
  Z.of_nat (length p2i) = size → 0 ≤ kmax ≤ size - 1 →
  (∀ r, 1 ≤ r < size → p2i !! Z.to_nat r = Some (startup_slot kmax r)) →
  active_count p2i = kmax.
Proof.
  intros Hlen Hk Hs. unfold active_count.
  assert (drop 1 p2i = startup_slot kmax <$> seqZ 1 (size - 1)) as ->.
  { apply list_eq. intros i. rewrite lookup_drop, list_lookup_fmap.
    destruct (decide (Z.of_nat i < size - 1)) as [Hi|Hi].
    - rewrite lookup_seqZ_lt by done. simpl.
      replace (S i) with (Z.to_nat (1 + Z.of_nat i)) by lia. apply Hs. lia.
    - rewrite lookup_seqZ_ge by lia. simpl. apply lookup_ge_None. lia. }
  replace (size - 1) with (kmax + (size - 1 - kmax)) by lia.
  rewrite seqZ_app by lia. rewrite fmap_app, filter_app, length_app.
  rewrite filter_all, filter_none.
  - rewrite length_fmap, length_seqZ. simpl. lia.
  - apply Forall_fmap, Forall_forall. intros r Hr%elem_of_seqZ. simpl.
    unfold startup_slot. case_bool_decide; lia.
  - apply Forall_fmap, Forall_forall. intros r Hr%elem_of_seqZ. simpl.
    unfold startup_slot. case_bool_decide; lia.
Qed.

Lemma sys_init_slave_at (size r : Z) (st : Master) (tr : list Isend) :
  1 ≤ r < size →
  slave_at r (slaves (sys_init size st tr)) = Some (mkSlave (payloads_to r tr) [] [] [] false).
Proof.
  intros Hr. apply slave_at_Some. split; [lia|]. simpl.
  rewrite list_lookup_fmap, lookup_seqZ_lt by lia. simpl. do 3 f_equal. lia.
Qed.

Lemma sys_init_inv (N size : Z) (input : list Z) (st : Master) (tr : list Isend) :
  Z.of_nat (length input) = N → 2 ≤ size →
  startup N size input = Some (st, tr) →
  sys_inv input size (sys_init size st tr)
  ∧ master_inv N (Z.min (size - 1) N) st
  ∧ counter st = Z.min (size - 1) N
  ∧ N_activeProc st = Z.min (size - 1) N
  ∧ tr = startup_msg input (Z.min (size - 1) N) <$> seqZ 1 (size - 1).
Proof.
  intros Hlen Hsize Hst.
  destruct (startup_spec N size input Hlen ltac:(lia))
    as (st0 & Heq & Hc & Hn & Ho & Hi2p & Hp2i & H0 & Hs).
  rewrite Heq in Hst. injection Hst as <- <-.
  set (kmax := Z.min (size - 1) N) in *.
  split; [|split; [|done]].
  - constructor; simpl.
    + rewrite Ho. unfold vec_make. rewrite length_replicate. lia.
    + lia.
    + done.
    + rewrite length_fmap, length_seqZ. lia.
    + lia.
    + intros r Hr. rewrite (Hs r Hr).
      eexists _, _. split; [done|]. split; [by apply (sys_init_slave_at size r st0)|].
      rewrite <- (Z2Nat.id (size - 1)) by lia. rewrite payloads_to_startup.
      rewrite bool_decide_eq_true_2 by lia. unfold startup_slot, startup_msg.
      case_bool_decide as Hle; simpl.
      * right. split; [lia|]. split; [done|].
        exists (input !!! Z.to_nat (r - 1)). split; [|by left].
        apply list_lookup_lookup_total_lt. lia.
      * left. auto.
    + intros r r' slot Hr Hr' Hslot. rewrite (Hs r Hr), (Hs r' Hr').
      unfold startup_slot. intros [= H1] [= H2]. repeat case_bool_decide; lia.
    + intros i Hi. left. exists (i + 1). split; [lia|].
      rewrite Hs by lia. unfold startup_slot. rewrite bool_decide_eq_true_2 by lia.
      f_equal. lia.
    + rewrite Hn. symmetry. apply (active_count_startup _ size); [done|lia|done].
    + intros Hlt r Hr. rewrite (Hs r Hr). unfold startup_slot.
      rewrite bool_decide_eq_true_2 by lia. intros [= ?]. lia.
  - unfold master_inv. rewrite Hc, Hn. subst kmax. lia.
Qed.

(** ** Executions *)

Lemma sys_step_inv (input : list Z) (size : Z) (a : action) (cfg cfg' : System) :
  Forall (λ x, 0 ≤ x) input →
  sys_inv input size cfg → sys_step input a cfg = Some cfg' → sys_inv input size cfg'.
Proof.
  intros Hin Hinv Hstep. destruct a as [r|r].
  - by eapply sys_inv_master_step.
  - by eapply sys_inv_slave_step.
Qed.

Lemma sys_exec_inv (input : list Z) (size : Z) (sched : list action) (cfg cfg' : System) :
  Forall (λ x, 0 ≤ x) input →
  sys_inv input size cfg → sys_exec input sched cfg = Some cfg' → sys_inv input size cfg'.
Proof.
  intros Hin. revert cfg. induction sched as [|a sched IH]; intros cfg Hinv; simpl.
  - by intros [= <-].
  - destruct (sys_step input a cfg) as [cfg1|] eqn:Hstep; simpl; [|done].
    apply IH. by eapply sys_step_inv.
Qed.

Lemma sys_exec_app (input : list Z) (s1 s2 : list action) (cfg : System) :
  sys_exec input (s1 ++ s2) cfg = sys_exec input s1 cfg ≫= sys_exec input s2.
Proof.
  revert cfg. induction s1 as [|a s1 IH]; intros cfg; simpl; [done|].
  destruct (sys_step input a cfg) as [cfg1|]; simpl; [apply IH|done].
Qed.

Lemma sys_step_budget (input : list Z) (N kmax : Z) (a : action) (cfg cfg' : System) :
  Z.of_nat (length input) = N → master_inv N kmax (mst cfg) →
  sys_step input a cfg = Some cfg' →
  master_inv N kmax (mst cfg')
  ∧ budget N (mst cfg') = budget N (mst cfg) - (if is_master_recv a then 1 else 0).
Proof.
  intros Hlen Hinv Hstep. destruct a as [r|r].
  - apply sys_step_master in Hstep
      as (Hpos & s & y & out & st' & m & Hs & Hout & Hb & ->).
    destruct (loop_body_master_inv _ _ _ _ _ _ _ _ Hlen Hinv Hpos Hb) as (Hinv' & Hm & _).
    simpl. unfold budget. split; [done|lia].
  - apply sys_step_slave in Hstep as (s & x & inb & _ & _ & _ & ->). simpl.
    split; [done|lia].
Qed.

Lemma sys_exec_budget (input : list Z) (N kmax : Z) (sched : list action)
    (cfg cfg' : System) :
  Z.of_nat (length input) = N → master_inv N kmax (mst cfg) →
  sys_exec input sched cfg = Some cfg' →
  master_inv N kmax (mst cfg')
  ∧ receives sched = budget N (mst cfg) - budget N (mst cfg').
Proof.
  intros Hlen. revert cfg. induction sched as [|a sched IH]; intros cfg Hinv; simpl.
  - intros [= <-]. split; [done|]. unfold receives. simpl. lia.
  - destruct (sys_step input a cfg) as [cfg1|] eqn:Hstep; simpl; [|done].
    intros Hexec.
    destruct (sys_step_budget _ _ _ _ _ _ Hlen Hinv Hstep) as [Hinv1 Hb1].
    destruct (IH _ Hinv1 Hexec) as [Hinv' Hr]. split; [done|].
    unfold receives in *. rewrite filter_cons.
    destruct a; simpl in *; lia.
Qed.

Lemma slave_put_sum (f : Slave → nat) (r : Z) (sl : list Slave) (s s' : Slave) :
  slave_at r sl = Some s →
  (sum_list_with f (slave_put r s' sl) + f s = sum_list_with f sl + f s')%nat.
Proof.
  intros [_ Hs]%slave_at_Some. by apply sum_list_with_insert.
Qed.

Lemma sys_step_measure (input : list Z) (N : Z) (a : action) (cfg cfg' : System) :
  sys_step input a cfg = Some cfg' → measure N cfg' < measure N cfg.
Proof.
  intros Hstep. unfold measure, budget. destruct a as [r|r].
  - apply sys_step_master in Hstep
      as (Hpos & s & y & out & st' & m & Hs & Hout & Hb & ->).
    apply loop_body_Some in Hb as (idx & _ & _ & _ & _ & Hcases). cbn [mst slaves].
    set (s' := mkSlave (inbox s ++ [payload m]) out (received s) (file s) (finished s)).
    pose proof (slave_put_sum pending r _ s s' Hs) as Hsum.
    assert (pending s' + 1 = pending s + 2)%nat as Hp.
    { unfold pending, s'. cbn [inbox outbox]. rewrite Hout, length_app. simpl. lia. }
    destruct Hcases as [(_ & _ & Hc & Hn & _)|(_ & _ & Hc & Hn & _)]; lia.
  - apply sys_step_slave in Hstep as (s & x & inb & Hs & _ & Hi & ->). cbn [mst slaves].
    match goal with |- context [slave_put r ?t] => set (s' := t) end.
    pose proof (slave_put_sum pending r _ s s' Hs) as Hsum.
    assert (pending s' + 1 ≤ pending s)%nat as Hp.
    { unfold pending, s'. rewrite Hi.
      case_bool_decide; cbn [inbox outbox]; rewrite ?length_app; simpl; lia. }
    lia.
Qed.

Lemma sys_exec_measure (input : list Z) (N : Z) (sched : list action) (cfg cfg' : System) :
  sys_exec input sched cfg = Some cfg' →
  Z.of_nat (length sched) + measure N cfg' ≤ measure N cfg.
Proof.
  revert cfg. induction sched as [|a sched IH]; intros cfg; simpl.
  - intros [= <-]. lia.
  - destruct (sys_step input a cfg) as [cfg1|] eqn:Hstep; simpl; [|done].
    intros Hexec%IH. apply (sys_step_measure _ N) in Hstep. lia.
Qed.

Lemma measure_nonneg (N kmax : Z) (cfg : System) :
  master_inv N kmax (mst cfg) → 0 ≤ measure N cfg.
Proof. intros (? & ? & ? & ?). unfold measure, budget. lia. Qed.

Lemma sum_list_with_const {A : Type} (f : A → nat) (c : nat) (l : list A) :
  Forall (λ x, f x = c) l → sum_list_with f l = (c * length l)%nat.
Proof.
  induction 1 as [|x l Hx _ IH]; simpl; [lia|]. rewrite Hx, IH. lia.
Qed.

Lemma measure_init (N size : Z) (input : list Z) (st : Master) (tr : list Isend) :
  Z.of_nat (length input) = N → 2 ≤ size →
  startup N size input = Some (st, tr) →
  measure N (sys_init size st tr) = 3 * N + 2 * (size - 1).
Proof.
  intros Hlen Hsize Hst.
  destruct (sys_init_inv _ _ _ _ _ Hlen Hsize Hst) as (_ & _ & Hc & Hn & Htr).
  unfold measure, budget, sys_init. cbn [mst slaves]. rewrite Hc, Hn.
  rewrite (sum_list_with_const _ 2).
  - rewrite length_fmap, length_seqZ. lia.
  - apply Forall_fmap, Forall_forall. intros r Hr%elem_of_seqZ.
    unfold pending. cbn [compose inbox outbox].
    rewrite Htr. rewrite <- (Z2Nat.id (size - 1)) by lia. rewrite payloads_to_startup.
    rewrite bool_decide_eq_true_2 by lia. done.
Qed.

(** ** Progress *)

Lemma active_count_nonneg (p2i : list Z) : 0 ≤ active_count p2i.
Proof. unfold active_count. lia. Qed.

Lemma active_count_pos (p2i : list Z) (r slot : Z) :
  1 ≤ r → p2i !! Z.to_nat r = Some slot → slot ≠ -1 → 0 < active_count p2i.
Proof.
  intros Hr Hslot Hne. unfold active_count.
  assert (slot ∈ filter (λ slot, slot ≠ -1) (drop 1 p2i)) as Hin.
  { apply list_elem_of_filter. split; [done|].
    apply list_elem_of_lookup. exists (Z.to_nat r - 1)%nat.
    rewrite lookup_drop, <- Hslot. f_equal. lia. }
  destruct (filter _ _); [by apply elem_of_nil in Hin|simpl; lia].
Qed.

Lemma active_count_exists (p2i : list Z) :
  0 < active_count p2i →
  ∃ r slot, 1 ≤ r ∧ p2i !! Z.to_nat r = Some slot ∧ slot ≠ -1.
Proof.
  unfold active_count. intros Hpos.
  destruct (filter (λ slot, slot ≠ -1) (drop 1 p2i)) as [|slot l] eqn:Hf; [simpl in Hpos; lia|].
  assert (slot ∈ filter (λ slot, slot ≠ -1) (drop 1 p2i)) as Hin by (rewrite Hf; left).
  apply list_elem_of_filter in Hin as [Hne Hin].
  apply list_elem_of_lookup in Hin as [i Hi]. rewrite lookup_drop in Hi.
  exists (Z.of_nat (1 + i)), slot. split; [lia|]. split; [|done].
  by rewrite Nat2Z.id.
Qed.

Lemma loop_body_defined (input : list Z) (p y slot : Z) (st : Master) :
  0 ≤ p → proc2inputIdx st !! Z.to_nat p = Some slot →
  0 ≤ slot < Z.of_nat (length (output st)) →
  0 ≤ counter st → length (inputIdx2proc st) = length input →
  is_Some (loop_body input p y st).
Proof.
  intros Hp Hslot Hs Hc Hlen. unfold loop_body.
  assert (vec_read (proc2inputIdx st) p = Some slot) as -> by by apply vec_read_Some.
  pose proof (lookup_lt_Some _ _ _ Hslot) as Hplt.
  simpl. rewrite (vec_write_ok (output st)) by done. simpl.
  case_bool_decide as Hlt.
  - destruct (vec_read_is_Some input (counter st)) as [x ->]; [lia|].
    simpl. rewrite (vec_write_ok (inputIdx2proc st)) by lia. simpl.
    rewrite (vec_write_ok (proc2inputIdx st)) by lia. by eexists.
  - rewrite (vec_write_ok (proc2inputIdx st)) by lia. by eexists.
Qed.

(** No step is possible in a final configuration. *)
Lemma sys_final_stuck (input : list Z) (a : action) (cfg : System) :
  sys_final cfg → sys_step input a cfg = None.
Proof.
  intros [Hn Hf]. destruct a as [r|r]; simpl.
  - by rewrite bool_decide_eq_false_2 by lia.
  - destruct (slave_at r (slaves cfg)) as [s|] eqn:Hs; simpl; [|done].
    apply slave_at_Some in Hs as [_ Hs].
    by rewrite (Forall_lookup_1 _ _ _ _ Hf Hs).
Qed.

(** Absence of deadlock: in every other configuration that satisfies the
    invariant some process can take a step. *)
Lemma sys_progress (input : list Z) (size : Z) (cfg : System) :
  Forall (λ x, 0 ≤ x) input → sys_inv input size cfg →
  sys_final cfg ∨ ∃ a cfg', sys_step input a cfg = Some cfg'.
Proof.
  intros Hin Hinv. destruct (decide (sys_final cfg)) as [|Hnf]; [by left|right].
  assert (∃ r slot s, 1 ≤ r < size
            ∧ proc2inputIdx (mst cfg) !! Z.to_nat r = Some slot
            ∧ slave_at r (slaves cfg) = Some s
            ∧ slot_ok input (counter (mst cfg)) slot s
            ∧ finished s = false) as (r & slot & s & Hr & Hslot & Hs & Hok & Hfin).
  { destruct (decide (0 < N_activeProc (mst cfg))) as [Hpos|Hnpos].
    - rewrite (inv_active _ _ _ Hinv) in Hpos.
      apply active_count_exists in Hpos as (r & slot & Hr & Hslot & Hne).
      assert (1 ≤ r < size) as Hr'.
      { apply lookup_lt_Some in Hslot. pose proof (inv_p2i _ _ _ Hinv). lia. }
      destruct (inv_slots _ _ _ Hinv r Hr') as (slot' & s & Hslot' & Hs & Hok).
      rewrite Hslot in Hslot'. injection Hslot' as <-.
      exists r, slot, s. repeat split; try done; try lia.
      destruct Hok as [(? & _)|(_ & ? & _)]; done.
    - assert (¬ Forall (λ s, finished s = true) (slaves cfg)) as Hex.
      { intros Hall. apply Hnf. split; [lia|done]. }
      apply not_Forall_Exists in Hex; [|apply _].
      apply Exists_exists in Hex as (s & Hsin & Hf).
      apply list_elem_of_lookup in Hsin as [i Hi].
      pose proof (lookup_lt_Some _ _ _ Hi) as Hilt.
      pose proof (inv_slaves _ _ _ Hinv) as Hlen.
      assert (1 ≤ Z.of_nat i + 1 < size) as Hr by lia.
      destruct (inv_slots _ _ _ Hinv _ Hr) as (slot & s' & Hslot & Hs & Hok).
      assert (s' = s) as ->.
      { apply slave_at_Some in Hs as [_ Hs].
        replace (Z.to_nat (Z.of_nat i + 1 - 1)) with i in Hs by lia. congruence. }
      exists (Z.of_nat i + 1), slot, s. repeat split; try done; try lia.
      simpl in Hf. by destruct (finished s). }
  destruct Hok as [(-> & Hout & [[Hinb _]|[_ Hf]])|(Hsl & _ & x & Hx & [[Hinb Hout]|[Hinb Hout]])];
    try congruence.
  - exists (slave_recv r). simpl. rewrite Hs. simpl. rewrite Hfin, Hinb. by eexists.
  - exists (slave_recv r). simpl. rewrite Hs. simpl. rewrite Hfin, Hinb. by eexists.
  - exists (master_recv r). simpl.
    assert (0 < N_activeProc (mst cfg)) as Hpos.
    { rewrite (inv_active _ _ _ Hinv). apply (active_count_pos _ r slot); [lia|done|lia]. }
    rewrite bool_decide_eq_true_2 by done. rewrite Hs. simpl. rewrite Hout.
    destruct (loop_body_defined input r (func_expensive x) slot (mst cfg)) as [[st' m] Hb].
    + lia.
    + done.
    + pose proof (inv_output _ _ _ Hinv). pose proof (inv_counter _ _ _ Hinv). lia.
    + pose proof (inv_counter _ _ _ Hinv). lia.
    + apply (inv_i2p _ _ _ Hinv).
    + rewrite Hb. simpl.
      pose proof (loop_body_Some _ _ _ _ _ _ Hb) as (idx & _ & _ & _ & _ & Hm).
      assert (dest m = r) as Hd
        by (destruct Hm as [(_ & (x' & _ & ->) & _)|(_ & -> & _)]; done).
      unfold deliver. rewrite Hd. erewrite slave_at_put_eq by done. simpl. by eexists.
Qed.

(** Every configuration that satisfies the invariants can be run to a final
    one. *)
Lemma sys_completes (input : list Z) (N kmax size : Z) (n : nat) (cfg : System) :
  Forall (λ x, 0 ≤ x) input → Z.of_nat (length input) = N →
  sys_inv input size cfg → master_inv N kmax (mst cfg) →
  measure N cfg ≤ Z.of_nat n →
  ∃ sched cfg', sys_exec input sched cfg = Some cfg' ∧ sys_final cfg'.
Proof.
  intros Hin Hlen. revert cfg. induction n as [|n IH]; intros cfg Hinv Hminv Hn.
  - destruct (sys_progress _ _ _ Hin Hinv) as [Hfinal|(a & cfg' & Hstep)].
    + by exists [], cfg.
    + pose proof (sys_step_measure _ N _ _ _ Hstep) as Hlt.
      destruct (sys_step_budget _ _ _ _ _ _ Hlen Hminv Hstep) as [Hminv' _].
      pose proof (measure_nonneg _ _ _ Hminv'). lia.
  - destruct (sys_progress _ _ _ Hin Hinv) as [Hfinal|(a & cfg' & Hstep)].
    + by exists [], cfg.
    + pose proof (sys_step_measure _ N _ _ _ Hstep) as Hlt.
      destruct (sys_step_budget _ _ _ _ _ _ Hlen Hminv Hstep) as [Hminv' _].
      destruct (IH cfg') as (sched & cfg'' & Hexec & Hfinal);
        [by eapply sys_step_inv|done|lia|].
      exists (a :: sched), cfg''. simpl. rewrite Hstep. done.
Qed.

(** ** The configuration in which rank 0 leaves its loop *)

Lemma sys_inv_exit (input : list Z) (size : Z) (cfg : System) :
  sys_inv input size cfg → 2 ≤ size → N_activeProc (mst cfg) ≤ 0 →
  N_activeProc (mst cfg) = 0
  ∧ counter (mst cfg) = Z.of_nat (length input)
  ∧ (∀ r, 1 ≤ r < size → proc2inputIdx (mst cfg) !! Z.to_nat r = Some (-1))
  ∧ (∀ i x, input !! i = Some x → output (mst cfg) !! i = Some (func_expensive x)).
Proof.
  intros Hinv Hsize Hn.
  pose proof (inv_active _ _ _ Hinv) as Hact.
  pose proof (active_count_nonneg (proc2inputIdx (mst cfg))) as Hnn.
  assert (∀ r, 1 ≤ r < size → proc2inputIdx (mst cfg) !! Z.to_nat r = Some (-1)) as Hall.
  { intros r Hr. destruct (inv_slots _ _ _ Hinv r Hr) as (slot & s & Hslot & _ & _).
    rewrite Hslot. f_equal. destruct (decide (slot = -1)) as [|Hne]; [done|].
    pose proof (active_count_pos _ r slot (proj1 Hr) Hslot Hne). lia. }
  assert (counter (mst cfg) = Z.of_nat (length input)) as Hc.
  { pose proof (inv_counter _ _ _ Hinv).
    destruct (decide (counter (mst cfg) < Z.of_nat (length input))) as [Hlt|]; [|lia].
    exfalso. apply (inv_all_active _ _ _ Hinv Hlt 1); [lia|]. apply Hall. lia. }
  repeat split; try done; try lia.
  intros i x Hx. pose proof (lookup_lt_Some _ _ _ Hx) as Hi.
  destruct (inv_done _ _ _ Hinv (Z.of_nat i)) as [(r & Hr & Hslot)|(x' & Hx' & Ho)]; [lia| |].
  - rewrite (Hall r Hr) in Hslot. injection Hslot as ?. lia.
  - rewrite Nat2Z.id in *. congruence.
Qed.

(** ** The run of rank 0 inside an execution *)

Lemma emit_emit (a b : list Isend) (o : outcome) : emit a (emit b o) = emit (a ++ b) o.
Proof. destruct o; simpl; by rewrite ?app_assoc. Qed.

Lemma emit_nil (o : outcome) : emit [] o = o.
Proof. by destruct o. Qed.

(** Rank 0 inside the system behaves as [masterLoop] on the arrivals of the
    execution. *)
Lemma sys_exec_masterLoop (input : list Z) (sched : list action) (cfg cfg' : System)
    (extra : list (Z * Z)) :
  sys_exec input sched cfg = Some cfg' →
  ∃ tr, log cfg' = log cfg ++ tr
        ∧ masterLoop input (arrivals input sched cfg ++ extra) (mst cfg)
          = emit tr (masterLoop input extra (mst cfg')).
Proof.
  revert cfg. induction sched as [|a sched IH]; intros cfg; simpl.
  - intros [= <-]. exists []. by rewrite app_nil_r, emit_nil.
  - destruct (sys_step input a cfg) as [cfg1|] eqn:Hstep; simpl; [|done].
    intros Hexec. destruct (IH _ Hexec) as (tr & Hlog & Hloop).
    destruct a as [r|r].
    + apply sys_step_master in Hstep
        as (Hpos & s & y & out & st' & m & Hs & Hout & Hb & ->).
      simpl in *. rewrite Hs, Hout. simpl.
      rewrite bool_decide_eq_true_2 by done. rewrite Hb, Hloop, emit_emit.
      exists (m :: tr). split; [|done]. rewrite Hlog, <- app_assoc. done.
    + apply sys_step_slave in Hstep as (s & x & inb & _ & _ & _ & ->).
      simpl in *. by exists tr.
Qed.

(** ** More workers than inputs *)

Lemma excess_inv_init (N size : Z) (input : list Z) (st : Master) (tr : list Isend) :
  Z.of_nat (length input) = N → 2 ≤ size → N ≤ size - 1 →
  startup N size input = Some (st, tr) →
  excess_inv input N size (sys_init size st tr).
Proof.
  intros Hlen Hsize HN Hst.
  destruct (startup_spec N size input Hlen ltac:(lia))
    as (st0 & Heq & Hc & Hn & Ho & Hi2p & Hp2i & H0 & Hs).
  rewrite Heq in Hst. injection Hst as <- <-.
  replace (Z.min (size - 1) N) with N in * by lia.
  split; [done|]. intros r Hr. cbn [sys_init mst]. rewrite (Hs r Hr).
  eexists _, _. split; [done|]. split; [by apply (sys_init_slave_at size r st0)|].
  unfold excess_ok. cbn [received inbox app].
  rewrite <- (Z2Nat.id (size - 1)) by lia. rewrite payloads_to_startup.
  rewrite bool_decide_eq_true_2 by lia. unfold startup_slot, startup_msg.
  case_bool_decide as Hle; simpl.
  - left. split; [done|]. exists (input !!! Z.to_nat (r - 1)).
    split; [apply list_lookup_lookup_total_lt; lia|]. by left.
  - right. split; [lia|done].
Qed.

Lemma excess_inv_step (input : list Z) (N size : Z) (a : action) (cfg cfg' : System) :
  Z.of_nat (length input) = N →
  sys_inv input size cfg → excess_inv input N size cfg →
  sys_step input a cfg = Some cfg' → excess_inv input N size cfg'.
Proof.
  intros Hlen Hinv [Hc Hex] Hstep. destruct a as [r|r].
  - apply sys_step_master in Hstep
      as (Hpos & s & y & out & st' & m & Hs & Hout & Hb & ->).
    destruct (sys_inv_outbox _ _ _ _ _ _ _ Hinv Hs Hout)
      as (Hr & slot & x & Hslot & Hsl & Hx & -> & -> & Hinb & Hfin).
    apply loop_body_Some in Hb as (idx & _ & _ & _ & _ & Hcases).
    destruct Hcases as [(Hlt & _)|(_ & -> & Hc' & _ & _ & Hp2i')]; [lia|].
    split; [simpl; lia|]. intros r' Hr'. simpl. rewrite Hp2i'.
    destruct (Hex r' Hr') as (slot' & s' & Hslot' & Hs' & Hok).
    destruct (decide (r = r')) as [<-|Hne].
    + rewrite list_lookup_insert_eq by (by apply lookup_lt_Some in Hslot).
      eexists _, _. split; [done|]. split; [by eapply slave_at_put_eq|].
      rewrite Hs in Hs'. injection Hs' as <-. rewrite Hslot in Hslot'. injection Hslot' as <-.
      unfold excess_ok in *. cbn [received inbox].
      destruct Hok as [(Hle & x' & Hx' & [[Hsr Hh]|[Hsr Hh]])|(Hlt & Hsr & Hh)]; try lia.
      left. split; [done|]. exists x'. split; [done|]. right. split; [done|].
      by rewrite app_assoc, Hh.
    + rewrite list_lookup_insert_ne by lia.
      exists slot', s'. split; [done|]. split; [|done]. by rewrite slave_at_put_ne by lia.
  - apply sys_step_slave in Hstep as (s & x & inb & Hs & Hf & Hi & ->).
    split; [done|]. intros r' Hr'. simpl.
    destruct (Hex r' Hr') as (slot' & s' & Hslot' & Hs' & Hok).
    destruct (decide (r = r')) as [<-|Hne].
    + rewrite Hs in Hs'. injection Hs' as <-.
      eexists _, _. split; [done|]. split; [by eapply slave_at_put_eq|].
      assert (∀ t : Slave, received t = received s ++ [x] → inbox t = inb →
                excess_ok input N r slot' t) as Hsame.
      { intros t Hrt Hit. unfold excess_ok in *. rewrite Hrt, Hit, <- app_assoc.
        simpl. by rewrite <- Hi. }
      case_bool_decide; by apply Hsame.
    + exists slot', s'. split; [done|]. split; [|done].
      rewrite slave_at_put_ne; [done| |done].
      by apply (sys_inv_slave_at _ _ _ _ _ Hinv Hs).
Qed.

Lemma excess_inv_exec (input : list Z) (N size : Z) (sched : list action)
    (cfg cfg' : System) :
  Forall (λ x, 0 ≤ x) input → Z.of_nat (length input) = N →
  sys_inv input size cfg → excess_inv input N size cfg →
  sys_exec input sched cfg = Some cfg' → excess_inv input N size cfg'.
Proof.
  intros Hin Hlen. revert cfg. induction sched as [|a sched IH]; intros cfg Hinv Hex; simpl.
  - by intros [= <-].
  - destruct (sys_step input a cfg) as [cfg1|] eqn:Hstep; simpl; [|done].
    apply IH; [by eapply sys_step_inv|by eapply excess_inv_step].
Qed.

(** ** Termination messages and decrements of [N_activeProc] *)

Lemma term_count_app (r : Z) (a b : list Isend) :
  term_count r (a ++ b) = term_count r a + term_count r b.
Proof. unfold term_count. rewrite filter_app, length_app. lia. Qed.

Lemma term_count_startup (input : list Z) (kmax r : Z) (n : nat) (a : Z) :
  term_count r (startup_msg input kmax <$> seqZ a (Z.of_nat n))
  = if bool_decide (a ≤ r < a + Z.of_nat n ∧ kmax < r) then 1 else 0.
Proof.
  revert a. induction n as [|n IH]; intros a.
  - simpl. by rewrite bool_decide_eq_false_2 by lia.
  - rewrite seqZ_cons by lia. replace (Z.pred (Z.of_nat (S n))) with (Z.of_nat n) by lia.
    rewrite fmap_cons. change (?x :: ?l) with ([x] ++ l). rewrite term_count_app, IH.
    unfold term_count. rewrite filter_cons, startup_msg_dest. unfold startup_msg.
    destruct (decide (a = r)) as [->|Hne].
    + rewrite (bool_decide_eq_false_2 (Z.succ r ≤ r < _ ∧ _)) by lia.
      case_bool_decide as Hk; simpl.
      * rewrite decide_False by (intros [_ ?]; done). simpl.
        by rewrite bool_decide_eq_false_2 by lia.
      * rewrite decide_True by done. simpl. by rewrite bool_decide_eq_true_2 by lia.
    + rewrite decide_False by (intros [? _]; done). simpl.
      erewrite bool_decide_ext; [done|lia].
Qed.

Lemma term_inv_init (N size : Z) (input : list Z) (st : Master) (tr : list Isend) :
  Z.of_nat (length input) = N → 2 ≤ size →
  startup N size input = Some (st, tr) →
  term_inv size (sys_init size st tr)
  ∧ ∀ r, 1 ≤ r < size →
      term_count r tr = if bool_decide (r ≤ Z.min (size - 1) N) then 0 else 1.
Proof.
  intros Hlen Hsize Hst.
  destruct (startup_spec N size input Hlen ltac:(lia))
    as (st0 & Heq & Hc & Hn & Ho & Hi2p & Hp2i & H0 & Hs).
  rewrite Heq in Hst. injection Hst as <- <-.
  assert (∀ r, 1 ≤ r < size →
    term_count r (startup_msg input (Z.min (size - 1) N) <$> seqZ 1 (size - 1))
    = if bool_decide (r ≤ Z.min (size - 1) N) then 0 else 1) as Hcount.
  { intros r Hr. rewrite <- (Z2Nat.id (size - 1)) at 2 by lia. rewrite term_count_startup.
    repeat case_bool_decide; lia. }
  split; [|done].
  intros r Hr. cbn [sys_init mst log]. rewrite (Hs r Hr), (Hcount r Hr).
  eexists. split; [done|]. unfold startup_slot.
  case_bool_decide; [rewrite decide_False by lia|rewrite decide_True by lia]; done.
Qed.

Lemma term_inv_step (input : list Z) (size : Z) (a : action) (cfg cfg' : System) :
  sys_inv input size cfg → term_inv size cfg →
  sys_step input a cfg = Some cfg' → term_inv size cfg'.
Proof.
  intros Hinv Hterm Hstep. destruct a as [r|r].
  - apply sys_step_master in Hstep
      as (Hpos & s & y & out & st' & m & Hs & Hout & Hb & ->).
    destruct (sys_inv_outbox _ _ _ _ _ _ _ Hinv Hs Hout)
      as (Hr & slot & x & Hslot & Hsl & Hx & -> & -> & Hinb & Hfin).
    pose proof (lookup_lt_Some _ _ _ Hslot) as Hrlt.
    pose proof (inv_counter _ _ _ Hinv) as Hcnt.
    apply loop_body_Some in Hb as (idx & _ & _ & _ & _ & Hcases).
    intros r' Hr'. cbn [mst log]. rewrite term_count_app.
    destruct (Hterm r' Hr') as (slot' & Hslot' & Hcount). rewrite Hcount.
    unfold term_count at 1.
    destruct Hcases as [(_ & (x' & _ & ->) & _ & _ & _ & ->)|(_ & -> & _ & _ & _ & ->)];
      rewrite filter_cons; cbn [dest buf filter list_filter length].
    + destruct (decide (r = r' ∧ input_data _ = errValue_addr)) as [[_ ?]|_]; [done|].
      cbn [length]. destruct (decide (r = r')) as [<-|Hne].
      * rewrite list_lookup_insert_eq by done. eexists. split; [done|].
        rewrite Hslot in Hslot'. injection Hslot' as <-.
        rewrite !decide_False by lia. done.
      * rewrite list_lookup_insert_ne by lia. exists slot'. split; [done|lia].
    + destruct (decide (r = r')) as [<-|Hne].
      * rewrite list_lookup_insert_eq by done. eexists. split; [done|].
        rewrite Hslot in Hslot'. injection Hslot' as <-.
        destruct (decide (r = r ∧ errValue_addr = errValue_addr)) as [_|Hn];
          [|exfalso; by apply Hn].
        rewrite decide_False by lia. rewrite decide_True by done. done.
      * rewrite list_lookup_insert_ne by lia. exists slot'. split; [done|].
        destruct (decide (r = r' ∧ errValue_addr = errValue_addr)) as [[? _]|_]; [done|].
        cbn [length]. lia.
  - apply sys_step_slave in Hstep as (s & x & inb & _ & _ & _ & ->). done.
Qed.

Lemma term_inv_exec (input : list Z) (size : Z) (sched : list action) (cfg cfg' : System) :
  Forall (λ x, 0 ≤ x) input →
  sys_inv input size cfg → term_inv size cfg →
  sys_exec input sched cfg = Some cfg' → term_inv size cfg'.
Proof.
  intros Hin. revert cfg. induction sched as [|a sched IH]; intros cfg Hinv Hterm; simpl.
  - by intros [= <-].
  - destruct (sys_step input a cfg) as [cfg1|] eqn:Hstep; simpl; [|done].
    apply IH; [by eapply sys_step_inv|by eapply term_inv_step].
Qed.


(** [N_activeProc] changes only in a pass of rank 0 that sends the
    termination message, and then by one. *)
Lemma sys_step_decrement (input : list Z) (r : Z) (a : action) (cfg cfg' : System) :
  sys_step input a cfg = Some cfg' →
  term_count r (log cfg')
  = term_count r (log cfg)
    + (if bool_decide (a = master_recv r
                       ∧ N_activeProc (mst cfg') = N_activeProc (mst cfg) - 1)
       then 1 else 0).
Proof.
  intros Hstep. destruct a as [r0|r0].
  - apply sys_step_master in Hstep
      as (Hpos & s & y & out & st' & m & Hs & Hout & Hb & ->).
    apply loop_body_Some in Hb as (idx & _ & _ & _ & _ & Hcases).
    cbn [mst log]. rewrite term_count_app. f_equal.
    unfold term_count. rewrite filter_cons.
    destruct Hcases as [(_ & (x' & _ & ->) & _ & Hn & _)|(_ & -> & _ & Hn & _)];
      cbn [dest buf filter list_filter].
    + destruct (decide (r0 = r ∧ input_data _ = errValue_addr)) as [[_ ?]|_]; [done|].
      rewrite bool_decide_eq_false_2 by (intros [_ ?]; lia). done.
    + destruct (decide (r0 = r ∧ errValue_addr = errValue_addr)) as [[-> _]|Hne].
      * by rewrite bool_decide_eq_true_2 by done.
      * rewrite bool_decide_eq_false_2; [done|]. intros [[= ->] _]. by apply Hne.
  - apply sys_step_slave in Hstep as (s & x & inb & _ & _ & _ & ->). cbn [mst log].
    rewrite bool_decide_eq_false_2 by (intros [? _]; done). lia.
Qed.

Lemma sys_exec_decrements (input : list Z) (r : Z) (sched : list action)
    (cfg cfg' : System) :
  sys_exec input sched cfg = Some cfg' →
  decrements input r sched cfg = term_count r (log cfg') - term_count r (log cfg).
Proof.
  revert cfg. induction sched as [|a sched IH]; intros cfg; simpl.
  - intros [= <-]. lia.
  - destruct (sys_step input a cfg) as [cfg1|] eqn:Hstep; simpl; [|done].
    intros Hexec. rewrite (IH _ Hexec), (sys_step_decrement _ r _ _ _ Hstep). lia.
Qed.

Lemma decrements_nonneg (input : list Z) (r : Z) (sched : list action) (cfg : System) :
  0 ≤ decrements input r sched cfg.
Proof.
  revert cfg. induction sched as [|a sched IH]; intros cfg; simpl; [done|].
  destruct (sys_step input a cfg) as [cfg1|]; [|done].
  specialize (IH cfg1). case_bool_decide; lia.
Qed.

(** ** Traces of task messages *)

Lemma assigned_app (a b : list Isend) : assigned (a ++ b) = assigned a ++ assigned b.
Proof. unfold assigned. apply omap_app. Qed.

Lemma assigned_startup_tasks (input : list Z) (kmax : Z) (l : list Z) :
  Forall (λ r, r ≤ kmax) l →
  assigned (startup_msg input kmax <$> l) = Z.add (-1) <$> l.
Proof.
  induction 1 as [|r l Hr _ IH]; [done|].
  rewrite !fmap_cons. unfold assigned in *. cbn [omap list_omap]. rewrite IH.
  unfold startup_msg, task_of.
  rewrite bool_decide_eq_true_2 by done. simpl. do 2 f_equal. lia.
Qed.

Lemma assigned_startup_terms (input : list Z) (kmax : Z) (l : list Z) :
  Forall (λ r, kmax < r) l → assigned (startup_msg input kmax <$> l) = [].
Proof.
  induction 1 as [|r l Hr _ IH]; [done|].
  rewrite fmap_cons. unfold assigned in *. cbn [omap list_omap]. rewrite IH.
  unfold startup_msg, task_of.
  rewrite bool_decide_eq_false_2 by lia. done.
Qed.

Lemma assigned_startup (input : list Z) (kmax W : Z) :
  0 ≤ kmax ≤ W →
  assigned (startup_msg input kmax <$> seqZ 1 W) = seqZ 0 kmax.
Proof.
  intros Hk. replace W with (kmax + (W - kmax)) by lia.
  rewrite seqZ_app by lia. rewrite fmap_app, assigned_app.
  rewrite assigned_startup_tasks, assigned_startup_terms.
  - rewrite app_nil_r, fmap_add_seqZ. done.
  - apply Forall_forall. intros r Hr%elem_of_seqZ. lia.
  - apply Forall_forall. intros r Hr%elem_of_seqZ. lia.
Qed.

Lemma filter_task_assigned (i : Z) (tr : list Isend) :
  length (filter (λ m, task_of m = Some i) tr) = length (filter (λ c, c = i) (assigned tr)).
Proof.
  induction tr as [|m tr IH]; [done|].
  unfold assigned in *. rewrite filter_cons. cbn [omap list_omap].
  destruct (task_of m) as [c|] eqn:Hc.
  - rewrite filter_cons.
    destruct (decide (Some c = Some i)) as [[= ->]|Hne].
    + rewrite decide_True by done. simpl. by rewrite IH.
    + rewrite decide_False by congruence. done.
  - rewrite decide_False by done. done.
Qed.

Lemma filter_eq_seqZ (i a n : Z) :
  a ≤ i < a + n → filter (λ c, c = i) (seqZ a n) = [i].
Proof.
  intros Hi. replace n with ((i - a) + (1 + (n - (i - a) - 1))) by lia.
  rewrite seqZ_app by lia. rewrite (seqZ_app _ 1) by lia.
  rewrite !filter_app.
  rewrite (filter_none _ (seqZ a (i - a))), (filter_none _ (seqZ (a + (i - a) + 1) _)).
  - rewrite (seqZ_cons _ 1) by lia. simpl.
    rewrite filter_cons_True by lia. by replace (a + (i - a)) with i by lia.
  - apply Forall_forall. intros r Hr%elem_of_seqZ. lia.
  - apply Forall_forall. intros r Hr%elem_of_seqZ. lia.
Qed.

Lemma startup_msgs_dest (input : list Z) (kmax : Z) (l : list Z) :
  dest <$> (startup_msg input kmax <$> l) = l.
Proof.
  induction l as [|r l IH]; [done|]. rewrite !fmap_cons, IH, startup_msg_dest. done.
Qed.

Lemma startup_msgs_lookup (input : list Z) (kmax W c : Z) :
  0 ≤ c < kmax → kmax ≤ W →
  ∃ m, (startup_msg input kmax <$> seqZ 1 W) !! Z.to_nat c = Some m
       ∧ dest m = c + 1 ∧ task_of m = Some c.
Proof.
  intros Hc Hk. exists (startup_msg input kmax (c + 1)).
  split; [|split].
  - rewrite list_lookup_fmap, lookup_seqZ_lt by lia. simpl. do 2 f_equal. lia.
  - apply startup_msg_dest.
  - unfold startup_msg, task_of. rewrite bool_decide_eq_true_2 by lia. simpl.
    f_equal. lia.
Qed.

(** ** The final comparison with the serial computation *)

Lemma check_errors_none (input : list Z) (n : nat) (a : Z) :
  0 ≤ a → a + Z.of_nat n ≤ Z.of_nat (length input) →
  foldr (λ k acc,
           x ← vec_read input k; o ← vec_read (func_expensive <$> input) k; rest ← acc;
           Some (if bool_decide (func_cheap x - o ≠ 0) then k :: rest else rest))
        (Some []) (seqZ a (Z.of_nat n)) = Some [].
Proof.
  revert a. induction n as [|n IH]; intros a Ha Hlen; [done|].
  rewrite seqZ_cons by lia. replace (Z.pred (Z.of_nat (S n))) with (Z.of_nat n) by lia.
  cbn [foldr]. rewrite IH by lia.
  destruct (vec_read_is_Some input a) as [x Hx]; [lia|]. rewrite Hx. simpl.
  apply vec_read_Some in Hx as [_ Hx].
  assert (vec_read (func_expensive <$> input) a = Some (func_expensive x)) as ->.
  { apply vec_read_Some. split; [done|]. by rewrite list_lookup_fmap, Hx. }
  simpl. unfold func_expensive. by rewrite bool_decide_eq_false_2 by lia.
Qed.

Lemma check_errors_ok (N : Z) (input : list Z) :
  Z.of_nat (length input) = N → check_errors N input (func_expensive <$> input) = Some [].
Proof.
  intros Hlen. unfold check_errors. rewrite <- (Z2Nat.id N) by lia.
  apply check_errors_none; lia.
Qed.

(** ** The values that rank 0 sends *)

Lemma startup_body_carries (input : list Z) (kmax k : Z) (st st' : Master) (m : Isend) :
  startup_body input kmax k st = Some (st', m) → carries input m.
Proof.
  unfold startup_body. case_bool_decide.
  - destruct (vec_read input (counter st)) as [x|] eqn:Hx; simpl; [|done].
    destruct (vec_write (inputIdx2proc st) _ _); simpl; [|done].
    destruct (vec_write (proc2inputIdx st) _ _); simpl; [|done].
    intros [= <- <-]. by apply vec_read_Some in Hx.
  - destruct (vec_write (proc2inputIdx st) _ _); simpl; [|done].
    by intros [= <- <-].
Qed.

Lemma startup_loop_carries (input : list Z) (kmax : Z) (ks : list Z) (st st' : Master)
    (tr : list Isend) :
  startup_loop input kmax ks st = Some (st', tr) → Forall (carries input) tr.
Proof.
  revert st tr. induction ks as [|k ks IH]; intros st tr; simpl.
  - by intros [= <- <-].
  - destruct (startup_body input kmax k st) as [[st1 m]|] eqn:Hb; simpl; [|done].
    destruct (startup_loop input kmax ks st1) as [[st2 tr2]|] eqn:Hl; simpl; [|done].
    intros [= <- <-]. constructor; [by eapply startup_body_carries|by eapply IH].
Qed.

Lemma startup_carries (N size : Z) (input : list Z) (st : Master) (tr : list Isend) :
  startup N size input = Some (st, tr) → Forall (carries input) tr.
Proof.
  unfold startup.
  destruct (startup_loop input _ _ _) as [[st' tr']|] eqn:Hl; simpl; [|done].
  intros [= <- <-]. by eapply startup_loop_carries.
Qed.

Lemma masterLoop_carries (input : list Z) (msgs : list (Z * Z)) (st : Master) :
  Forall (carries input) (sends_of (masterLoop input msgs st)).
Proof.
  revert st. induction msgs as [|[p y] msgs IH]; intros st; simpl.
  - case_bool_decide; constructor.
  - case_bool_decide; [|constructor].
    destruct (loop_body input p y st) as [[st' m]|] eqn:Hb; [|constructor].
    rewrite sends_of_emit by apply masterLoop_not_Throws.
    constructor; [|apply IH].
    apply loop_body_Some in Hb as (idx & _ & _ & _ & _ & Hcases).
    destruct Hcases as [(_ & (x & Hx & ->) & _)|(_ & -> & _)]; [|done].
    by apply vec_read_Some in Hx.
Qed.

(** A step changes [N_activeProc] only when it is a pass of rank 0 that
    sends the termination message to the rank it served. *)
Lemma sys_step_active (input : list Z) (a : action) (cfg cfg' : System) :
  sys_step input a cfg = Some cfg' →
  (N_activeProc (mst cfg') = N_activeProc (mst cfg) - 1
   ∧ ∃ r, a = master_recv r ∧ log cfg' = log cfg ++ [mkIsend r errValue_addr errValue])
  ∨ (N_activeProc (mst cfg') = N_activeProc (mst cfg)
     ∧ (log cfg' = log cfg ∨ ∃ m, log cfg' = log cfg ++ [m] ∧ is_task m = true)).
Proof.
  intros Hstep. destruct a as [r|r].
  - apply sys_step_master in Hstep
      as (Hpos & s & y & out & st' & m & Hs & Hout & Hb & ->).
    apply loop_body_Some in Hb as (idx & _ & _ & _ & _ & Hcases). cbn [mst log].
    destruct Hcases as [(_ & (x' & _ & ->) & _ & Hn & _)|(_ & -> & _ & Hn & _)].
    + right. split; [done|]. right. by eexists.
    + left. split; [done|]. by exists r.
  - apply sys_step_slave in Hstep as (s & x & inb & _ & _ & _ & ->). cbn [mst log].
    right. split; [done|]. by left.
Qed.

(** ** The loop of a worker *)

Lemma slaveLoop_nonneg (rank : Z) (pre : list Z) :
  Forall (λ x, 0 ≤ x) pre →
  slaveLoop rank pre = Waiting (func_expensive <$> pre) ((λ x, (x, rank)) <$> pre).
Proof.
  induction 1 as [|x pre Hx _ IH]; [done|].
  simpl. unfold slave_body. rewrite bool_decide_eq_false_2 by lia. by rewrite IH.
Qed.

Lemma slaveLoop_break (rank : Z) (pre : list Z) (x : Z) (rest : list Z) :
  Forall (λ x, 0 ≤ x) pre → x < 0 →
  slaveLoop rank (pre ++ x :: rest)
  = Finished (func_expensive <$> pre) ((λ x, (x, rank)) <$> pre) rest.
Proof.
  intros Hpre Hx. induction Hpre as [|x' pre Hx' _ IH]; simpl.
  - unfold slave_body. by rewrite bool_decide_eq_true_2 by done.
  - unfold slave_body at 1. rewrite bool_decide_eq_false_2 by lia. by rewrite IH.
Qed.

Lemma slaveLoop_Finished (rank : Z) (msgs : list Z) :
  (∃ sent file unread, slaveLoop rank msgs = Finished sent file unread)
  ↔ Exists (λ x, x < 0) msgs.
Proof.
  induction msgs as [|x msgs IH]; simpl.
  - split; [by intros (? & ? & ? & ?)|by intros ?%Exists_nil].
  - unfold slave_body. rewrite Exists_cons. case_bool_decide as Hx.
    + split; [by left|]. intros _. by eexists _, _, _.
    + rewrite <- IH. split.
      * intros (sent & file & unread & Hl). right.
        destruct (slaveLoop rank msgs); [|done]. by eexists _, _, _.
      * intros [?|(sent & file & unread & ->)]; [done|]. by eexists _, _, _.
Qed.

(** * The claims *)

Section Program.

Context {Engine : Type} (default_engine : Engine).
Context (distribution : Z → Z → Engine → Z * Engine).

(** A run of [masterCode] that leaves the loop, taken apart. *)
Lemma masterCode_Exited (N size : Z) (msgs : list (Z * Z)) (st : Master) (tr : list Isend)
    (rest : list (Z * Z)) :
  2 ≤ size →
  masterCode default_engine distribution N size msgs = Exited st tr rest →
  ∃ input st0 tr1,
    inputDataGenerator default_engine distribution N = Some input
    ∧ Z.of_nat (length input) = N
    ∧ startup N size input
      = Some (st0, startup_msg input (Z.min (size - 1) N) <$> seqZ 1 (size - 1))
    ∧ master_inv N (Z.min (size - 1) N) st0
    ∧ counter st0 = Z.min (size - 1) N
    ∧ N_activeProc st0 = Z.min (size - 1) N
    ∧ tr = (startup_msg input (Z.min (size - 1) N) <$> seqZ 1 (size - 1)) ++ tr1
    ∧ masterLoop input msgs st0 = Exited st tr1 rest.
Proof.
  intros Hsize. unfold masterCode.
  destruct (inputDataGenerator default_engine distribution N) as [input|] eqn:Hin; [|done].
  pose proof (inputDataGenerator_length _ _ _ _ Hin) as [HN Hlen].
  rewrite bool_decide_eq_false_2 by lia.
  destruct (startup N size input) as [[st0 tr0]|] eqn:Hst; [|done].
  destruct (sys_init_inv _ _ _ _ _ Hlen Hsize Hst) as (_ & Hminv & Hc & Hn & ->).
  intros (tr1 & Hloop & ->)%emit_Exited.
  by exists input, st0, tr1.
Qed.

(** C1 (coverage).  Whatever results arrive, when rank 0 leaves its loop the
    offsets of the task messages it sent are exactly [0, 1, ..., N-1] in this
    order, so every input has been handed out once and to one rank: the first
    [min (size-1) N] by the start-up loop, input [c] to rank [c+1], and every
    later one by one pass of the receive loop, to the rank whose result that
    pass received. *)
Theorem coverage (N size : Z) (msgs : list (Z * Z)) (st : Master) (tr : list Isend)
    (rest : list (Z * Z)) :
  0 ≤ N → 2 ≤ size →
  masterCode default_engine distribution N size msgs = Exited st tr rest →
  assigned tr = seqZ 0 N
  ∧ (∀ i, 0 ≤ i < N → length (filter (λ m, task_of m = Some i) tr) = 1%nat)
  ∧ ∃ tr0 tr1 consumed,
      tr = tr0 ++ tr1 ∧ msgs = consumed ++ rest
      ∧ dest <$> tr0 = seqZ 1 (size - 1)
      ∧ assigned tr0 = seqZ 0 (Z.min (size - 1) N)
      ∧ (∀ c, 0 ≤ c < Z.min (size - 1) N →
           ∃ m, tr0 !! Z.to_nat c = Some m ∧ dest m = c + 1 ∧ task_of m = Some c)
      ∧ dest <$> tr1 = consumed.*1
      ∧ assigned tr1 = seqZ (Z.min (size - 1) N) (N - Z.min (size - 1) N).
Proof.
  intros HN Hsize Hrun.
  destruct (masterCode_Exited _ _ _ _ _ _ Hsize Hrun)
    as (input & st0 & tr1 & Hin & Hlen & Hst & Hminv & Hc & Hn & -> & Hloop).
  destruct (masterLoop_exited _ _ _ _ _ _ _ _ Hlen Hminv Hloop)
    as (consumed & -> & Hd & Ha & _ & _ & _).
  rewrite Hc in Ha.
  assert (assigned ((startup_msg input (Z.min (size - 1) N) <$> seqZ 1 (size - 1)) ++ tr1)
          = seqZ 0 N) as Hall.
  { rewrite assigned_app, assigned_startup, Ha by lia.
    rewrite <- seqZ_app by lia. f_equal. lia. }
  split; [done|]. split.
  - intros i Hi. rewrite filter_task_assigned, Hall, filter_eq_seqZ by lia. done.
  - eexists _, tr1, consumed. repeat split; try done.
    + apply startup_msgs_dest.
    + apply assigned_startup. lia.
    + intros c Hc'. apply startup_msgs_lookup; lia.
Qed.

(** Rank 0 inside an execution of the program is [masterCode] on the
    arrivals of that execution. *)
Lemma masterCode_of_exec (N size : Z) (input : list Z) (st0 : Master) (tr0 : list Isend)
    (sched : list action) (cfg : System) :
  inputDataGenerator default_engine distribution N = Some input → 0 ≤ size →
  startup N size input = Some (st0, tr0) →
  sys_exec input sched (sys_init size st0 tr0) = Some cfg →
  N_activeProc (mst cfg) ≤ 0 →
  masterCode default_engine distribution N size
    (arrivals input sched (sys_init size st0 tr0))
  = Exited (mst cfg) (log cfg) [].
Proof.
  intros Hin Hsize Hst Hexec Hexit. unfold masterCode.
  rewrite Hin, bool_decide_eq_false_2, Hst by lia.
  destruct (sys_exec_masterLoop _ _ _ _ [] Hexec) as (tr & Hlog & Hloop).
  rewrite app_nil_r in Hloop. cbn [sys_init mst log] in *. rewrite Hloop, Hlog.
  assert (masterLoop input [] (mst cfg) = Exited (mst cfg) [] []) as ->.
  { simpl. by rewrite bool_decide_eq_false_2 by lia. }
  simpl. by rewrite app_nil_r.
Qed.

(** The contract of [std::uniform_int_distribution<int>(a, b)]. *)
Hypothesis distribution_range :
  ∀ (a b : Z) (g : Engine), a ≤ b → a ≤ (distribution a b g).1 ≤ b.

(** The program starts, and its first configuration satisfies the
    invariants. *)
Lemma program_init_spec (N size : Z) :
  0 ≤ N → 2 ≤ size →
  ∃ input st tr,
    program_init default_engine distribution N size = Some (input, sys_init size st tr)
    ∧ inputDataGenerator default_engine distribution N = Some input
    ∧ Z.of_nat (length input) = N
    ∧ Forall (λ x, 0 ≤ x ≤ 10) input
    ∧ startup N size input = Some (st, tr)
    ∧ sys_inv input size (sys_init size st tr)
    ∧ master_inv N (Z.min (size - 1) N) st
    ∧ counter st = Z.min (size - 1) N
    ∧ N_activeProc st = Z.min (size - 1) N
    ∧ tr = startup_msg input (Z.min (size - 1) N) <$> seqZ 1 (size - 1).
Proof.
  intros HN Hsize.
  destruct (inputDataGenerator_total default_engine distribution N HN) as (input & Hin & Hlen).
  destruct (startup_spec N size input Hlen ltac:(lia)) as (st & Hst & _).
  destruct (sys_init_inv _ _ _ _ _ Hlen Hsize Hst) as (Hinv & Hminv & Hc & Hn & Htr).
  exists input, st, (startup_msg input (Z.min (size - 1) N) <$> seqZ 1 (size - 1)).
  unfold program_init. rewrite Hin. simpl. rewrite bool_decide_eq_false_2 by lia.
  rewrite Hst. simpl. split_and!; try done.
  by eapply inputDataGenerator_range.
Qed.

Lemma nonneg_of_range (input : list Z) :
  Forall (λ x, 0 ≤ x ≤ 10) input → Forall (λ x, 0 ≤ x) input.
Proof. intros H. eapply Forall_impl; [exact H|]. intros x. simpl. lia. Qed.

(** C3 (termination).  Every execution of the program is finite, with at
    most [3 N + 2 (size-1)] steps of which at most [N] are passes of rank 0
    through its receive loop; an execution that cannot be continued has
    reached the final configuration, and every execution can be continued to
    it; when rank 0 leaves the loop, [N_activeProc] is 0, the loop has been
    passed exactly [N] times, and the run of rank 0 is the run of [masterCode]
    on the results that arrived.  [masterCode] leaves its loop with
    [N_activeProc = 0] after exactly [N] results on arbitrary arrivals too. *)
Theorem termination (N size : Z) :
  0 ≤ N → 2 ≤ size →
  ∃ input cfg0,
    program_init default_engine distribution N size = Some (input, cfg0)
    ∧ (∀ sched cfg, sys_exec input sched cfg0 = Some cfg →
         Z.of_nat (length sched) ≤ 3 * N + 2 * (size - 1)
         ∧ receives sched ≤ N
         ∧ (N_activeProc (mst cfg) ≤ 0 →
              N_activeProc (mst cfg) = 0 ∧ receives sched = N
              ∧ masterCode default_engine distribution N size (arrivals input sched cfg0)
                = Exited (mst cfg) (log cfg) [])
         ∧ ((∀ a, sys_step input a cfg = None) → sys_final cfg)
         ∧ ∃ sched' cfg', sys_exec input (sched ++ sched') cfg0 = Some cfg' ∧ sys_final cfg')
    ∧ (∀ msgs st tr rest,
         masterCode default_engine distribution N size msgs = Exited st tr rest →
         N_activeProc st = 0 ∧ Z.of_nat (length msgs) = N + Z.of_nat (length rest)).
Proof.
  intros HN Hsize.
  destruct (program_init_spec N size HN Hsize)
    as (input & st0 & tr0 & Hinit & Hin & Hlen & Hrange & Hst & Hinv0 & Hminv0 & Hc0 & Hn0 & Htr).
  pose proof (nonneg_of_range _ Hrange) as Hnn.
  exists input, (sys_init size st0 tr0). split; [done|]. split.
  - intros sched cfg Hexec.
    pose proof (sys_exec_inv _ _ _ _ _ Hnn Hinv0 Hexec) as Hinv.
    destruct (sys_exec_budget input N _ sched (sys_init size st0 tr0) cfg Hlen Hminv0 Hexec)
      as [Hminv Hrec].
    pose proof (sys_exec_measure _ N _ _ _ Hexec) as Hmeas.
    rewrite (measure_init _ _ _ _ _ Hlen Hsize Hst) in Hmeas.
    pose proof (measure_nonneg _ _ _ Hminv) as Hmnn.
    assert (budget N (mst (sys_init size st0 tr0)) = N) as Hb0.
    { unfold budget. simpl. lia. }
    rewrite Hb0 in Hrec.
    split; [lia|]. split; [|split; [|split]].
    + destruct Hminv as (? & ? & ? & ?). unfold budget in Hrec. lia.
    + intros Hexit.
      destruct (sys_inv_exit _ _ _ Hinv Hsize Hexit) as (Hn & Hc & _).
      unfold budget in Hrec. split; [done|]. split; [lia|].
      apply masterCode_of_exec; [done|lia|done|done|done].
    + intros Hstuck. destruct (sys_progress _ _ _ Hnn Hinv) as [|(a & cfg' & Hstep)]; [done|].
      by rewrite Hstuck in Hstep.
    + destruct (sys_completes _ _ _ _ (Z.to_nat (measure N cfg)) _ Hnn Hlen Hinv Hminv)
        as (sched' & cfg' & Hexec' & Hfinal); [lia|].
      exists sched', cfg'. split; [|done].
      rewrite sys_exec_app, Hexec. done.
  - intros msgs st tr rest Hrun.
    destruct (masterCode_Exited _ _ _ _ _ _ Hsize Hrun)
      as (input' & st1 & tr1 & Hin' & Hlen' & Hst' & Hminv & Hc & Hn & -> & Hloop).
    destruct (masterLoop_exited _ _ _ _ _ _ _ _ Hlen' Hminv Hloop)
      as (consumed & -> & _ & _ & Hlc & Hn' & _).
    split; [done|]. rewrite length_app. lia.
Qed.

(** C4 (output order).  In every execution, whatever the order in which the
    results arrive, when rank 0 leaves its loop the output vector holds at
    every index the value of the task function on the input at that index, so
    the final comparison finds no error.  Each pass of the loop stores the
    received value at the index remembered for the sender. *)
Theorem output_order (N size : Z) :
  0 ≤ N → 2 ≤ size →
  ∃ input cfg0,
    program_init default_engine distribution N size = Some (input, cfg0)
    ∧ (∀ sched cfg, sys_exec input sched cfg0 = Some cfg →
         N_activeProc (mst cfg) ≤ 0 →
         output (mst cfg) = func_expensive <$> input
         ∧ (∀ i x, input !! i = Some x → output (mst cfg) !! i = Some (func_cheap x))
         ∧ check_errors N input (output (mst cfg)) = Some [])
    ∧ (∀ p y st st' m, loop_body input p y st = Some (st', m) →
         ∃ idx, vec_read (proc2inputIdx st) p = Some idx
                ∧ output st' = <[Z.to_nat idx := y]> (output st))
    ∧ (∃ sched cfg, sys_exec input sched cfg0 = Some cfg ∧ N_activeProc (mst cfg) ≤ 0).
Proof.
  intros HN Hsize.
  destruct (program_init_spec N size HN Hsize)
    as (input & st0 & tr0 & Hinit & Hin & Hlen & Hrange & Hst & Hinv0 & Hminv0 & Hc0 & Hn0 & Htr).
  pose proof (nonneg_of_range _ Hrange) as Hnn.
  exists input, (sys_init size st0 tr0). split; [done|]. split; [|split].
  - intros sched cfg Hexec Hexit.
    pose proof (sys_exec_inv _ _ _ _ _ Hnn Hinv0 Hexec) as Hinv.
    destruct (sys_inv_exit _ _ _ Hinv Hsize Hexit) as (_ & _ & _ & Hout).
    assert (output (mst cfg) = func_expensive <$> input) as Heq.
    { apply list_eq. intros i. rewrite list_lookup_fmap.
      destruct (input !! i) as [x|] eqn:Hx; simpl.
      - by apply Hout.
      - apply lookup_ge_None. rewrite (inv_output _ _ _ Hinv). by apply lookup_ge_None. }
    split; [done|]. split; [done|]. rewrite Heq. by apply check_errors_ok.
  - intros p y st st' m Hb.
    apply loop_body_Some in Hb as (idx & Hidx & _ & _ & Hout & _). by exists idx.
  - destruct (sys_completes input N _ size (Z.to_nat (measure N (sys_init size st0 tr0)))
                (sys_init size st0 tr0) Hnn Hlen Hinv0 Hminv0)
      as (sched & cfg & Hexec & [Hfinal _]); [lia|].
    by exists sched, cfg.
Qed.

(** C5 (excess workers).  With fewer inputs than workers, the start-up loop
    sends input [r-1] to each rank [r ≤ N] and only the termination value to
    each rank [r > N]; in every execution a rank [r > N] never has anything
    but that one termination value sent to it, and in the final configuration
    the ranks [1 .. N] have each received one input followed by the
    termination value and the other ranks the termination value alone. *)
Theorem excess_workers (N size : Z) :
  0 ≤ N → N < size - 1 →
  ∃ input st0 tr0,
    program_init default_engine distribution N size = Some (input, sys_init size st0 tr0)
    ∧ startup N size input = Some (st0, tr0)
    ∧ (∀ r, 1 ≤ r ≤ N →
         ∃ x, input !! Z.to_nat (r - 1) = Some x ∧ 0 ≤ x
              ∧ filter (λ m, dest m = r) tr0 = [mkIsend r (input_data (r - 1)) x])
    ∧ (∀ r, N < r < size →
         filter (λ m, dest m = r) tr0 = [mkIsend r errValue_addr errValue])
    ∧ (∀ sched cfg, sys_exec input sched (sys_init size st0 tr0) = Some cfg →
         ∀ r s, slave_at r (slaves cfg) = Some s →
           (N < r → received s ++ inbox s = [errValue])
           ∧ (sys_final cfg →
                (r ≤ N → ∃ x, input !! Z.to_nat (r - 1) = Some x ∧ 0 ≤ x
                              ∧ received s = [x; errValue])
                ∧ (N < r → received s = [errValue])))
    ∧ (∃ sched cfg, sys_exec input sched (sys_init size st0 tr0) = Some cfg ∧ sys_final cfg).
Proof.
  intros HN HW. assert (2 ≤ size) as Hsize by lia.
  destruct (program_init_spec N size HN Hsize)
    as (input & st0 & tr0 & Hinit & Hin & Hlen & Hrange & Hst & Hinv0 & Hminv0 & Hc0 & Hn0 & Htr).
  pose proof (nonneg_of_range _ Hrange) as Hnn.
  exists input, st0, tr0. split; [done|]. split; [done|].
  replace (Z.min (size - 1) N) with N in * by lia.
  assert (∀ r, 1 ≤ r < size → filter (λ m, dest m = r) tr0 = [startup_msg input N r]) as Hf.
  { intros r Hr. rewrite Htr. clear -Hr.
    assert (∀ (n : nat) a, filter (λ m, dest m = r) (startup_msg input N <$> seqZ a (Z.of_nat n))
              = if bool_decide (a ≤ r < a + Z.of_nat n) then [startup_msg input N r] else [])
      as Hgen.
    { induction n as [|n IH]; intros a.
      - simpl. by rewrite bool_decide_eq_false_2 by lia.
      - rewrite seqZ_cons by lia. replace (Z.pred (Z.of_nat (S n))) with (Z.of_nat n) by lia.
        rewrite fmap_cons, filter_cons, startup_msg_dest, IH.
        destruct (decide (a = r)) as [->|Hne].
        + rewrite bool_decide_eq_false_2 by lia. by rewrite bool_decide_eq_true_2 by lia.
        + erewrite bool_decide_ext; [done|lia]. }
    rewrite <- (Z2Nat.id (size - 1)) by lia. rewrite Hgen.
    by rewrite bool_decide_eq_true_2 by lia. }
  split; [|split; [|split]].
  - intros r Hr. rewrite Hf by lia. unfold startup_msg.
    rewrite bool_decide_eq_true_2 by lia.
    assert (input !! Z.to_nat (r - 1) = Some (input !!! Z.to_nat (r - 1))) as Hx
      by (apply list_lookup_lookup_total_lt; lia).
    eexists. split; [done|]. split; [|done].
    by apply (Forall_lookup_1 _ _ _ _ Hnn Hx).
  - intros r Hr. rewrite Hf by lia. unfold startup_msg.
    by rewrite bool_decide_eq_false_2 by lia.
  - intros sched cfg Hexec r s Hs.
    pose proof (sys_exec_inv _ _ _ _ _ Hnn Hinv0 Hexec) as Hinv.
    pose proof (excess_inv_init _ _ _ _ _ Hlen Hsize ltac:(lia) Hst) as Hex0.
    pose proof (excess_inv_exec _ _ _ _ _ _ Hnn Hlen Hinv0 Hex0 Hexec) as [_ Hex].
    pose proof (sys_inv_slave_at _ _ _ _ _ Hinv Hs) as Hr.
    destruct (Hex r Hr) as (slot & s' & Hslot & Hs' & Hok).
    rewrite Hs in Hs'. injection Hs' as <-.
    split.
    + intros Hlt. destruct Hok as [(? & _)|(_ & _ & ?)]; [lia|done].
    + intros [Hexit Hfin].
      destruct (sys_inv_exit _ _ _ Hinv Hsize Hexit) as (_ & _ & Hall & _).
      rewrite (Hall r Hr) in Hslot. injection Hslot as <-.
      destruct (inv_slots _ _ _ Hinv r Hr) as (slot & s' & _ & Hs' & Hsok).
      rewrite Hs in Hs'. injection Hs' as <-.
      pose proof (Forall_lookup_1 _ _ _ _ Hfin (proj2 (proj1 (slave_at_Some _ _ _) Hs))) as Hf'.
      simpl in Hf'.
      assert (inbox s = []) as Hinb.
      { destruct Hsok as [(_ & _ & [[_ ?]|[? _]])|(_ & ? & _)]; congruence. }
      unfold excess_ok in Hok. rewrite Hinb, app_nil_r in Hok.
      destruct Hok as [(Hle & x & Hx & [[? _]|[_ Hrec]])|(Hlt & _ & Hrec)]; try lia.
      * split; [|lia]. intros _. exists x. split; [done|]. split; [|done].
        by apply (Forall_lookup_1 _ _ _ _ Hnn Hx).
      * split; [lia|done].
  - destruct (sys_completes input N _ size (Z.to_nat (measure N (sys_init size st0 tr0)))
                (sys_init size st0 tr0) Hnn Hlen Hinv0 Hminv0)
      as (sched & cfg & Hexec & Hfinal); [lia|].
    by exists sched, cfg.
Qed.

(** C6 (zero tasks).  With no input the start-up loop sends the termination
    value, and nothing else, to every worker, and rank 0 leaves its loop
    without receiving: whatever is or is not on its way to rank 0 stays
    unread.  A worker that receives the termination value leaves its loop
    without sending. *)
Theorem zero_tasks (size : Z) (msgs : list (Z * Z)) :
  2 ≤ size →
  ∃ st,
    masterCode default_engine distribution 0 size msgs
    = Exited st ((λ r, mkIsend r errValue_addr errValue) <$> seqZ 1 (size - 1)) msgs
    ∧ N_activeProc st = 0
    ∧ ∀ r, slaveCode r [errValue] = Finished [] [] [].
Proof.
  intros Hsize.
  destruct (inputDataGenerator_total default_engine distribution 0) as (input & Hin & Hlen);
    [done|].
  destruct (startup_spec 0 size input Hlen ltac:(lia)) as (st & Hst & _ & Hn & _).
  replace (Z.min (size - 1) 0) with 0 in * by lia.
  exists st. unfold masterCode. rewrite Hin. rewrite bool_decide_eq_false_2 by lia.
  rewrite Hst. split; [|split; [done|done]].
  assert (masterLoop input msgs st = Exited st [] msgs) as ->.
  { destruct msgs as [|[p y] msgs]; simpl; by rewrite bool_decide_eq_false_2 by lia. }
  simpl. rewrite app_nil_r. f_equal.
  apply list_fmap_ext. intros i r [-> _]%lookup_seqZ. unfold startup_msg.
  by rewrite bool_decide_eq_false_2 by lia.
Qed.

(** C9 (range of the inputs).  Every element of the generated input vector
    lies in [0 .. 10], so a worker that receives it computes and answers and
    does not leave its loop, whereas the termination value [-1] makes it
    leave; and every task message that rank 0 ever sends carries a value in
    [0 .. 10]. *)
Theorem inputs_in_range (N : Z) (input : list Z) :
  inputDataGenerator default_engine distribution N = Some input →
  Forall (λ x, 0 ≤ x ≤ 10) input
  ∧ Forall (λ x, ∀ rank, slave_body rank x = Some (func_expensive x, (x, rank))) input
  ∧ errValue = -1
  ∧ (∀ rank, slave_body rank errValue = None)
  ∧ (∀ size msgs,
       Forall (λ m, is_task m = true → 0 ≤ payload m ≤ 10)
         (sends_of (masterCode default_engine distribution N size msgs))).
Proof.
  intros Hin. pose proof (inputDataGenerator_range _ _ distribution_range _ _ Hin) as Hrange.
  split; [done|]. split; [|split; [done|split; [done|]]].
  - eapply Forall_impl; [exact Hrange|]. intros x Hx rank. simpl in Hx.
    unfold slave_body. by rewrite bool_decide_eq_false_2 by lia.
  - intros size msgs.
    assert (Forall (carries input) (sends_of (masterCode default_engine distribution N size msgs)))
      as Hc.
    { unfold masterCode. rewrite Hin. case_bool_decide; [constructor|].
      destruct (startup N size input) as [[st tr]|] eqn:Hst; [|constructor].
      rewrite sends_of_emit by apply masterLoop_not_Throws.
      apply Forall_app. split; [by eapply startup_carries|apply masterLoop_carries]. }
    eapply Forall_impl; [exact Hc|]. intros m Hm Ht. unfold carries, is_task in *.
    destruct (buf m); [|done]. destruct Hm as [_ Hm].
    by apply (Forall_lookup_1 _ _ _ _ Hrange Hm).
Qed.

(** C7, as amended.  [N_activeProc] is set to [min (size-1) N], the number of
    workers that the start-up loop gave an input, and at every point of every
    execution it equals the number of ranks [1 .. size-1] whose table entry
    is not [-1].  A step changes it only by decrementing it, in a pass of the
    receive loop that sends the termination message to the rank it served.
    When rank 0 has left its loop every worker has been sent the termination
    message exactly once; the decrement happened once for each of the ranks
    [1 .. min (size-1) N] and never for the other ranks, whose termination
    message was sent by the start-up loop.  At every point the decrement has
    happened for a rank exactly when the rank is one of [1 .. min (size-1) N]
    and its table entry is [-1], and every execution can be continued until
    rank 0 has left its loop and all workers have finished. *)
Theorem active_workers (N size : Z) :
  0 ≤ N → 2 ≤ size →
  ∃ input cfg0,
    program_init default_engine distribution N size = Some (input, cfg0)
    ∧ N_activeProc (mst cfg0) = Z.min (size - 1) N
    ∧ ∀ sched cfg, sys_exec input sched cfg0 = Some cfg →
        N_activeProc (mst cfg) = active_count (proc2inputIdx (mst cfg))
        ∧ (∀ a cfg', sys_step input a cfg = Some cfg' →
             (N_activeProc (mst cfg') = N_activeProc (mst cfg) - 1
              ∧ ∃ r, a = master_recv r
                     ∧ log cfg' = log cfg ++ [mkIsend r errValue_addr errValue])
             ∨ (N_activeProc (mst cfg') = N_activeProc (mst cfg)
                ∧ (log cfg' = log cfg ∨ ∃ m, log cfg' = log cfg ++ [m] ∧ is_task m = true)))
        ∧ (N_activeProc (mst cfg) ≤ 0 →
           ∀ r, 1 ≤ r < size →
             term_count r (log cfg) = 1
             ∧ decrements input r sched cfg0
               = if bool_decide (r ≤ Z.min (size - 1) N) then 1 else 0)
        ∧ (∀ r, 1 ≤ r < size →
             ∃ slot, proc2inputIdx (mst cfg) !! Z.to_nat r = Some slot
                     ∧ decrements input r sched cfg0
                       = if bool_decide (slot = -1 ∧ r ≤ Z.min (size - 1) N) then 1 else 0)
        ∧ ∃ sched' cfg',
            sys_exec input (sched ++ sched') cfg0 = Some cfg'
            ∧ N_activeProc (mst cfg') ≤ 0
            ∧ sys_final cfg'.
Proof.
  intros HN Hsize.
  destruct (program_init_spec N size HN Hsize)
    as (input & st0 & tr0 & Hinit & Hin & Hlen & Hrange & Hst & Hinv0 & Hminv0 & Hc0 & Hn0 & Htr).
  pose proof (nonneg_of_range _ Hrange) as Hnn.
  exists input, (sys_init size st0 tr0). split; [done|]. split; [done|].
  intros sched cfg Hexec.
  pose proof (sys_exec_inv _ _ _ _ _ Hnn Hinv0 Hexec) as Hinv.
  destruct (term_inv_init _ _ _ _ _ Hlen Hsize Hst) as [Hterm0 Hcount0].
  pose proof (term_inv_exec _ _ _ _ _ Hnn Hinv0 Hterm0 Hexec) as Hterm.
  split; [apply (inv_active _ _ _ Hinv)|]. split; [intros a cfg'; apply sys_step_active|].
  split; [|split].
  - intros Hexit r Hr.
    destruct (sys_inv_exit _ _ _ Hinv Hsize Hexit) as (_ & _ & Hall & _).
    destruct (Hterm r Hr) as (slot & Hslot & Hcount).
    rewrite (Hall r Hr) in Hslot. injection Hslot as <-.
    rewrite decide_True in Hcount by done. split; [done|].
    rewrite (sys_exec_decrements _ r _ _ _ Hexec), Hcount. cbn [sys_init log].
    rewrite (Hcount0 r Hr). case_bool_decide; lia.
  - intros r Hr. destruct (Hterm r Hr) as (slot & Hslot & Hcount).
    exists slot. split; [done|].
    pose proof (decrements_nonneg input r sched (sys_init size st0 tr0)) as Hnonneg.
    rewrite (sys_exec_decrements _ r _ _ _ Hexec), Hcount in Hnonneg |- *.
    cbn [sys_init log] in Hnonneg |- *. rewrite (Hcount0 r Hr) in Hnonneg |- *.
    destruct (decide (slot = -1)); repeat case_bool_decide; lia.
  - destruct (sys_exec_budget input N _ sched (sys_init size st0 tr0) cfg Hlen Hminv0 Hexec)
      as [Hminv _].
    destruct (sys_completes input N _ size (Z.to_nat (measure N cfg)) cfg Hnn Hlen Hinv Hminv)
      as (sched' & cfg' & Hexec' & Hfinal); [lia|].
    exists sched', cfg'. rewrite sys_exec_app, Hexec. split; [done|].
    split; [apply Hfinal|done].
Qed.

(** C2, as amended.  The receive loop does not look at who sent a result.
    When the table entry of the sender is an index of the output vector, the
    value is stored there, one message is sent back to the sender and the loop
    goes on; when the entry is the marker [-1], the store is outside the
    output vector.  In the program itself every result that is on its way to
    rank 0 comes from a worker rank whose entry is the index of an input that
    has been handed out. *)
Theorem sender_not_checked (N size : Z) :
  0 ≤ N → 2 ≤ size →
  (∀ input p y st idx,
     vec_read (proc2inputIdx st) p = Some idx →
     0 ≤ counter st → length (inputIdx2proc st) = length input →
     (0 ≤ idx < Z.of_nat (length (output st)) →
        ∃ st' m, loop_body input p y st = Some (st', m)
                 ∧ output st' = <[Z.to_nat idx := y]> (output st)
                 ∧ dest m = p
                 ∧ ∀ rest, 0 < N_activeProc st →
                     masterLoop input ((p, y) :: rest) st = emit [m] (masterLoop input rest st'))
     ∧ (idx = -1 →
          loop_body input p y st = None
          ∧ ∀ rest, 0 < N_activeProc st →
              masterLoop input ((p, y) :: rest) st = Undefined []))
  ∧ ∃ input cfg0,
      program_init default_engine distribution N size = Some (input, cfg0)
      ∧ ∀ sched cfg r s y out,
          sys_exec input sched cfg0 = Some cfg →
          slave_at r (slaves cfg) = Some s → outbox s = y :: out →
          1 ≤ r < size
          ∧ ∃ slot, proc2inputIdx (mst cfg) !! Z.to_nat r = Some slot
                    ∧ 0 ≤ slot < counter (mst cfg).
Proof.
  intros HN Hsize. split.
  - intros input p y st idx Hidx Hc Hlen. split.
    + intros Hi. pose proof Hidx as [Hp Hslot]%vec_read_Some.
      destruct (loop_body_defined input p y idx st Hp Hslot Hi Hc Hlen) as [[st' m] Hb].
      exists st', m. split; [done|].
      pose proof (loop_body_Some _ _ _ _ _ _ Hb) as (idx' & Hidx' & _ & _ & Hout & Hm).
      rewrite Hidx in Hidx'. injection Hidx' as <-.
      split; [done|]. split.
      * destruct Hm as [(_ & (x & _ & ->) & _)|(_ & -> & _)]; done.
      * intros rest Hpos. simpl. rewrite bool_decide_eq_true_2 by done. by rewrite Hb.
    + intros ->. assert (loop_body input p y st = None) as Hb.
      { unfold loop_body. rewrite Hidx. done. }
      split; [done|]. intros rest Hpos. simpl.
      rewrite bool_decide_eq_true_2 by done. by rewrite Hb.
  - destruct (program_init_spec N size HN Hsize)
      as (input & st0 & tr0 & Hinit & Hin & Hlen & Hrange & Hst & Hinv0 & _).
    pose proof (nonneg_of_range _ Hrange) as Hnn.
    exists input, (sys_init size st0 tr0). split; [done|].
    intros sched cfg r s y out Hexec Hs Hout.
    pose proof (sys_exec_inv _ _ _ _ _ Hnn Hinv0 Hexec) as Hinv.
    destruct (sys_inv_outbox _ _ _ _ _ _ _ Hinv Hs Hout)
      as (Hr & slot & x & Hslot & Hsl & _).
    split; [done|]. by exists slot.
Qed.

End Program.

(** C8 (worker loop).  A pass of the worker's loop leaves the loop exactly
    when the received value is negative; for every other value it applies the
    task function and sends exactly that one result.  So the loop is left if
    and only if some received value is negative: on non-negative values alone
    the worker has answered each of them, in order, and waits for the next
    message, and at the first negative value it stops, with one result sent
    for each value before it and nothing for the values after it. *)
Theorem worker_loop (rank : Z) (msgs : list Z) :
  (∀ x, slave_body rank x = None ↔ x < 0)
  ∧ (∀ x, 0 ≤ x → slave_body rank x = Some (func_expensive x, (x, rank)))
  ∧ ((∃ sent file unread, slaveCode rank msgs = Finished sent file unread)
     ↔ Exists (λ x, x < 0) msgs)
  ∧ (Forall (λ x, 0 ≤ x) msgs →
       slaveCode rank msgs = Waiting (func_expensive <$> msgs) ((λ x, (x, rank)) <$> msgs))
  ∧ (∀ pre x rest, msgs = pre ++ x :: rest → Forall (λ x, 0 ≤ x) pre → x < 0 →
       slaveCode rank msgs
       = Finished (func_expensive <$> pre) ((λ x, (x, rank)) <$> pre) rest).
Proof.
  split; [|split; [|split; [|split]]].
  - intros x. unfold slave_body. case_bool_decide; split; try done; lia.
  - intros x Hx. unfold slave_body. by rewrite bool_decide_eq_false_2 by lia.
  - apply slaveLoop_Finished.
  - apply slaveLoop_nonneg.
  - intros pre x rest -> Hpre Hx. by apply slaveLoop_break.
Qed.

(** * [Quadrature::trapezoidal] *)

Section Quadrature_facts.

Context {D : Type}.
Context (fadd fsub fmul fdiv : D → D → D) (of_int : Z → D) (half : D).
Context (func : D → D) (one : D).

Local Abbreviation trapezoidal_loop := (trapezoidal_loop fadd fmul of_int half func).
Local Abbreviation trapezoidal := (trapezoidal fadd fsub fmul fdiv of_int half func).
Local Abbreviation weight := (weight half).
Local Abbreviation weighted_term := (weighted_term fadd fmul of_int half func).
Local Abbreviation weighted_sum := (weighted_sum fadd fmul of_int half func).
Local Abbreviation trapezoidal_formula :=
  (trapezoidal_formula fadd fsub fmul fdiv of_int half func).

Lemma trapezoidal_loop_skipped (fuel : nat) (a dx : D) (n k : Z) (result : D) :
  int_wrap (n + 1) < k → trapezoidal_loop fuel a dx n k result = Some result.
Proof. intros Hk. destruct fuel; simpl; by rewrite bool_decide_eq_false_2 by lia. Qed.

(** The two laws of [double] arithmetic that relate the code to the formula:
    the code multiplies the sum by [dx] from the right, and adds [y] where
    the formula has [1 * y]. *)
Hypothesis fmul_comm : ∀ x y, fmul x y = fmul y x.
Hypothesis fmul_one : ∀ y, fmul one y = y.

Lemma trapezoidal_loop_sum (m : nat) (fuel : nat) (a dx : D) (n k : Z) (result : D) :
  0 ≤ n ≤ INT_MAX - 2 → 0 ≤ k → k + Z.of_nat m = n + 2 → (m ≤ fuel)%nat →
  trapezoidal_loop fuel a dx n k result
  = Some (weighted_sum one a dx n (seqZ k (Z.of_nat m)) result).
Proof.
  intros Hn. revert fuel k result. induction m as [|m IH]; intros fuel k result Hk Hkm Hfuel.
  - apply trapezoidal_loop_skipped. rewrite int_wrap_id by (unfold INT_MIN, INT_MAX in *; lia).
    lia.
  - destruct fuel as [|fuel]; [lia|]. simpl.
    rewrite (int_wrap_id (n + 1)) by (unfold INT_MIN, INT_MAX in *; lia).
    rewrite bool_decide_eq_true_2 by lia.
    rewrite (int_wrap_id (k + 1)) by (unfold INT_MIN, INT_MAX in *; lia).
    rewrite IH by lia.
    rewrite (seqZ_cons k) by lia. replace (Z.pred (Z.of_nat (S m))) with (Z.of_nat m) by lia.
    unfold weighted_sum. cbn [foldl]. do 3 f_equal.
    unfold weighted_term, weight. case_bool_decide; [done|]. by rewrite fmul_one.
Qed.

(** C10, as amended.  For [0 ≤ n ≤ INT_MAX - 2], given enough passes, the
    function returns [dx * (w_0 f(x_0) + ... + w_{n+1} f(x_{n+1}))] with
    [dx = (b - a) / (n + 1)] and [x_k = a + k dx], where [w_k] is [0.5] for
    [k = 0] and for [k = n] and 1 for every other [k], in particular for the
    last index [k = n + 1]. *)
Theorem trapezoidal_weights (a b : D) (n : Z) (fuel : nat) :
  0 ≤ n ≤ INT_MAX - 2 → n + 2 ≤ Z.of_nat fuel →
  trapezoidal fuel a b n = Some (trapezoidal_formula one a b n)
  ∧ weight one n 0 = half ∧ weight one n n = half
  ∧ (∀ k, 0 < k ≤ n + 1 → k ≠ n → weight one n k = one)
  ∧ weight one n (n + 1) = one.
Proof.
  intros Hn Hfuel. split; [|split; [|split; [|split]]].
  - unfold trapezoidal, trapezoidal_formula.
    rewrite (int_wrap_id (n + 1)) by (unfold INT_MIN, INT_MAX in *; lia).
    rewrite (trapezoidal_loop_sum (Z.to_nat (n + 2))) by lia.
    simpl. rewrite Z2Nat.id by lia. by rewrite fmul_comm.
  - unfold weight. by rewrite bool_decide_eq_true_2 by lia.
  - unfold weight. by rewrite bool_decide_eq_true_2 by lia.
  - intros k Hk Hkn. unfold weight. by rewrite bool_decide_eq_false_2 by lia.
  - unfold weight. by rewrite bool_decide_eq_false_2 by lia.
Qed.

End Quadrature_facts.

(** ** An instance in exact arithmetic *)

Lemma Qc_sum_zero_terms (term : Z → Qc) (ks : list Z) (acc : Qc) :
  Forall (λ k, term k = 0%Qc) ks → foldl (λ acc k, (acc + term k)%Qc) acc ks = acc.
Proof.
  intros H. revert acc. induction H as [|k ks Hk _ IH]; intros acc; [done|].
  simpl. rewrite Hk, Qcplus_0_r. apply IH.
Qed.

Lemma Qc_of_Z_pos_nonzero (k : Z) : 0 < k → Qc_of_Z k ≠ 0%Qc.
Proof.
  intros Hk Heq. rewrite <- Z2Qc_inj_0 in Heq. apply Z2Qc_inj in Heq. lia.
Qed.

(** For [n = INT_MAX] the sum [n + 1] wraps around to [INT_MIN], the loop is
    not entered, and the result is [0 * dx] whatever the integrand is. *)
Lemma trapezoidal_INT_MAX {D : Type} (fadd fsub fmul fdiv : D → D → D) (of_int : Z → D)
    (half : D) (func : D → D) (fuel : nat) (a b : D) :
  trapezoidal fadd fsub fmul fdiv of_int half func fuel a b INT_MAX
  = Some (fmul (of_int 0) (fdiv (fsub b a) (of_int INT_MIN))).
Proof.
  unfold trapezoidal. rewrite trapezoidal_loop_skipped; [done|]. by vm_compute.
Qed.

(** For [n = INT_MAX - 1] the loop condition [k <= INT_MAX] holds for every
    [int]: the loop is never left. *)
Lemma trapezoidal_loop_forever {D : Type} (fadd fmul : D → D → D) (of_int : Z → D)
    (half : D) (func : D → D) (fuel : nat) (a dx : D) (k : Z) (result : D) :
  INT_MIN ≤ k ≤ INT_MAX →
  trapezoidal_loop fadd fmul of_int half func fuel a dx (INT_MAX - 1) k result = None.
Proof.
  assert (int_wrap (INT_MAX - 1 + 1) = INT_MAX) as Hw by (by vm_compute).
  revert k result. induction fuel as [|fuel IH]; intros k result Hk; simpl; rewrite Hw.
  - by rewrite bool_decide_eq_true_2 by lia.
  - rewrite bool_decide_eq_true_2 by lia. apply IH. apply int_wrap_range.
Qed.

(** The formula of the claim for the integrand [Qc_bump] from 0 to 1: only
    the first sample contributes. *)
Lemma Qc_formula_bump (n : Z) :
  0 ≤ n → Qc_formula 0%Qc 1%Qc n = (/ Qc_of_Z (n + 1) * / 2)%Qc.
Proof.
  intros Hn. unfold Qc_formula, trapezoidal_formula, weighted_sum.
  set (dx := ((1 - 0) / Qc_of_Z (n + 1))%Qc).
  assert (dx = (/ Qc_of_Z (n + 1))%Qc) as Hdx.
  { unfold dx, Qcdiv, Qcminus. change (- 0)%Qc with 0%Qc.
    by rewrite Qcplus_0_r, Qcmult_1_l. }
  assert (dx ≠ 0%Qc) as Hdx0.
  { rewrite Hdx. intros Heq.
    assert (Qc_of_Z (n + 1) * / Qc_of_Z (n + 1) = 1)%Qc as Hinv.
    { apply Qcmult_inv_r. apply Qc_of_Z_pos_nonzero. lia. }
    rewrite Heq, Qcmult_0_r in Hinv. discriminate. }
  rewrite (seqZ_cons 0) by lia. cbn [foldl].
  rewrite Qc_sum_zero_terms.
  - unfold weighted_term, weight. rewrite bool_decide_eq_true_2 by (by left).
    rewrite Z2Qc_inj_0, Qcmult_0_l, Qcplus_0_r, Qcplus_0_l.
    unfold Qc_bump. rewrite decide_True by done. by rewrite Qcmult_1_r, Hdx.
  - apply Forall_forall. intros k Hk%elem_of_seqZ.
    unfold weighted_term, Qc_bump. rewrite decide_False; [apply Qcmult_0_r|].
    rewrite Qcplus_0_l. intros [Hz|Hz]%Qcmult_integral; [|done].
    revert Hz. apply Qc_of_Z_pos_nonzero. lia.
Qed.

(** C10, counterexample: at [n = INT_MAX] the function returns 0 for the
    integrand [Qc_bump] on the interval from 0 to 1, while the formula of the
    claim gives [1 / 2^32]. *)
Lemma trapezoidal_weights_INT_MAX :
  0 ≤ INT_MAX
  ∧ (∀ fuel, Qc_trapezoidal fuel 0%Qc 1%Qc INT_MAX = Some 0%Qc)
  ∧ Qc_formula 0%Qc 1%Qc INT_MAX ≠ 0%Qc
  ∧ ∀ fuel, Qc_trapezoidal fuel 0%Qc 1%Qc INT_MAX ≠ Some (Qc_formula 0%Qc 1%Qc INT_MAX).
Proof.
  assert (∀ fuel, Qc_trapezoidal fuel 0%Qc 1%Qc INT_MAX = Some 0%Qc) as Hcode.
  { intros fuel. unfold Qc_trapezoidal. rewrite trapezoidal_INT_MAX.
    by rewrite Z2Qc_inj_0, Qcmult_0_l. }
  assert (Qc_formula 0%Qc 1%Qc INT_MAX ≠ 0%Qc) as Hformula.
  { rewrite Qc_formula_bump by (by vm_compute). intros [Hz|Hz]%Qcmult_integral.
    - assert (Qc_of_Z (INT_MAX + 1) * / Qc_of_Z (INT_MAX + 1) = 1)%Qc as Hinv.
      { apply Qcmult_inv_r. apply Qc_of_Z_pos_nonzero. by vm_compute. }
      rewrite Hz, Qcmult_0_r in Hinv. discriminate.
    - discriminate. }
  split; [by vm_compute|]. split; [done|]. split; [done|].
  intros fuel. rewrite Hcode. intros Heq. apply Hformula.
  symmetry. exact (inj Some _ _ Heq).
Qed.

(** * Instances of the claims *)

Lemma lcg_distribution_range (a b g : Z) : a ≤ b → a ≤ (lcg_distribution a b g).1 ≤ b.
Proof.
  intros Hab. unfold lcg_distribution. simpl.
  pose proof (Z.mod_pos_bound (lcg_next g) (b - a + 1)). lia.
Qed.

(** Three inputs on three ranks; the generated inputs are 10, 1 and 0. *)
Lemma coverage_witness :
  0 ≤ 3 ∧ 2 ≤ 3
  ∧ ∃ st tr, masterCode 1 lcg_distribution 3 3 [(1, 11); (2, 2); (1, 1)] = Exited st tr []
             ∧ assigned tr = seqZ 0 3.
Proof.
  split; [lia|]. split; [lia|].
  eexists _, _. split; [vm_compute; reflexivity|].
  refine (proj1 (coverage 1 lcg_distribution 3 3 [(1, 11); (2, 2); (1, 1)] _ _ [] _ _ _));
    [lia|lia|vm_compute; reflexivity].
Defined.

Lemma termination_witness :
  0 ≤ 3 ∧ 2 ≤ 3
  ∧ ∃ input cfg0,
      program_init 1 lcg_distribution 3 3 = Some (input, cfg0)
      ∧ ∀ sched cfg, sys_exec input sched cfg0 = Some cfg → receives sched ≤ 3.
Proof.
  split; [lia|]. split; [lia|].
  destruct (termination 1 lcg_distribution lcg_distribution_range 3 3)
    as (input & cfg0 & Hinit & Hsys & _); [lia|lia|].
  exists input, cfg0. split; [exact Hinit|].
  intros sched cfg Hexec. exact (proj1 (proj2 (Hsys sched cfg Hexec))).
Defined.

Lemma output_order_witness :
  0 ≤ 3 ∧ 2 ≤ 3
  ∧ ∃ input cfg0,
      program_init 1 lcg_distribution 3 3 = Some (input, cfg0)
      ∧ ∀ sched cfg, sys_exec input sched cfg0 = Some cfg →
          N_activeProc (mst cfg) ≤ 0 → output (mst cfg) = func_expensive <$> input.
Proof.
  split; [lia|]. split; [lia|].
  destruct (output_order 1 lcg_distribution lcg_distribution_range 3 3)
    as (input & cfg0 & Hinit & Hsys & _); [lia|lia|].
  exists input, cfg0. split; [exact Hinit|].
  intros sched cfg Hexec Hexit. exact (proj1 (Hsys sched cfg Hexec Hexit)).
Defined.

(** Two inputs on five ranks. *)
Lemma excess_workers_witness :
  0 ≤ 2 ∧ 2 < 5 - 1
  ∧ ∃ input st0 tr0,
      program_init 1 lcg_distribution 2 5 = Some (input, sys_init 5 st0 tr0)
      ∧ ∀ r, 2 < r < 5 → filter (λ m, dest m = r) tr0 = [mkIsend r errValue_addr errValue].
Proof.
  split; [lia|]. split; [lia|].
  destruct (excess_workers 1 lcg_distribution lcg_distribution_range 2 5)
    as (input & st0 & tr0 & Hinit & _ & _ & Hterm & _); [lia|lia|].
  exists input, st0, tr0. split; [exact Hinit|exact Hterm].
Defined.

Lemma zero_tasks_witness :
  2 ≤ 3
  ∧ ∃ st, masterCode 1 lcg_distribution 0 3 []
          = Exited st [mkIsend 1 errValue_addr errValue; mkIsend 2 errValue_addr errValue] []
          ∧ N_activeProc st = 0.
Proof.
  split; [lia|].
  destruct (zero_tasks 1 lcg_distribution 3 []) as (st & Hrun & Hn & _); [lia|].
  exists st. split; [exact Hrun|exact Hn].
Defined.

Lemma active_workers_witness :
  0 ≤ 2 ∧ 2 ≤ 5
  ∧ ∃ input cfg0,
      program_init 1 lcg_distribution 2 5 = Some (input, cfg0)
      ∧ N_activeProc (mst cfg0) = Z.min (5 - 1) 2
      ∧ ∃ sched cfg,
          sys_exec input sched cfg0 = Some cfg
          ∧ N_activeProc (mst cfg) ≤ 0
          ∧ N_activeProc (mst cfg) = active_count (proc2inputIdx (mst cfg))
          ∧ ∀ r, 1 ≤ r < 5 →
              term_count r (log cfg) = 1
              ∧ decrements input r sched cfg0
                = if bool_decide (r ≤ Z.min (5 - 1) 2) then 1 else 0.
Proof.
  split; [lia|]. split; [lia|].
  destruct (active_workers 1 lcg_distribution lcg_distribution_range 2 5)
    as (input & cfg0 & Hinit & Hn & Hsys); [lia|lia|].
  exists input, cfg0. split; [exact Hinit|]. split; [exact Hn|].
  destruct (Hsys [] cfg0 eq_refl) as (_ & _ & _ & _ & sched & cfg & Hexec & Hexit & _).
  exists sched, cfg. split; [exact Hexec|]. split; [exact Hexit|].
  destruct (Hsys sched cfg Hexec) as (Hcount & _ & Hdone & _).
  split; [exact Hcount|exact (Hdone Hexit)].
Defined.

Lemma sender_not_checked_witness :
  0 ≤ 3 ∧ 2 ≤ 3
  ∧ ∃ input cfg0,
      program_init 1 lcg_distribution 3 3 = Some (input, cfg0)
      ∧ ∀ sched cfg r s y out,
          sys_exec input sched cfg0 = Some cfg →
          slave_at r (slaves cfg) = Some s → outbox s = y :: out →
          1 ≤ r < 3
          ∧ ∃ slot, proc2inputIdx (mst cfg) !! Z.to_nat r = Some slot
                    ∧ 0 ≤ slot < counter (mst cfg).
Proof.
  split; [lia|]. split; [lia|].
  exact (proj2 (sender_not_checked 1 lcg_distribution lcg_distribution_range 3 3
                  ltac:(lia) ltac:(lia))).
Defined.

Lemma inputs_in_range_witness :
  inputDataGenerator 1 lcg_distribution 3 = Some [10; 1; 0]
  ∧ Forall (λ x, 0 ≤ x ≤ 10) [10; 1; 0].
Proof.
  split; [vm_compute; reflexivity|].
  refine (proj1 (inputs_in_range 1 lcg_distribution lcg_distribution_range 3 [10; 1; 0] _)).
  vm_compute; reflexivity.
Defined.

(** One interior point, from 0 to 1, in exact arithmetic. *)
Lemma trapezoidal_weights_witness :
  0 ≤ 1 ≤ INT_MAX - 2 ∧ 1 + 2 ≤ Z.of_nat 3
  ∧ Qc_trapezoidal 3 0%Qc 1%Qc 1 = Some (Qc_formula 0%Qc 1%Qc 1).
Proof.
  split; [unfold INT_MAX; lia|]. split; [lia|].
  refine (proj1 (trapezoidal_weights Qcplus Qcminus Qcmult Qcdiv Qc_of_Z (/ 2)%Qc Qc_bump 1%Qc
                   Qcmult_comm Qcmult_1_l 0%Qc 1%Qc 1 3 _ _)); [unfold INT_MAX; lia|lia].
Defined.

(** C7, counterexample: two inputs on five ranks.  Ranks 3 and 4 are sent
    the termination message by the start-up loop, and [N_activeProc], which
    starts at 2, is never decremented for them. *)
Lemma decrement_per_worker_counterexample :
  ∃ input cfg0 cfg,
    program_init 1 lcg_distribution 2 5 = Some (input, cfg0)
    ∧ sys_exec input
        [slave_recv 1; slave_recv 2; slave_recv 3; slave_recv 4;
         master_recv 2; master_recv 1; slave_recv 1; slave_recv 2] cfg0 = Some cfg
    ∧ sys_final cfg
    ∧ N_activeProc (mst cfg0) = 2
    ∧ term_count 3 (log cfg0) = 1
    ∧ term_count 3 (log cfg) = 1
    ∧ decrements input 3
        [slave_recv 1; slave_recv 2; slave_recv 3; slave_recv 4;
         master_recv 2; master_recv 1; slave_recv 1; slave_recv 2] cfg0 = 0.
Proof.
  eexists _, _, _. split; [vm_compute; reflexivity|].
  split; [vm_compute; reflexivity|].
  split; [split; [simpl; lia|repeat constructor]|].
  repeat split; vm_compute; reflexivity.
Qed.

(** C2, counterexample: three inputs on three ranks, and a value 99 that
    arrives from rank 0, to which nothing was ever sent.  The run is not
    stopped: 99 is stored at index 0 of the output, the next input is sent to
    rank 0, and rank 0 waits for the next result. *)
Lemma unassigned_sender_counterexample :
  ∃ st tr,
    masterCode 1 lcg_distribution 3 3 [(0, 99)] = Blocked st tr
    ∧ Forall (λ m, dest m ≠ 0) (take 2 tr)
    ∧ output st = [99; 0; 0]
    ∧ tr !! 2%nat = Some (mkIsend 0 (input_data 2) 0)
    ∧ counter st = 3.
Proof.
  eexists _, _. split; [vm_compute; reflexivity|].
  split; [repeat constructor; simpl; lia|].
  repeat split; vm_compute; reflexivity.
Qed.

(** * Further properties *)

(** ** [inputIdx2proc] and the file of rank 0 *)

Lemma recorded_task (i2p : list Z) (cnt : Z) (tr : list Isend) (p x : Z) :
  recorded i2p cnt tr → 0 ≤ cnt < Z.of_nat (length i2p) →
  recorded (<[Z.to_nat cnt := p]> i2p) (cnt + 1) (tr ++ [mkIsend p (input_data cnt) x]).
Proof.
  intros Hrec Hcnt m c [Hm|Hm]%elem_of_app Hc.
  - destruct (Hrec m c Hm Hc) as [Hlt Hl]. split; [lia|].
    rewrite list_lookup_insert_ne by lia. done.
  - apply list_elem_of_singleton in Hm as ->. unfold task_of in Hc. simpl in Hc.
    injection Hc as <-. split; [lia|]. simpl. apply list_lookup_insert_eq. lia.
Qed.

Lemma recorded_term (i2p : list Z) (cnt : Z) (tr : list Isend) (p : Z) :
  recorded i2p cnt tr → recorded i2p cnt (tr ++ [mkIsend p errValue_addr errValue]).
Proof.
  intros Hrec m c [Hm|Hm]%elem_of_app Hc; [by apply Hrec|].
  apply list_elem_of_singleton in Hm as ->. discriminate.
Qed.

Lemma startup_body_recorded (input : list Z) (kmax k : Z) (st st' : Master) (m : Isend)
    (tr : list Isend) :
  startup_body input kmax k st = Some (st', m) → 0 ≤ counter st →
  recorded (inputIdx2proc st) (counter st) tr →
  recorded (inputIdx2proc st') (counter st') (tr ++ [m])
  ∧ 0 ≤ counter st' ∧ length (inputIdx2proc st') = length (inputIdx2proc st).
Proof.
  unfold startup_body. intros Hb Hc Hrec. case_bool_decide.
  - destruct (vec_read input (counter st)) as [x|]; simpl in Hb; [|done].
    destruct (vec_write (inputIdx2proc st) _ _) as [i2p|] eqn:Hw; simpl in Hb; [|done].
    destruct (vec_write (proc2inputIdx st) _ _); simpl in Hb; [|done].
    injection Hb as <- <-. simpl. apply vec_write_Some in Hw as [Hlt ->].
    split; [by apply recorded_task|]. split; [lia|]. apply length_insert.
  - destruct (vec_write (proc2inputIdx st) _ _); simpl in Hb; [|done].
    injection Hb as <- <-. simpl. split; [by apply recorded_term|done].
Qed.

Lemma loop_body_recorded (input : list Z) (p y : Z) (st st' : Master) (m : Isend)
    (tr : list Isend) :
  loop_body input p y st = Some (st', m) → 0 ≤ counter st →
  length (inputIdx2proc st) = length input →
  recorded (inputIdx2proc st) (counter st) tr →
  recorded (inputIdx2proc st') (counter st') (tr ++ [m])
  ∧ 0 ≤ counter st' ∧ length (inputIdx2proc st') = length (inputIdx2proc st).
Proof.
  intros Hb Hc Hlen Hrec.
  apply loop_body_Some in Hb as (idx & _ & _ & _ & _ & Hcases).
  destruct Hcases as [(Hlt & (x & _ & ->) & -> & _ & -> & _)|(_ & -> & -> & _ & -> & _)].
  - split; [apply recorded_task; [done|lia]|]. split; [lia|]. apply length_insert.
  - split; [by apply recorded_term|done].
Qed.

Lemma startup_loop_recorded (input : list Z) (kmax : Z) (ks : list Z) (st st' : Master)
    (tr pre : list Isend) :
  startup_loop input kmax ks st = Some (st', tr) → 0 ≤ counter st →
  recorded (inputIdx2proc st) (counter st) pre →
  recorded (inputIdx2proc st') (counter st') (pre ++ tr)
  ∧ 0 ≤ counter st' ∧ length (inputIdx2proc st') = length (inputIdx2proc st).
Proof.
  revert st tr pre. induction ks as [|k ks IH]; intros st tr pre; simpl.
  - intros [= <- <-] Hc Hrec. by rewrite app_nil_r.
  - destruct (startup_body input kmax k st) as [[st1 m]|] eqn:Hb; simpl; [|done].
    destruct (startup_loop input kmax ks st1) as [[st2 tr2]|] eqn:Hl; simpl; [|done].
    intros [= <- <-] Hc Hrec.
    destruct (startup_body_recorded _ _ _ _ _ _ _ Hb Hc Hrec) as (Hrec1 & Hc1 & Hlen1).
    destruct (IH _ _ _ Hl Hc1 Hrec1) as (Hrec2 & Hc2 & Hlen2).
    rewrite <- app_assoc in Hrec2. split; [done|]. split; [done|congruence].
Qed.

Lemma masterLoop_recorded (input : list Z) (msgs : list (Z * Z)) (st st' : Master)
    (tr pre : list Isend) (rest : list (Z * Z)) :
  masterLoop input msgs st = Exited st' tr rest → 0 ≤ counter st →
  length (inputIdx2proc st) = length input →
  recorded (inputIdx2proc st) (counter st) pre →
  recorded (inputIdx2proc st') (counter st') (pre ++ tr)
  ∧ length (inputIdx2proc st') = length input.
Proof.
  revert st tr pre. induction msgs as [|[p y] msgs IH]; intros st tr pre; simpl.
  - case_bool_decide; [done|]. intros [= <- <- <-] Hc Hlen Hrec. by rewrite app_nil_r.
  - case_bool_decide.
    + destruct (loop_body input p y st) as [[st1 m]|] eqn:Hb; [|done].
      intros (tr1 & Ho & ->)%emit_Exited Hc Hlen Hrec.
      destruct (loop_body_recorded _ _ _ _ _ _ _ Hb Hc Hlen Hrec) as (Hrec1 & Hc1 & Hlen1).
      destruct (IH _ _ _ Ho Hc1 ltac:(congruence) Hrec1) as (Hrec2 & Hlen2).
      rewrite <- app_assoc in Hrec2. done.
    + intros [= <- <- <-] Hc Hlen Hrec. by rewrite app_nil_r.
Qed.

Lemma mapM_fmap_Some {A B : Type} (f : A → option B) (g : A → B) (l : list A) :
  Forall (λ x, f x = Some (g x)) l → mapM f l = Some (g <$> l).
Proof.
  induction 1 as [|x l Hx _ IH]; [done|]. simpl. rewrite Hx. simpl. by rewrite IH.
Qed.

Lemma assigned_length (tr : list Isend) :
  length (assigned tr) = length (filter (λ m, is_task m = true) tr).
Proof.
  induction tr as [|m tr IH]; [done|].
  unfold assigned in *. cbn [omap list_omap]. rewrite filter_cons.
  unfold task_of, is_task in *. destruct (buf m); case_decide; try done.
  simpl. by rewrite IH.
Qed.

Lemma filter_length_complement {A : Type} (P : A → Prop) `{!∀ x, Decision (P x)}
    (l : list A) :
  (length (filter P l) + length (filter (λ x, ¬ P x) l) = length l)%nat.
Proof.
  induction l as [|x l IH]; [done|]. rewrite !filter_cons.
  destruct (decide (P x)), (decide (¬ P x)); simpl; try done; lia.
Qed.

(** ** Runs of rank 0 within the defined behaviour *)

Lemma final_state_emit (ms : list Isend) (o : outcome) (st : Master) (tr : list Isend) :
  final_state (emit ms o) = Some (st, tr) →
  ∃ tr', final_state o = Some (st, tr') ∧ tr = ms ++ tr'.
Proof. destruct o; simpl; intros H; simplify_eq; by eexists. Qed.

(** The offsets sent while rank 0 runs go up from its cursor one by one. *)
Lemma masterLoop_cursor (input : list Z) (msgs : list (Z * Z)) (st st' : Master)
    (tr : list Isend) :
  final_state (masterLoop input msgs st) = Some (st', tr) →
  counter st ≤ Z.of_nat (length input) →
  assigned tr = seqZ (counter st) (counter st' - counter st)
  ∧ counter st ≤ counter st' ≤ Z.of_nat (length input).
Proof.
  revert st tr. induction msgs as [|[p y] msgs IH]; intros st tr; simpl.
  - case_bool_decide; simpl; intros [= <- <-] Hc; rewrite Z.sub_diag; split; done || lia.
  - case_bool_decide.
    + destruct (loop_body input p y st) as [[st1 m]|] eqn:Hb; [|done].
      intros (tr1 & Ho & ->)%final_state_emit Hc.
      apply loop_body_Some in Hb as (idx & _ & _ & _ & _ & Hcases).
      rewrite assigned_app.
      destruct Hcases as [(Hlt & (x & _ & ->) & Hc1 & _)|(_ & -> & Hc1 & _)].
      * destruct (IH _ _ Ho) as [Ha Hle]; [lia|]. rewrite Ha, Hc1. split; [|lia].
        unfold assigned, task_of. simpl.
        rewrite (seqZ_cons (counter st)) by lia. f_equal. f_equal; lia.
      * destruct (IH _ _ Ho) as [Ha Hle]; [lia|]. rewrite Ha, Hc1. split; [done|lia].
    + simpl. intros [= <- <-] Hc. rewrite Z.sub_diag. split; done || lia.
Qed.

(** ** The final comparison *)

Lemma check_errors_fold (input out : list Z) (n : nat) (a : Z) :
  0 ≤ a → a + Z.of_nat n ≤ Z.of_nat (length input) →
  a + Z.of_nat n ≤ Z.of_nat (length out) →
  foldr (λ k acc,
           x ← vec_read input k; o ← vec_read out k; rest ← acc;
           Some (if bool_decide (func_cheap x - o ≠ 0) then k :: rest else rest))
        (Some []) (seqZ a (Z.of_nat n))
  = Some (filter (λ k, func_cheap (input !!! Z.to_nat k) ≠ out !!! Z.to_nat k)
            (seqZ a (Z.of_nat n))).
Proof.
  revert a. induction n as [|n IH]; intros a Ha Hin Hout; [done|].
  rewrite seqZ_cons by lia. replace (Z.pred (Z.of_nat (S n))) with (Z.of_nat n) by lia.
  cbn [foldr]. rewrite IH by lia.
  destruct (vec_read_is_Some input a) as [x Hx]; [lia|].
  destruct (vec_read_is_Some out a) as [o Ho]; [lia|].
  rewrite Hx, Ho. simpl. apply vec_read_Some in Hx as [_ Hx]. apply vec_read_Some in Ho as [_ Ho].
  rewrite filter_cons.
  rewrite (list_lookup_total_correct _ _ _ Hx), (list_lookup_total_correct _ _ _ Ho).
  case_bool_decide; case_decide; try done; lia.
Qed.

(** ** What the workers are sent, receive and write *)

Lemma payloads_to_app (r : Z) (a b : list Isend) :
  payloads_to r (a ++ b) = payloads_to r a ++ payloads_to r b.
Proof. unfold payloads_to. by rewrite filter_app, fmap_app. Qed.

Lemma payloads_to_singleton (r : Z) (m : Isend) :
  payloads_to r [m] = if decide (dest m = r) then [payload m] else [].
Proof. unfold payloads_to. rewrite filter_cons. by case_decide. Qed.

Lemma loop_body_dest (input : list Z) (p y : Z) (st st' : Master) (m : Isend) :
  loop_body input p y st = Some (st', m) → dest m = p.
Proof.
  intros (idx & _ & _ & _ & _ & Hm)%loop_body_Some.
  by destruct Hm as [(_ & (x & _ & ->) & _)|(_ & -> & _)].
Qed.

Lemma chan_inv_init (N size : Z) (input : list Z) (st : Master) (tr : list Isend) :
  Z.of_nat (length input) = N → 2 ≤ size →
  startup N size input = Some (st, tr) → chan_inv size (sys_init size st tr).
Proof.
  intros Hlen Hsize Hst.
  destruct (sys_init_inv _ _ _ _ _ Hlen Hsize Hst) as (Hinv & _ & _ & _ & Htr).
  split.
  - cbn [sys_init log]. rewrite Htr. apply Forall_fmap, Forall_forall.
    intros r Hr%elem_of_seqZ. simpl. rewrite startup_msg_dest. lia.
  - intros r s Hs. pose proof (sys_inv_slave_at _ _ _ _ _ Hinv Hs) as Hr.
    rewrite (sys_init_slave_at size r st tr Hr) in Hs. injection Hs as <-. done.
Qed.

Lemma chan_inv_step (input : list Z) (size : Z) (a : action) (cfg cfg' : System) :
  sys_inv input size cfg → chan_inv size cfg →
  sys_step input a cfg = Some cfg' → chan_inv size cfg'.
Proof.
  intros Hinv [Hdest Hchan] Hstep. destruct a as [r0|r0].
  - apply sys_step_master in Hstep
      as (Hpos & s0 & y & out & st' & m & Hs0 & Hout & Hb & ->).
    pose proof (sys_inv_slave_at _ _ _ _ _ Hinv Hs0) as Hr0.
    pose proof (loop_body_dest _ _ _ _ _ _ Hb) as Hd.
    split; cbn [log slaves].
    + apply Forall_app. split; [done|]. constructor; [lia|constructor].
    + intros r s Hs. rewrite payloads_to_app, payloads_to_singleton.
      destruct (decide (r0 = r)) as [<-|Hne].
      * erewrite slave_at_put_eq in Hs by done. injection Hs as <-. cbn [received inbox file].
        destruct (Hchan r0 s0 Hs0) as [Hc Hf]. rewrite decide_True by done.
        by rewrite app_assoc, Hc.
      * rewrite slave_at_put_ne in Hs by lia. rewrite decide_False by lia.
        rewrite app_nil_r. by apply Hchan.
  - apply sys_step_slave in Hstep as (s0 & x & inb & Hs0 & Hf0 & Hi0 & ->).
    pose proof (sys_inv_slave_at _ _ _ _ _ Hinv Hs0) as Hr0.
    split; cbn [log slaves]; [done|].
    intros r s Hs. destruct (decide (r0 = r)) as [<-|Hne].
    + erewrite slave_at_put_eq in Hs by done.
      destruct (Hchan r0 s0 Hs0) as [Hc Hf]. rewrite Hi0 in Hc.
      case_bool_decide; injection Hs as <-; cbn [received inbox file];
        rewrite <- app_assoc, filter_app, filter_cons, filter_nil; simpl;
        (split; [done|]).
      * rewrite decide_False by lia. by rewrite app_nil_r.
      * rewrite decide_True by lia. by rewrite fmap_app, Hf.
    + rewrite slave_at_put_ne in Hs by lia. by apply Hchan.
Qed.

Lemma sent_inv_init (N size : Z) (input : list Z) (st : Master) (tr : list Isend) :
  Forall (λ x, 0 ≤ x) input → Z.of_nat (length input) = N → 2 ≤ size →
  startup N size input = Some (st, tr) → sent_inv size (sys_init size st tr).
Proof.
  intros Hnn Hlen Hsize Hst.
  destruct (startup_spec N size input Hlen ltac:(lia))
    as (st0 & Heq & Hc & Hn & Ho & Hi2p & Hp2i & H0 & Hs).
  rewrite Heq in Hst. injection Hst as <- <-.
  intros r Hr. cbn [sys_init mst log]. rewrite (Hs r Hr).
  rewrite <- (Z2Nat.id (size - 1)) by lia. rewrite payloads_to_startup.
  rewrite bool_decide_eq_true_2 by lia. unfold startup_slot, startup_msg.
  case_bool_decide as Hle; simpl.
  - exists (r - 1), [input !!! Z.to_nat (r - 1)]. split; [done|].
    rewrite decide_False by lia. split; [|done]. constructor; [|constructor].
    apply (Forall_lookup_1 _ _ (Z.to_nat (r - 1)) _ Hnn).
    apply list_lookup_lookup_total_lt. lia.
  - exists (-1), []. split; [done|]. split; [constructor|done].
Qed.

Lemma sent_inv_step (input : list Z) (size : Z) (a : action) (cfg cfg' : System) :
  Forall (λ x, 0 ≤ x) input →
  sys_inv input size cfg → sent_inv size cfg →
  sys_step input a cfg = Some cfg' → sent_inv size cfg'.
Proof.
  intros Hnn Hinv Hsent Hstep. destruct a as [r0|r0].
  - apply sys_step_master in Hstep
      as (Hpos & s0 & y & out & st' & m & Hs0 & Hout & Hb & ->).
    destruct (sys_inv_outbox _ _ _ _ _ _ _ Hinv Hs0 Hout)
      as (Hr0 & slot0 & x0 & Hslot0 & Hsl0 & _).
    pose proof (lookup_lt_Some _ _ _ Hslot0) as Hlt0.
    pose proof (inv_counter _ _ _ Hinv) as Hcnt.
    apply loop_body_Some in Hb as (idx & _ & _ & _ & _ & Hcases).
    intros r Hr. cbn [mst log]. rewrite payloads_to_app, payloads_to_singleton.
    destruct (Hsent r Hr) as (slot & tasks & Hslot & Htasks & Hpay). rewrite Hpay.
    destruct Hcases as [(_ & (x' & Hx' & ->) & _ & _ & _ & ->)|(_ & -> & _ & _ & _ & ->)];
      cbn [dest payload]; destruct (decide (r0 = r)) as [<-|Hne].
    + rewrite list_lookup_insert_eq by done.
      rewrite Hslot0 in Hslot. injection Hslot as <-.
      exists (counter (mst cfg)), (tasks ++ [x']). split; [done|].
      rewrite !decide_False by lia. rewrite !app_nil_r. split; [|done].
      apply Forall_app. split; [done|]. constructor; [|constructor].
      apply vec_read_Some in Hx' as [_ Hx']. by apply (Forall_lookup_1 _ _ _ _ Hnn Hx').
    + rewrite list_lookup_insert_ne by lia. exists slot, tasks.
      by rewrite app_nil_r.
    + rewrite list_lookup_insert_eq by done.
      rewrite Hslot0 in Hslot. injection Hslot as <-.
      exists (-1), tasks. split; [done|]. split; [done|].
      rewrite decide_False by lia. rewrite decide_True by done. by rewrite app_nil_r.
    + rewrite list_lookup_insert_ne by lia. exists slot, tasks.
      by rewrite app_nil_r.
  - apply sys_step_slave in Hstep as (s0 & x & inb & _ & _ & _ & ->). done.
Qed.

(** The invariants together, along an execution. *)
Lemma sys_exec_more_inv (input : list Z) (size : Z) (sched : list action)
    (cfg cfg' : System) :
  Forall (λ x, 0 ≤ x) input →
  sys_inv input size cfg → chan_inv size cfg → sent_inv size cfg →
  sys_exec input sched cfg = Some cfg' →
  sys_inv input size cfg' ∧ chan_inv size cfg' ∧ sent_inv size cfg'.
Proof.
  intros Hnn. revert cfg. induction sched as [|a sched IH]; intros cfg Hinv Hchan Hsent; simpl.
  - by intros [= <-].
  - destruct (sys_step input a cfg) as [cfg1|] eqn:Hstep; simpl; [|done].
    apply IH; [by eapply sys_step_inv|by eapply chan_inv_step|by eapply sent_inv_step].
Qed.

(** ** The number of steps *)

Lemma sys_step_work (input : list Z) (N : Z) (a : action) (cfg cfg' : System) :
  sys_step input a cfg = Some cfg' → work N cfg' = work N cfg - 1.
Proof.
  intros Hstep. unfold work, budget. destruct a as [r|r].
  - apply sys_step_master in Hstep
      as (Hpos & s & y & out & st' & m & Hs & Hout & Hb & ->).
    apply loop_body_Some in Hb as (idx & _ & _ & _ & _ & Hcases). cbn [mst slaves].
    set (s' := mkSlave (inbox s ++ [payload m]) out (received s) (file s) (finished s)).
    pose proof (slave_put_sum (λ s, length (inbox s)) r _ s s' Hs) as Hsum.
    cbn beta in Hsum. unfold s' in Hsum at 2. cbn [inbox] in Hsum.
    rewrite length_app in Hsum. cbn [length] in Hsum.
    destruct Hcases as [(_ & _ & Hc & Hn & _)|(_ & _ & Hc & Hn & _)]; lia.
  - apply sys_step_slave in Hstep as (s & x & inb & Hs & _ & Hi & ->). cbn [mst slaves].
    match goal with |- context [slave_put r ?t] => set (s' := t) end.
    pose proof (slave_put_sum (λ s, length (inbox s)) r _ s s' Hs) as Hsum.
    cbn beta in Hsum. rewrite Hi in Hsum.
    assert (inbox s' = inb) as Hinb by (unfold s'; by case_bool_decide).
    rewrite Hinb in Hsum. cbn [length] in Hsum. lia.
Qed.

Lemma sys_exec_work (input : list Z) (N : Z) (sched : list action) (cfg cfg' : System) :
  sys_exec input sched cfg = Some cfg' →
  Z.of_nat (length sched) = work N cfg - work N cfg'.
Proof.
  revert cfg. induction sched as [|a sched IH]; intros cfg; simpl.
  - intros [= <-]. lia.
  - destruct (sys_step input a cfg) as [cfg1|] eqn:Hstep; simpl; [|done].
    intros Hexec%IH. apply (sys_step_work _ N) in Hstep. lia.
Qed.

Lemma work_init (N size : Z) (input : list Z) (st : Master) (tr : list Isend) :
  Z.of_nat (length input) = N → 2 ≤ size →
  startup N size input = Some (st, tr) →
  work N (sys_init size st tr) = 2 * N + (size - 1).
Proof.
  intros Hlen Hsize Hst.
  destruct (sys_init_inv _ _ _ _ _ Hlen Hsize Hst) as (_ & _ & Hc & Hn & Htr).
  unfold work, budget, sys_init. cbn [mst slaves]. rewrite Hc, Hn.
  rewrite (sum_list_with_const _ 1).
  - rewrite length_fmap, length_seqZ. lia.
  - apply Forall_fmap, Forall_forall. intros r Hr%elem_of_seqZ.
    cbn [compose inbox].
    rewrite Htr. rewrite <- (Z2Nat.id (size - 1)) by lia. rewrite payloads_to_startup.
    rewrite bool_decide_eq_true_2 by lia. done.
Qed.

Lemma work_final (input : list Z) (N size : Z) (cfg : System) :
  Z.of_nat (length input) = N → 2 ≤ size →
  sys_inv input size cfg → sys_final cfg → work N cfg = 0.
Proof.
  intros Hlen Hsize Hinv [Hexit Hfin].
  destruct (sys_inv_exit _ _ _ Hinv Hsize Hexit) as (Hn & Hc & _).
  unfold work, budget. rewrite Hn, Hc, (sum_list_with_const _ 0); [lia|].
  apply Forall_lookup. intros i s Hi. simpl.
  pose proof (lookup_lt_Some _ _ _ Hi) as Hilt.
  pose proof (inv_slaves _ _ _ Hinv) as Hsl.
  destruct (inv_slots _ _ _ Hinv (Z.of_nat i + 1)) as (slot & s' & _ & Hs' & Hok); [lia|].
  apply slave_at_Some in Hs' as [_ Hs'].
  replace (Z.to_nat (Z.of_nat i + 1 - 1)) with i in Hs' by lia.
  rewrite Hi in Hs'. injection Hs' as <-.
  pose proof (Forall_lookup_1 _ _ _ _ Hfin Hi) as Hf. simpl in Hf.
  destruct Hok as [(_ & _ & [[_ ?]|[-> _]])|(_ & ? & _)]; [congruence|done|congruence].
Qed.

Lemma work_nonneg (N kmax : Z) (cfg : System) :
  master_inv N kmax (mst cfg) → 0 ≤ work N cfg.
Proof. intros (? & ? & ? & ?). unfold work, budget. lia. Qed.

(** ** The generator as a sequence of draws *)

Lemma draws_length {Engine : Type} (distribution : Z → Z → Engine → Z * Engine)
    (n : nat) (g : Engine) :
  length (draws distribution n g) = n.
Proof.
  revert g. induction n as [|n IH]; intros g; simpl; [done|].
  destruct (distribution 0 10 g) as [x g']. simpl. by rewrite IH.
Qed.

Lemma draws_take {Engine : Type} (distribution : Z → Z → Engine → Z * Engine)
    (m n : nat) (g : Engine) :
  (m ≤ n)%nat → take m (draws distribution n g) = draws distribution m g.
Proof.
  revert n g. induction m as [|m IH]; intros n g Hmn; [done|].
  destruct n as [|n]; [lia|]. simpl.
  destruct (distribution 0 10 g) as [x g']. simpl. rewrite IH by lia. done.
Qed.

Lemma generate_draws {Engine : Type} (distribution : Z → Z → Engine → Z * Engine)
    (n k : nat) (data : list Z) (g : Engine) :
  (k + n ≤ length data)%nat →
  generate distribution (seqZ (Z.of_nat k) (Z.of_nat n)) data g
  = Some (take k data ++ draws distribution n g ++ drop (k + n) data).
Proof.
  revert k data g. induction n as [|n IH]; intros k data g Hlen.
  - simpl. by rewrite Nat.add_0_r, take_drop.
  - rewrite seqZ_cons by lia. simpl. destruct (distribution 0 10 g) as [x g'].
    unfold vec_write. rewrite bool_decide_eq_true_2 by lia. simpl.
    replace (Z.pred (Z.of_nat (S n))) with (Z.of_nat n) by lia.
    replace (Z.succ (Z.of_nat k)) with (Z.of_nat (S k)) by lia.
    rewrite Nat2Z.id, IH by (rewrite length_insert; lia).
    rewrite (take_S_r _ _ x) by (apply list_lookup_insert_eq; lia).
    rewrite take_insert_ge by lia. rewrite drop_insert_lt by lia.
    rewrite <- app_assoc. simpl. by replace (S (k + n)) with (k + S n)%nat by lia.
Qed.

Section Program_more.

Context {Engine : Type} (default_engine : Engine).
Context (distribution : Z → Z → Engine → Z * Engine).

(** Every message that [masterCode] sends carries an element of the input
    vector or the termination value. *)
Lemma masterCode_carries (N size : Z) (msgs : list (Z * Z)) (input : list Z) :
  inputDataGenerator default_engine distribution N = Some input →
  Forall (carries input) (sends_of (masterCode default_engine distribution N size msgs)).
Proof.
  intros Hin. unfold masterCode. rewrite Hin. case_bool_decide; [constructor|].
  destruct (startup N size input) as [[st tr]|] eqn:Hst; [|constructor].
  rewrite sends_of_emit by apply masterLoop_not_Throws.
  apply Forall_app. split; [by eapply startup_carries|apply masterLoop_carries].
Qed.

(** The offsets of the task messages of a complete run of [masterCode]. *)
Lemma masterCode_assigned (N size : Z) (msgs : list (Z * Z)) (st : Master) (tr : list Isend)
    (rest : list (Z * Z)) :
  2 ≤ size →
  masterCode default_engine distribution N size msgs = Exited st tr rest →
  assigned tr = seqZ 0 N
  ∧ Z.of_nat (length tr) = (size - 1) + N
  ∧ Z.of_nat (length msgs) = N + Z.of_nat (length rest).
Proof.
  intros Hsize Hrun.
  destruct (masterCode_Exited _ _ _ _ _ _ _ _ Hsize Hrun)
    as (input & st0 & tr1 & Hin & Hlen & Hst & Hminv & Hc & Hn & -> & Hloop).
  destruct (masterLoop_exited _ _ _ _ _ _ _ _ Hlen Hminv Hloop)
    as (consumed & -> & Hd & Ha & Hlc & _ & _).
  rewrite Hc in Ha. split; [|split].
  - rewrite assigned_app, assigned_startup, Ha by lia.
    rewrite <- seqZ_app by lia. f_equal. lia.
  - assert (length tr1 = length consumed) as Hl.
    { rewrite <- (length_fmap dest tr1), Hd. apply length_fmap. }
    rewrite length_app, length_fmap, length_seqZ, Hl. lia.
  - rewrite length_app. lia.
Qed.

(** X1 (the file of rank 0).  With at least one worker rank ([size ≥ 2]),
    when [masterCode] has left its loop, whatever arrived, [rank-0.dat] has
    [N] lines, and line [k] pairs the input [k] with the rank to which the
    message carrying that input was sent. *)
Theorem assignment_file (N size : Z) (msgs : list (Z * Z)) (st : Master) (tr : list Isend)
    (rest : list (Z * Z)) :
  2 ≤ size →
  masterCode default_engine distribution N size msgs = Exited st tr rest →
  ∃ input lines,
    inputDataGenerator default_engine distribution N = Some input
    ∧ master_file N input (inputIdx2proc st) = Some lines
    ∧ Z.of_nat (length lines) = N
    ∧ ∀ k, 0 ≤ k < N →
        ∃ m, m ∈ tr ∧ task_of m = Some k
             ∧ input !! Z.to_nat k = Some (payload m)
             ∧ lines !! Z.to_nat k = Some (payload m, dest m).
Proof.
  intros Hsize Hrun.
  destruct (masterCode_assigned _ _ _ _ _ _ Hsize Hrun) as (Hassigned & _ & _).
  destruct (masterCode_Exited _ _ _ _ _ _ _ _ Hsize Hrun)
    as (input & st0 & tr1 & Hin & Hlen & Hst & _ & _ & _ & Htr & Hloop).
  pose proof (masterCode_carries N size msgs input Hin) as Hcar.
  rewrite Hrun in Hcar. simpl in Hcar.
  assert (recorded (inputIdx2proc st) (counter st) tr
          ∧ length (inputIdx2proc st) = length input) as [Hrec Hli2p].
  { unfold startup in Hst.
    destruct (startup_loop input _ _ _) as [[st' tr0]|] eqn:Hl; simpl in Hst; [|done].
    injection Hst as Hst0 Htr0. subst st0.
    destruct (startup_loop_recorded _ _ _ _ _ _ [] Hl) as (Hrec0 & Hc0 & Hlen0);
      [done|by intros m c ?%elem_of_nil|].
    simpl in Hlen0. rewrite Htr, <- Htr0.
    apply (masterLoop_recorded input msgs _ st tr1 _ rest Hloop); simpl; [done| |done].
    rewrite Hlen0. unfold vec_make. rewrite length_replicate. lia. }
  set (line := λ k : Z, (input !!! Z.to_nat k, inputIdx2proc st !!! Z.to_nat k)).
  assert (master_file N input (inputIdx2proc st) = Some (line <$> seqZ 0 N)) as Hfile.
  { apply mapM_fmap_Some, Forall_forall. intros k Hk%elem_of_seqZ.
    destruct (vec_read_is_Some input k) as [x Hx]; [lia|].
    destruct (vec_read_is_Some (inputIdx2proc st) k) as [p Hp]; [lia|].
    rewrite Hx, Hp. simpl. apply vec_read_Some in Hx as [_ Hx].
    apply vec_read_Some in Hp as [_ Hp]. unfold line.
    by rewrite (list_lookup_total_correct _ _ _ Hx), (list_lookup_total_correct _ _ _ Hp). }
  exists input, (line <$> seqZ 0 N). split; [done|]. split; [done|].
  split; [rewrite length_fmap, length_seqZ; lia|].
  intros k Hk.
  assert (k ∈ assigned tr) as Hka by (rewrite Hassigned; apply elem_of_seqZ; lia).
  apply list_elem_of_omap in Hka as (m & Hm & Hmk).
  exists m. split; [done|]. split; [done|].
  destruct (Hrec m k Hm Hmk) as [_ Hdest].
  pose proof (proj1 (Forall_forall _ _) Hcar m Hm) as Hcm.
  unfold carries in Hcm. unfold task_of in Hmk. destruct (buf m) as [c|]; [|done].
  injection Hmk as ->. destruct Hcm as [_ Hpay]. split; [done|].
  rewrite list_lookup_fmap, lookup_seqZ_lt by lia. simpl. unfold line.
  replace (Z.to_nat (0 + Z.of_nat (Z.to_nat k))) with (Z.to_nat k) by lia.
  by rewrite (list_lookup_total_correct _ _ _ Hpay), (list_lookup_total_correct _ _ _ Hdest).
Qed.

(** X2 (number of messages).  A complete run of [masterCode] has sent
    [N + size - 1] messages, [N] of them task messages and [size - 1]
    termination messages, and has received exactly [N] results, whatever
    arrived. *)
Theorem message_count (N size : Z) (msgs : list (Z * Z)) (st : Master) (tr : list Isend)
    (rest : list (Z * Z)) :
  2 ≤ size →
  masterCode default_engine distribution N size msgs = Exited st tr rest →
  Z.of_nat (length tr) = N + (size - 1)
  ∧ Z.of_nat (length (filter (λ m, is_task m = true) tr)) = N
  ∧ Z.of_nat (length (filter (λ m, ¬ is_task m = true) tr)) = size - 1
  ∧ Z.of_nat (length msgs) - Z.of_nat (length rest) = N.
Proof.
  intros Hsize Hrun.
  destruct (masterCode_assigned _ _ _ _ _ _ Hsize Hrun) as (Hassigned & Hlen & Hmsgs).
  destruct (masterCode_Exited _ _ _ _ _ _ _ _ Hsize Hrun)
    as (input & _ & _ & Hin & HN & _).
  assert (Z.of_nat (length (filter (λ m, is_task m = true) tr)) = N) as Htasks.
  { rewrite <- assigned_length, Hassigned, length_seqZ. lia. }
  pose proof (filter_length_complement (λ m, is_task m = true) tr) as Hsum.
  split; [lia|]. split; [done|]. split; lia.
Qed.

(** X3 (dispatch cursor).  Whenever rank 0 waits for a result or has left
    its loop, the task messages it has sent so far carry exactly the offsets
    [0, ..., counter - 1], in this order, and [counter] lies between
    [min (size-1) N] and [N]: [counter] is the boundary between the inputs
    handed out and the inputs not yet handed out. *)
Theorem dispatch_cursor (N size : Z) (msgs : list (Z * Z)) (st : Master) (tr : list Isend) :
  1 ≤ size →
  final_state (masterCode default_engine distribution N size msgs) = Some (st, tr) →
  assigned tr = seqZ 0 (counter st)
  ∧ Z.min (size - 1) N ≤ counter st ≤ N
  ∧ 0 ≤ N_activeProc st.
Proof.
  intros Hsize. unfold masterCode.
  destruct (inputDataGenerator default_engine distribution N) as [input|] eqn:Hin; [|done].
  pose proof (inputDataGenerator_length _ _ _ _ Hin) as [HN Hlen].
  rewrite bool_decide_eq_false_2 by lia.
  destruct (startup_spec N size input Hlen Hsize) as (st0 & -> & Hc & Hn & _).
  intros (tr1 & Ho & ->)%final_state_emit.
  destruct (masterLoop_cursor _ _ _ _ _ Ho) as [Ha Hle]; [lia|].
  rewrite assigned_app, assigned_startup, Ha, Hc by lia.
  split; [|split; [lia|]].
  - rewrite <- seqZ_app by lia. f_equal. lia.
  - clear -Ho Hn Hsize HN. revert st0 tr1 Ho Hn.
    assert (∀ msgs st0 tr1, final_state (masterLoop input msgs st0) = Some (st, tr1) →
              0 ≤ N_activeProc st0 → 0 ≤ N_activeProc st) as Hgen.
    { induction msgs0 as [|[p y] msgs0 IH]; intros st0 tr1; simpl.
      - case_bool_decide; simpl; by intros [= <- <-].
      - case_bool_decide; [|simpl; by intros [= <- <-]].
        destruct (loop_body input p y st0) as [[st1 m]|] eqn:Hb; [|done].
        intros (tr2 & Ho & ->)%final_state_emit Hn. apply (IH _ _ Ho).
        apply loop_body_Some in Hb as (idx & _ & _ & _ & _ & Hcases).
        destruct Hcases as [(_ & _ & _ & -> & _)|(_ & _ & _ & -> & _)]; lia. }
    intros st0 tr1 Ho Hn. apply (Hgen msgs st0 tr1 Ho). lia.
Qed.

(** X5 (final comparison).  On vectors of at least [N] elements the
    comparison of lines 123-128 reports exactly the indices below [N], in
    increasing order, at which the output differs from the task function of
    the input; on a shorter vector it reads outside the vector. *)
Theorem check_errors_reports (N : Z) (input out : list Z) :
  0 ≤ N →
  (N ≤ Z.of_nat (length input) → N ≤ Z.of_nat (length out) →
   check_errors N input out
   = Some (filter (λ k, func_cheap (input !!! Z.to_nat k) ≠ out !!! Z.to_nat k) (seqZ 0 N)))
  ∧ (Z.of_nat (length input) < N ∨ Z.of_nat (length out) < N →
     check_errors N input out = None).
Proof.
  intros HN. split.
  - intros Hin Hout. unfold check_errors.
    pose proof (check_errors_fold input out (Z.to_nat N) 0) as Hfold.
    rewrite Z2Nat.id in Hfold by lia. apply Hfold; lia.
  - intros Hshort. unfold check_errors.
    assert (∀ l, Exists (λ k, vec_read input k = None ∨ vec_read out k = None) l →
              foldr (λ k acc,
                       x ← vec_read input k; o ← vec_read out k; rest ← acc;
                       Some (if bool_decide (func_cheap x - o ≠ 0) then k :: rest else rest))
                    (Some []) l = None) as Hnone.
    { induction l as [|k l IH]; intros Hex; [by apply Exists_nil in Hex|].
      cbn [foldr]. apply Exists_cons in Hex as [[Hk|Hk]|Hex].
      - by rewrite Hk.
      - rewrite Hk. by destruct (vec_read input k).
      - rewrite (IH Hex). destruct (vec_read input k); [|done]. simpl.
        by destruct (vec_read out k). }
    apply Hnone. apply Exists_exists.
    assert (∀ v : list Z, vec_read v (Z.of_nat (length v)) = None) as Hend.
    { intros v. unfold vec_read. rewrite bool_decide_eq_true_2 by lia.
      apply lookup_ge_None. lia. }
    destruct Hshort as [Hs|Hs].
    + exists (Z.of_nat (length input)). split; [apply elem_of_seqZ; lia|]. left. apply Hend.
    + exists (Z.of_nat (length out)). split; [apply elem_of_seqZ; lia|]. right. apply Hend.
Qed.

(** The contract of [std::uniform_int_distribution<int>(a, b)]. *)
Hypothesis distribution_range :
  ∀ (a b : Z) (g : Engine), a ≤ b → a ≤ (distribution a b g).1 ≤ b.

(** X6 (no workers).  Called with fewer than two ranks, [masterCode] sends
    nothing and receives nothing, leaves every output at its initial value 0,
    and its final comparison reports every index as an error: this is the
    case that [main] excludes with its test [mpiSize < 2]. *)
Theorem no_workers (N size : Z) (msgs : list (Z * Z)) :
  0 ≤ N → 0 ≤ size ≤ 1 →
  ∃ input st,
    inputDataGenerator default_engine distribution N = Some input
    ∧ masterCode default_engine distribution N size msgs = Exited st [] msgs
    ∧ counter st = 0
    ∧ output st = replicate (Z.to_nat N) 0
    ∧ check_errors N input (output st) = Some (seqZ 0 N).
Proof.
  intros HN Hsize.
  destruct (inputDataGenerator_total default_engine distribution N HN) as (input & Hin & Hlen).
  pose proof (inputDataGenerator_range _ _ distribution_range _ _ Hin) as Hrange.
  set (st := mkMaster 0 (vec_make (Z.of_nat (length input))) (vec_make N) (vec_make size) 0).
  exists input, st. split; [done|].
  assert (startup N size input = Some (st, [])) as Hst.
  { unfold startup. replace (seqZ 1 (size - 1)) with (@nil Z); [done|].
    unfold seqZ. by replace (Z.to_nat (size - 1)) with 0%nat by lia. }
  assert (masterLoop input msgs st = Exited st [] msgs) as Hloop.
  { destruct msgs as [|[p y] msgs]; done. }
  split; [|split; [done|split]].
  - unfold masterCode. rewrite Hin, bool_decide_eq_false_2, Hst, Hloop by lia. done.
  - simpl. unfold vec_make. by rewrite Hlen.
  - unfold check_errors.
    pose proof (check_errors_fold input (output st) (Z.to_nat N) 0) as Hfold.
    rewrite Z2Nat.id in Hfold by lia. rewrite Hfold.
    + apply f_equal, filter_all, Forall_forall. intros k Hk%elem_of_seqZ.
      assert (input !! Z.to_nat k = Some (input !!! Z.to_nat k)) as Hx
        by (apply list_lookup_lookup_total_lt; lia).
      pose proof (Forall_lookup_1 _ _ _ _ Hrange Hx) as Hr. simpl in Hr.
      simpl. unfold vec_make. rewrite lookup_total_replicate_2 by lia.
      unfold func_cheap. rewrite int_wrap_id by (unfold INT_MIN, INT_MAX; lia). lia.
    + lia.
    + lia.
    + simpl. rewrite vec_make_length. lia.
Qed.

(** What [inputIdx2proc] holds when [masterCode] has left its loop. *)
Lemma masterCode_recorded (N size : Z) (msgs : list (Z * Z)) (st : Master)
    (tr : list Isend) (rest : list (Z * Z)) (input : list Z) :
  inputDataGenerator default_engine distribution N = Some input →
  masterCode default_engine distribution N size msgs = Exited st tr rest →
  recorded (inputIdx2proc st) (counter st) tr.
Proof.
  intros Hin. unfold masterCode. rewrite Hin.
  pose proof (inputDataGenerator_length _ _ _ _ Hin) as [HN Hlen].
  case_bool_decide; [done|].
  destruct (startup N size input) as [[st0 tr0]|] eqn:Hst; [|done].
  intros (tr1 & Hloop & ->)%emit_Exited.
  unfold startup in Hst.
  destruct (startup_loop input _ _ _) as [[st' tr0']|] eqn:Hl; simpl in Hst; [|done].
  injection Hst as <- <-.
  destruct (startup_loop_recorded _ _ _ _ _ _ [] Hl) as (Hrec0 & Hc0 & Hlen0);
    [done|by intros m c ?%elem_of_nil|].
  simpl in Hlen0.
  apply (masterLoop_recorded input msgs _ st tr1 _ rest Hloop); simpl; [done| |done].
  rewrite Hlen0. unfold vec_make. rewrite length_replicate. lia.
Qed.

(** The first configuration of the program satisfies the invariants on the
    channels as well. *)
Lemma program_init_more (N size : Z) :
  0 ≤ N → 2 ≤ size →
  ∃ input st tr,
    program_init default_engine distribution N size = Some (input, sys_init size st tr)
    ∧ inputDataGenerator default_engine distribution N = Some input
    ∧ Z.of_nat (length input) = N
    ∧ Forall (λ x, 0 ≤ x) input
    ∧ startup N size input = Some (st, tr)
    ∧ sys_inv input size (sys_init size st tr)
    ∧ chan_inv size (sys_init size st tr)
    ∧ sent_inv size (sys_init size st tr).
Proof.
  intros HN Hsize.
  destruct (program_init_spec default_engine distribution distribution_range N size HN Hsize)
    as (input & st & tr & Hinit & Hin & Hlen & Hrange & Hst & Hinv & _).
  pose proof (nonneg_of_range _ Hrange) as Hnn.
  exists input, st, tr. split_and!; try done.
  - by eapply chan_inv_init.
  - by eapply sent_inv_init.
Qed.

(** X7 (life of a worker).  At every point of every execution, what a worker
    has received and what is still on its way to it are together what rank 0
    has sent to it, and its file lists, in order, the non-negative values it
    has received.  In the final configuration every worker has received some
    inputs followed by the termination value, which was sent to it once and
    last; its file lists exactly those inputs and its channels are empty. *)
Theorem worker_lifecycle (N size : Z) :
  0 ≤ N → 2 ≤ size →
  ∃ input cfg0,
    program_init default_engine distribution N size = Some (input, cfg0)
    ∧ ∀ sched cfg, sys_exec input sched cfg0 = Some cfg →
        ∀ r s, slave_at r (slaves cfg) = Some s →
          received s ++ inbox s = payloads_to r (log cfg)
          ∧ file s = (λ x, (x, r)) <$> filter (λ x, 0 ≤ x) (received s)
          ∧ (sys_final cfg →
               ∃ tasks, Forall (λ x, 0 ≤ x) tasks
                        ∧ received s = tasks ++ [errValue]
                        ∧ file s = (λ x, (x, r)) <$> tasks
                        ∧ inbox s = [] ∧ outbox s = []).
Proof.
  intros HN Hsize.
  destruct (program_init_more N size HN Hsize)
    as (input & st0 & tr0 & Hinit & Hin & Hlen & Hnn & Hst & Hinv0 & Hchan0 & Hsent0).
  exists input, (sys_init size st0 tr0). split; [done|].
  intros sched cfg Hexec r s Hs.
  destruct (sys_exec_more_inv _ _ _ _ _ Hnn Hinv0 Hchan0 Hsent0 Hexec)
    as (Hinv & [_ Hchan] & Hsent).
  destruct (Hchan r s Hs) as [Hc Hf]. split; [done|]. split; [done|].
  intros [Hexit Hfin].
  pose proof (sys_inv_slave_at _ _ _ _ _ Hinv Hs) as Hr.
  destruct (sys_inv_exit _ _ _ Hinv Hsize Hexit) as (_ & _ & Hall & _).
  destruct (Hsent r Hr) as (slot & tasks & Hslot & Htasks & Hpay).
  rewrite (Hall r Hr) in Hslot. injection Hslot as <-. rewrite decide_True in Hpay by done.
  destruct (inv_slots _ _ _ Hinv r Hr) as (slot & s' & _ & Hs' & Hok).
  rewrite Hs in Hs'. injection Hs' as <-.
  pose proof (Forall_lookup_1 _ _ _ _ Hfin (proj2 (proj1 (slave_at_Some _ _ _) Hs))) as Hf'.
  simpl in Hf'.
  assert (inbox s = [] ∧ outbox s = []) as [Hinb Hout].
  { destruct Hok as [(_ & ? & [[_ ?]|[? _]])|(_ & ? & _)]; split; congruence. }
  rewrite Hinb, app_nil_r, Hpay in Hc.
  exists tasks. split; [done|]. split; [done|]. split; [|done].
  rewrite Hf, Hc, filter_app, filter_all by done.
  rewrite filter_cons_False by (unfold errValue; lia). by rewrite app_nil_r.
Qed.

(** X8 (one task per worker).  At every point of every execution a worker
    has at most one message pending, an input on its way to it or its result
    on its way to rank 0, never both and never two; a worker whose table entry
    is the marker has nothing on its way to rank 0; and two workers never hold
    the same input. *)
Theorem one_task_per_worker (N size : Z) :
  0 ≤ N → 2 ≤ size →
  ∃ input cfg0,
    program_init default_engine distribution N size = Some (input, cfg0)
    ∧ ∀ sched cfg, sys_exec input sched cfg0 = Some cfg →
        (∀ r s, slave_at r (slaves cfg) = Some s →
           (length (inbox s) + length (outbox s) ≤ 1)%nat
           ∧ (proc2inputIdx (mst cfg) !! Z.to_nat r = Some (-1) → outbox s = []))
        ∧ (∀ r r' slot, 1 ≤ r < size → 1 ≤ r' < size → slot ≠ -1 →
             proc2inputIdx (mst cfg) !! Z.to_nat r = Some slot →
             proc2inputIdx (mst cfg) !! Z.to_nat r' = Some slot → r = r').
Proof.
  intros HN Hsize.
  destruct (program_init_more N size HN Hsize)
    as (input & st0 & tr0 & Hinit & Hin & Hlen & Hnn & Hst & Hinv0 & _).
  exists input, (sys_init size st0 tr0). split; [done|].
  intros sched cfg Hexec.
  pose proof (sys_exec_inv _ _ _ _ _ Hnn Hinv0 Hexec) as Hinv.
  split; [|apply (inv_distinct _ _ _ Hinv)].
  intros r s Hs. pose proof (sys_inv_slave_at _ _ _ _ _ Hinv Hs) as Hr.
  destruct (inv_slots _ _ _ Hinv r Hr) as (slot & s' & Hslot & Hs' & Hok).
  rewrite Hs in Hs'. injection Hs' as <-. rewrite Hslot.
  destruct Hok as [(-> & Ho & [[Hi _]|[Hi _]])|(Hsl & _ & x & _ & [[Hi Ho]|[Hi Ho]])];
    rewrite Hi, Ho; simpl; (split; [lia|]); try done; intros [= ?]; lia.
Qed.

(** X9 (no access outside a vector).  At every point of every execution,
    a result on its way to rank 0 can be received: the pass of the loop that
    receives it stays inside all vectors, the result is the task function of
    the input remembered for its sender, and it is stored at the index of that
    input. *)
Theorem receive_is_safe (N size : Z) :
  0 ≤ N → 2 ≤ size →
  ∃ input cfg0,
    program_init default_engine distribution N size = Some (input, cfg0)
    ∧ ∀ sched cfg r s y out,
        sys_exec input sched cfg0 = Some cfg →
        slave_at r (slaves cfg) = Some s → outbox s = y :: out →
        ∃ slot x st' m,
          proc2inputIdx (mst cfg) !! Z.to_nat r = Some slot
          ∧ input !! Z.to_nat slot = Some x
          ∧ y = func_expensive x
          ∧ 0 < N_activeProc (mst cfg)
          ∧ loop_body input r y (mst cfg) = Some (st', m)
          ∧ output st' !! Z.to_nat slot = Some (func_cheap x)
          ∧ is_Some (sys_step input (master_recv r) cfg).
Proof.
  intros HN Hsize.
  destruct (program_init_more N size HN Hsize)
    as (input & st0 & tr0 & Hinit & Hin & Hlen & Hnn & Hst & Hinv0 & _).
  exists input, (sys_init size st0 tr0). split; [done|].
  intros sched cfg r s y out Hexec Hs Hout.
  pose proof (sys_exec_inv _ _ _ _ _ Hnn Hinv0 Hexec) as Hinv.
  destruct (sys_inv_outbox _ _ _ _ _ _ _ Hinv Hs Hout)
    as (Hr & slot & x & Hslot & Hsl & Hx & -> & -> & Hinb & Hfin).
  pose proof (inv_output _ _ _ Hinv) as Holen.
  pose proof (inv_counter _ _ _ Hinv) as Hcnt.
  assert (0 < N_activeProc (mst cfg)) as Hpos.
  { rewrite (inv_active _ _ _ Hinv). apply (active_count_pos _ r slot); [lia|done|lia]. }
  destruct (loop_body_defined input r (func_expensive x) slot (mst cfg)) as [[st' m] Hb];
    [lia|done|lia|lia|apply (inv_i2p _ _ _ Hinv)|].
  exists slot, x, st', m. split_and!; try done.
  - pose proof (loop_body_Some _ _ _ _ _ _ Hb) as (idx & Hidx & _ & _ & -> & _).
    apply vec_read_Some in Hidx as [_ Hidx]. rewrite Hslot in Hidx. injection Hidx as <-.
    apply list_lookup_insert_eq. lia.
  - simpl. rewrite bool_decide_eq_true_2 by done. rewrite Hs. simpl. rewrite Hout, Hb. simpl.
    unfold deliver. rewrite (loop_body_dest _ _ _ _ _ _ Hb).
    erewrite slave_at_put_eq by done. simpl. by eexists.
Qed.

(** X10 (the files agree).  In the final configuration of every execution,
    each line [k] of [rank-0.dat], the input [k] and the rank it was given
    to, is found as a line of the file of that rank; and every line of the
    file of a worker pairs the rank of that worker with an input that
    [inputIdx2proc] attributes to it. *)
Theorem files_agree (N size : Z) :
  0 ≤ N → 2 ≤ size →
  ∃ input cfg0,
    program_init default_engine distribution N size = Some (input, cfg0)
    ∧ ∀ sched cfg, sys_exec input sched cfg0 = Some cfg → sys_final cfg →
        (∀ k, 0 ≤ k < N →
           ∃ x r s, input !! Z.to_nat k = Some x
                    ∧ inputIdx2proc (mst cfg) !! Z.to_nat k = Some r
                    ∧ slave_at r (slaves cfg) = Some s
                    ∧ (x, r) ∈ file s)
        ∧ (∀ r s x r', slave_at r (slaves cfg) = Some s → (x, r') ∈ file s →
             r' = r
             ∧ ∃ k, input !! k = Some x ∧ inputIdx2proc (mst cfg) !! k = Some r).
Proof.
  intros HN Hsize.
  destruct (program_init_more N size HN Hsize)
    as (input & st0 & tr0 & Hinit & Hin & Hlen & Hnn & Hst & Hinv0 & Hchan0 & Hsent0).
  exists input, (sys_init size st0 tr0). split; [done|].
  intros sched cfg Hexec [Hexit Hfin].
  destruct (sys_exec_more_inv _ _ _ _ _ Hnn Hinv0 Hchan0 Hsent0 Hexec)
    as (Hinv & [Hdest Hchan] & _).
  pose proof (masterCode_of_exec default_engine distribution N size input st0 tr0 sched cfg
                Hin ltac:(lia) Hst Hexec Hexit) as Hrun.
  pose proof (masterCode_recorded _ _ _ _ _ _ _ Hin Hrun) as Hrec.
  destruct (masterCode_assigned _ _ _ _ _ _ Hsize Hrun) as (Hassigned & _ & _).
  pose proof (masterCode_carries N size (arrivals input sched (sys_init size st0 tr0)) input Hin)
    as Hcar.
  rewrite Hrun in Hcar. simpl in Hcar.
  assert (∀ r s, slave_at r (slaves cfg) = Some s → inbox s = []) as Hempty.
  { intros r s Hs. pose proof (sys_inv_slave_at _ _ _ _ _ Hinv Hs) as Hr.
    pose proof (Forall_lookup_1 _ _ _ _ Hfin (proj2 (proj1 (slave_at_Some _ _ _) Hs))) as Hf'.
    simpl in Hf'.
    destruct (inv_slots _ _ _ Hinv r Hr) as (slot & s' & _ & Hs' & Hok).
    rewrite Hs in Hs'. injection Hs' as <-.
    destruct Hok as [(_ & _ & [[_ ?]|[? _]])|(_ & ? & _)]; congruence. }
  split.
  - intros k Hk.
    assert (k ∈ assigned (log cfg)) as Hka by (rewrite Hassigned; apply elem_of_seqZ; lia).
    apply list_elem_of_omap in Hka as (m & Hm & Hmk).
    destruct (Hrec m k Hm Hmk) as [_ Hi2p].
    pose proof (proj1 (Forall_forall _ _) Hcar m Hm) as Hcm.
    pose proof (proj1 (Forall_forall _ _) Hdest m Hm) as Hdm. simpl in Hdm.
    unfold carries in Hcm. unfold task_of in Hmk. destruct (buf m) as [c|] eqn:Hbuf; [|done].
    injection Hmk as ->. destruct Hcm as [_ Hpay].
    destruct (slave_at_is_Some (dest m) (slaves cfg)) as [s Hs].
    { pose proof (inv_slaves _ _ _ Hinv). lia. }
    exists (payload m), (dest m), s. split_and!; try done.
    destruct (Hchan _ _ Hs) as [Hc ->]. rewrite (Hempty _ _ Hs), app_nil_r in Hc.
    apply list_elem_of_fmap. exists (payload m). split; [done|].
    apply list_elem_of_filter. split; [by apply (Forall_lookup_1 _ _ _ _ Hnn Hpay)|].
    rewrite Hc. unfold payloads_to. apply list_elem_of_fmap. exists m. split; [done|].
    by apply list_elem_of_filter.
  - intros r s x r' Hs Hline.
    destruct (Hchan _ _ Hs) as [Hc Hf]. rewrite (Hempty _ _ Hs), app_nil_r in Hc.
    rewrite Hf in Hline. apply list_elem_of_fmap in Hline as (x' & [= -> ->] & Hx').
    apply list_elem_of_filter in Hx' as [Hx0 Hx']. rewrite Hc in Hx'.
    unfold payloads_to in Hx'. apply list_elem_of_fmap in Hx' as (m & -> & Hm).
    apply list_elem_of_filter in Hm as [Hd Hm]. split; [done|].
    pose proof (proj1 (Forall_forall _ _) Hcar m Hm) as Hcm. unfold carries in Hcm.
    destruct (buf m) as [c|] eqn:Hbuf; [|unfold errValue in Hcm; lia].
    destruct Hcm as [Hc0 Hpay].
    destruct (Hrec m c Hm) as [_ Hi2p]; [unfold task_of; by rewrite Hbuf|].
    exists (Z.to_nat c). split; [done|]. by rewrite Hi2p, Hd.
Qed.

(** X11 (workers stay busy).  As long as inputs remain to be handed out, no
    worker has been told to stop: at every point of every execution at which
    [counter < N], every worker holds an input, [N_activeProc] is the number
    of workers, and no termination message has been sent at all. *)
Theorem workers_stay_busy (N size : Z) :
  0 ≤ N → 2 ≤ size →
  ∃ input cfg0,
    program_init default_engine distribution N size = Some (input, cfg0)
    ∧ ∀ sched cfg, sys_exec input sched cfg0 = Some cfg →
        counter (mst cfg) < N →
        N_activeProc (mst cfg) = size - 1
        ∧ (∀ r, 1 ≤ r < size →
             ∃ slot, proc2inputIdx (mst cfg) !! Z.to_nat r = Some slot
                     ∧ 0 ≤ slot < counter (mst cfg)
                     ∧ term_count r (log cfg) = 0).
Proof.
  intros HN Hsize.
  destruct (program_init_spec default_engine distribution distribution_range N size HN Hsize)
    as (input & st0 & tr0 & Hinit & Hin & Hlen & Hrange & Hst & Hinv0 & Hminv0 & _).
  pose proof (nonneg_of_range _ Hrange) as Hnn.
  exists input, (sys_init size st0 tr0). split; [done|].
  intros sched cfg Hexec Hlt.
  pose proof (sys_exec_inv _ _ _ _ _ Hnn Hinv0 Hexec) as Hinv.
  destruct (sys_exec_budget input N _ sched (sys_init size st0 tr0) cfg Hlen Hminv0 Hexec)
    as [(Hk & Hc & Hn & Hact) _].
  destruct (term_inv_init _ _ _ _ _ Hlen Hsize Hst) as [Hterm0 _].
  pose proof (term_inv_exec _ _ _ _ _ Hnn Hinv0 Hterm0 Hexec) as Hterm.
  split; [destruct (Hact Hlt); lia|].
  intros r Hr. destruct (Hterm r Hr) as (slot & Hslot & Hcount).
  destruct (inv_slots _ _ _ Hinv r Hr) as (slot' & s & Hslot' & _ & Hok).
  rewrite Hslot in Hslot'. injection Hslot' as <-.
  assert (slot ≠ -1) as Hne.
  { intros ->. apply (inv_all_active _ _ _ Hinv ltac:(lia) r Hr Hslot). }
  exists slot. split; [done|]. rewrite decide_False in Hcount by done. split; [|done].
  destruct Hok as [(? & _)|(? & _)]; [done|lia].
Qed.

(** X12 (number of steps).  Every execution that reaches the final
    configuration has exactly [2 N + size - 1] steps, whatever the schedule:
    [N] passes of rank 0 through its loop and one step of a worker for each
    of the [N + size - 1] messages sent to the workers; no execution is
    longer. *)
Theorem step_count (N size : Z) :
  0 ≤ N → 2 ≤ size →
  ∃ input cfg0,
    program_init default_engine distribution N size = Some (input, cfg0)
    ∧ ∀ sched cfg, sys_exec input sched cfg0 = Some cfg →
        Z.of_nat (length sched) ≤ 2 * N + (size - 1)
        ∧ (sys_final cfg →
             Z.of_nat (length sched) = 2 * N + (size - 1)
             ∧ receives sched = N
             ∧ Z.of_nat (length (log cfg)) = N + (size - 1)).
Proof.
  intros HN Hsize.
  destruct (program_init_spec default_engine distribution distribution_range N size HN Hsize)
    as (input & st0 & tr0 & Hinit & Hin & Hlen & Hrange & Hst & Hinv0 & Hminv0 & Hc0 & Hn0 & _).
  pose proof (nonneg_of_range _ Hrange) as Hnn.
  exists input, (sys_init size st0 tr0). split; [done|].
  intros sched cfg Hexec.
  pose proof (sys_exec_inv _ _ _ _ _ Hnn Hinv0 Hexec) as Hinv.
  destruct (sys_exec_budget input N _ sched (sys_init size st0 tr0) cfg Hlen Hminv0 Hexec)
    as [Hminv Hrec].
  pose proof (sys_exec_work _ N _ _ _ Hexec) as Hwork.
  rewrite (work_init _ _ _ _ _ Hlen Hsize Hst) in Hwork.
  pose proof (work_nonneg _ _ _ Hminv) as Hwnn.
  split; [lia|]. intros Hfinal.
  rewrite (work_final _ _ _ _ Hlen Hsize Hinv Hfinal) in Hwork.
  destruct Hfinal as [Hexit _].
  destruct (sys_inv_exit _ _ _ Hinv Hsize Hexit) as (Hn & Hc & _).
  split; [lia|]. split.
  - rewrite Hrec. unfold budget. cbn [sys_init mst]. lia.
  - pose proof (masterCode_of_exec default_engine distribution N size input st0 tr0 sched cfg
                  Hin ltac:(lia) Hst Hexec Hexit) as Hrun.
    destruct (masterCode_assigned _ _ _ _ _ _ Hsize Hrun) as (_ & Hl & _). lia.
Qed.

(** X13 (generated inputs).  For [N ≥ 0] the generator returns the first
    [N] numbers drawn from the default-constructed engine, in the order of
    the draws: every element of the vector is written exactly once, at its
    own index.  Hence the inputs for a smaller problem size are a prefix of
    the inputs for a larger one. *)
Theorem generator_prefix (N : Z) :
  0 ≤ N →
  ∃ input,
    inputDataGenerator default_engine distribution N = Some input
    ∧ input = draws distribution (Z.to_nat N) default_engine
    ∧ ∀ M, 0 ≤ M ≤ N →
        inputDataGenerator default_engine distribution M = Some (take (Z.to_nat M) input).
Proof.
  assert (∀ M, 0 ≤ M →
            inputDataGenerator default_engine distribution M
            = Some (draws distribution (Z.to_nat M) default_engine)) as Hgen.
  { intros M HM. unfold inputDataGenerator. rewrite bool_decide_eq_false_2 by lia.
    pose proof (generate_draws distribution (Z.to_nat M) 0 (vec_make M) default_engine) as Hg.
    rewrite Z2Nat.id in Hg by done. change (Z.of_nat 0) with 0 in Hg.
    rewrite Hg by (unfold vec_make; rewrite length_replicate; lia).
    rewrite drop_ge by (unfold vec_make; rewrite length_replicate; lia).
    by rewrite app_nil_r. }
  intros HN. eexists. split; [by apply Hgen|]. split; [done|].
  intros M HM. rewrite Hgen by lia. by rewrite draws_take by lia.
Qed.

(** X14 ([main]).  With fewer than two processes no rank runs [masterCode]
    or [slaveCode].  With two or more, rank 0 runs [masterCode] on 21 inputs
    and every other rank runs [slaveCode].  No execution of that program
    has more than [41 + mpiSize] steps, none gets stuck before the final
    configuration, and every execution can be continued to the final
    configuration; an execution that has reached it has exactly
    [41 + mpiSize] steps, and rank 0 then finds no error. *)
Theorem main_run (mpiSize : Z) :
  (mpiSize < 2 →
     (∀ mpiRank, main mpiRank mpiSize = size_message)
     ∧ main_system default_engine distribution mpiSize = None)
  ∧ (2 ≤ mpiSize →
       main 0 mpiSize = run_masterCode 21 mpiSize
       ∧ (∀ mpiRank, mpiRank ≠ 0 → main mpiRank mpiSize = run_slaveCode mpiRank)
       ∧ ∃ input cfg0,
           main_system default_engine distribution mpiSize = Some (input, cfg0)
           ∧ length input = 21%nat
           ∧ length (slaves cfg0) = Z.to_nat (mpiSize - 1)
           ∧ ∀ sched cfg, sys_exec input sched cfg0 = Some cfg →
               (sys_final cfg ∨ ∃ a cfg', sys_step input a cfg = Some cfg')
               ∧ (sys_final cfg →
                    Z.of_nat (length sched) = 41 + mpiSize
                    ∧ check_errors 21 input (output (mst cfg)) = Some [])
               ∧ Z.of_nat (length sched) ≤ 41 + mpiSize
               ∧ ∃ sched' cfg',
                   sys_exec input (sched ++ sched') cfg0 = Some cfg'
                   ∧ sys_final cfg').
Proof.
  split.
  - intros Hsize. split.
    + intros mpiRank. unfold main. by rewrite bool_decide_eq_true_2 by done.
    + unfold main_system, main. by rewrite bool_decide_eq_true_2 by done.
  - intros Hsize. split; [|split].
    + unfold main. by rewrite bool_decide_eq_false_2 by lia.
    + intros mpiRank Hrank. unfold main. rewrite bool_decide_eq_false_2 by lia.
      by rewrite bool_decide_eq_false_2 by done.
    + destruct (program_init_spec default_engine distribution distribution_range 21 mpiSize
                  ltac:(lia) Hsize)
        as (input & st0 & tr0 & Hinit & Hin & Hlen & Hrange & Hst & Hinv0 & Hminv0 & _).
      pose proof (nonneg_of_range _ Hrange) as Hnn.
      exists input, (sys_init mpiSize st0 tr0). split; [|split; [lia|split]].
      * unfold main_system, main. by rewrite bool_decide_eq_false_2 by lia.
      * pose proof (inv_slaves _ _ _ Hinv0). lia.
      * intros sched cfg Hexec.
        pose proof (sys_exec_inv _ _ _ _ _ Hnn Hinv0 Hexec) as Hinv.
        destruct (sys_exec_budget input 21 _ sched (sys_init mpiSize st0 tr0) cfg
                    Hlen Hminv0 Hexec) as [Hminv _].
        pose proof (sys_exec_work _ 21 _ _ _ Hexec) as Hwork.
        rewrite (work_init _ _ _ _ _ Hlen Hsize Hst) in Hwork.
        split; [by apply (sys_progress input mpiSize)|]. split; [|split].
        -- intros Hfinal.
           rewrite (work_final _ _ _ _ Hlen Hsize Hinv Hfinal) in Hwork.
           split; [lia|]. destruct Hfinal as [Hexit _].
           destruct (sys_inv_exit _ _ _ Hinv Hsize Hexit) as (_ & _ & _ & Hout).
           assert (output (mst cfg) = func_expensive <$> input) as ->;
             [|by apply check_errors_ok].
           apply list_eq. intros i. rewrite list_lookup_fmap.
           destruct (input !! i) as [x|] eqn:Hx; simpl; [by apply Hout|].
           apply lookup_ge_None. rewrite (inv_output _ _ _ Hinv). by apply lookup_ge_None.
        -- pose proof (work_nonneg _ _ _ Hminv). lia.
        -- destruct (sys_completes input 21 _ mpiSize (Z.to_nat (measure 21 cfg)) cfg
                       Hnn Hlen Hinv Hminv) as (sched' & cfg' & Hexec' & Hfinal); [lia|].
           exists sched', cfg'. by rewrite sys_exec_app, Hexec.
Qed.

End Program_more.

(** * Further properties of [Quadrature::trapezoidal] *)

(** X15 (negative [n]).  For [n ≤ -2] the loop is not entered: the function
    returns [0 * dx] without evaluating the integrand.  For [n = -1] the loop
    is passed once, with the half weight, and [dx] is the quotient of
    [b - a] by zero. *)
Theorem trapezoidal_negative {D : Type} (fadd fsub fmul fdiv : D → D → D) (of_int : Z → D)
    (half : D) (func : D → D) (fuel : nat) (a b : D) (n : Z) :
  INT_MIN ≤ n ≤ -1 →
  let dx := fdiv (fsub b a) (of_int (n + 1)) in
  (n ≤ -2 →
     trapezoidal fadd fsub fmul fdiv of_int half func fuel a b n
     = Some (fmul (of_int 0) dx))
  ∧ (n = -1 →
       trapezoidal fadd fsub fmul fdiv of_int half func (S fuel) a b n
       = Some (fmul (fadd (of_int 0) (fmul half (func (fadd a (fmul (of_int 0) dx))))) dx)).
Proof.
  intros Hn dx. unfold trapezoidal.
  rewrite (int_wrap_id (n + 1)) by (unfold INT_MIN, INT_MAX in *; lia). fold dx. split.
  - intros Hlt. rewrite trapezoidal_loop_skipped; [done|].
    rewrite int_wrap_id by (unfold INT_MIN, INT_MAX in *; lia). lia.
  - intros ->. cbn [trapezoidal_loop].
    rewrite bool_decide_eq_true_2 by (by vm_compute).
    rewrite bool_decide_eq_true_2 by (by left).
    rewrite trapezoidal_loop_skipped by (by vm_compute). done.
Qed.

(** * Instances of the further properties *)

(** Three inputs on three ranks, the results arriving from ranks 1, 2, 1. *)
Lemma assignment_file_witness :
  2 ≤ 3
  ∧ ∃ st tr,
      masterCode 1 lcg_distribution 3 3 [(1, 11); (2, 2); (1, 1)] = Exited st tr []
      ∧ ∃ input lines,
          inputDataGenerator 1 lcg_distribution 3 = Some input
          ∧ master_file 3 input (inputIdx2proc st) = Some lines
          ∧ Z.of_nat (length lines) = 3
          ∧ ∀ k, 0 ≤ k < 3 →
              ∃ m, m ∈ tr ∧ task_of m = Some k
                   ∧ input !! Z.to_nat k = Some (payload m)
                   ∧ lines !! Z.to_nat k = Some (payload m, dest m).
Proof.
  split; [lia|]. eexists _, _. split; [vm_compute; reflexivity|].
  apply (assignment_file 1 lcg_distribution 3 3 [(1, 11); (2, 2); (1, 1)] _ _ []);
    [lia|vm_compute; reflexivity].
Defined.

Lemma message_count_witness :
  2 ≤ 3
  ∧ ∃ st tr,
      masterCode 1 lcg_distribution 3 3 [(1, 11); (2, 2); (1, 1)] = Exited st tr []
      ∧ Z.of_nat (length tr) = 3 + (3 - 1).
Proof.
  split; [lia|]. eexists _, _. split; [vm_compute; reflexivity|].
  refine (proj1 (message_count 1 lcg_distribution 3 3 [(1, 11); (2, 2); (1, 1)] _ _ [] _ _));
    [lia|vm_compute; reflexivity].
Defined.

(** The same run when only the first result has arrived. *)
Lemma dispatch_cursor_witness :
  1 ≤ 3
  ∧ ∃ st tr,
      final_state (masterCode 1 lcg_distribution 3 3 [(1, 11)]) = Some (st, tr)
      ∧ assigned tr = seqZ 0 (counter st).
Proof.
  split; [lia|]. eexists _, _. split; [vm_compute; reflexivity|].
  refine (proj1 (dispatch_cursor 1 lcg_distribution 3 3 [(1, 11)] _ _ _ _));
    [lia|vm_compute; reflexivity].
Defined.

(** An output vector that is wrong at index 1. *)
Lemma check_errors_reports_witness :
  0 ≤ 3 ∧ check_errors 3 [10; 1; 0] [11; 0; 1] = Some [1].
Proof.
  split; [lia|].
  refine (proj1 (check_errors_reports 3 [10; 1; 0] [11; 0; 1] _) _ _); simpl; lia.
Defined.

Lemma no_workers_witness :
  0 ≤ 3 ∧ 0 ≤ 1 ≤ 1
  ∧ ∃ input st,
      inputDataGenerator 1 lcg_distribution 3 = Some input
      ∧ masterCode 1 lcg_distribution 3 1 [] = Exited st [] []
      ∧ counter st = 0
      ∧ output st = replicate (Z.to_nat 3) 0
      ∧ check_errors 3 input (output st) = Some (seqZ 0 3).
Proof.
  split; [lia|]. split; [lia|].
  apply (no_workers 1 lcg_distribution lcg_distribution_range 3 1 []); lia.
Defined.

Lemma worker_lifecycle_witness :
  0 ≤ 3 ∧ 2 ≤ 3
  ∧ ∃ input cfg0,
      program_init 1 lcg_distribution 3 3 = Some (input, cfg0)
      ∧ ∀ sched cfg, sys_exec input sched cfg0 = Some cfg →
          ∀ r s, slave_at r (slaves cfg) = Some s →
            received s ++ inbox s = payloads_to r (log cfg).
Proof.
  split; [lia|]. split; [lia|].
  destruct (worker_lifecycle 1 lcg_distribution lcg_distribution_range 3 3)
    as (input & cfg0 & Hinit & Hsys); [lia|lia|].
  exists input, cfg0. split; [exact Hinit|].
  intros sched cfg Hexec r s Hs. exact (proj1 (Hsys sched cfg Hexec r s Hs)).
Defined.

Lemma one_task_per_worker_witness :
  0 ≤ 3 ∧ 2 ≤ 3
  ∧ ∃ input cfg0,
      program_init 1 lcg_distribution 3 3 = Some (input, cfg0)
      ∧ ∀ sched cfg, sys_exec input sched cfg0 = Some cfg →
          ∀ r s, slave_at r (slaves cfg) = Some s →
            (length (inbox s) + length (outbox s) ≤ 1)%nat.
Proof.
  split; [lia|]. split; [lia|].
  destruct (one_task_per_worker 1 lcg_distribution lcg_distribution_range 3 3)
    as (input & cfg0 & Hinit & Hsys); [lia|lia|].
  exists input, cfg0. split; [exact Hinit|].
  intros sched cfg Hexec r s Hs. exact (proj1 (proj1 (Hsys sched cfg Hexec) r s Hs)).
Defined.

Lemma receive_is_safe_witness :
  0 ≤ 3 ∧ 2 ≤ 3
  ∧ ∃ input cfg0,
      program_init 1 lcg_distribution 3 3 = Some (input, cfg0)
      ∧ ∀ sched cfg r s y out,
          sys_exec input sched cfg0 = Some cfg →
          slave_at r (slaves cfg) = Some s → outbox s = y :: out →
          is_Some (sys_step input (master_recv r) cfg).
Proof.
  split; [lia|]. split; [lia|].
  destruct (receive_is_safe 1 lcg_distribution lcg_distribution_range 3 3)
    as (input & cfg0 & Hinit & Hsys); [lia|lia|].
  exists input, cfg0. split; [exact Hinit|].
  intros sched cfg r s y out Hexec Hs Hout.
  destruct (Hsys sched cfg r s y out Hexec Hs Hout) as (? & ? & ? & ? & ? & ? & ? & ? & ? & ? & H).
  exact H.
Defined.

Lemma files_agree_witness :
  0 ≤ 3 ∧ 2 ≤ 3
  ∧ ∃ input cfg0,
      program_init 1 lcg_distribution 3 3 = Some (input, cfg0)
      ∧ ∀ sched cfg, sys_exec input sched cfg0 = Some cfg → sys_final cfg →
          ∀ r s x r', slave_at r (slaves cfg) = Some s → (x, r') ∈ file s → r' = r.
Proof.
  split; [lia|]. split; [lia|].
  destruct (files_agree 1 lcg_distribution lcg_distribution_range 3 3)
    as (input & cfg0 & Hinit & Hsys); [lia|lia|].
  exists input, cfg0. split; [exact Hinit|].
  intros sched cfg Hexec Hfinal r s x r' Hs Hx.
  exact (proj1 (proj2 (Hsys sched cfg Hexec Hfinal) r s x r' Hs Hx)).
Defined.

Lemma workers_stay_busy_witness :
  0 ≤ 3 ∧ 2 ≤ 3
  ∧ ∃ input cfg0,
      program_init 1 lcg_distribution 3 3 = Some (input, cfg0)
      ∧ ∀ sched cfg, sys_exec input sched cfg0 = Some cfg →
          counter (mst cfg) < 3 → N_activeProc (mst cfg) = 3 - 1.
Proof.
  split; [lia|]. split; [lia|].
  destruct (workers_stay_busy 1 lcg_distribution lcg_distribution_range 3 3)
    as (input & cfg0 & Hinit & Hsys); [lia|lia|].
  exists input, cfg0. split; [exact Hinit|].
  intros sched cfg Hexec Hlt. exact (proj1 (Hsys sched cfg Hexec Hlt)).
Defined.

Lemma step_count_witness :
  0 ≤ 3 ∧ 2 ≤ 3
  ∧ ∃ input cfg0,
      program_init 1 lcg_distribution 3 3 = Some (input, cfg0)
      ∧ ∀ sched cfg, sys_exec input sched cfg0 = Some cfg →
          Z.of_nat (length sched) ≤ 2 * 3 + (3 - 1).
Proof.
  split; [lia|]. split; [lia|].
  destruct (step_count 1 lcg_distribution lcg_distribution_range 3 3)
    as (input & cfg0 & Hinit & Hsys); [lia|lia|].
  exists input, cfg0. split; [exact Hinit|].
  intros sched cfg Hexec. exact (proj1 (Hsys sched cfg Hexec)).
Defined.

Lemma generator_prefix_witness :
  0 ≤ 3
  ∧ ∃ input,
      inputDataGenerator 1 lcg_distribution 3 = Some input
      ∧ input = draws lcg_distribution (Z.to_nat 3) 1
      ∧ ∀ M, 0 ≤ M ≤ 3 →
          inputDataGenerator 1 lcg_distribution M = Some (take (Z.to_nat M) input).
Proof.
  split; [lia|]. apply (generator_prefix 1 lcg_distribution 3). lia.
Defined.

(** Four processes: a complete execution exists, and it has 45 steps. *)
Lemma main_run_witness :
  2 ≤ 4
  ∧ main 0 4 = run_masterCode 21 4
  ∧ ∃ input cfg0,
      main_system 1 lcg_distribution 4 = Some (input, cfg0)
      ∧ length input = 21%nat
      ∧ ∃ sched cfg,
          sys_exec input sched cfg0 = Some cfg
          ∧ sys_final cfg
          ∧ Z.of_nat (length sched) = 41 + 4
          ∧ check_errors 21 input (output (mst cfg)) = Some [].
Proof.
  split; [lia|].
  destruct (proj2 (main_run 1 lcg_distribution lcg_distribution_range 4))
    as (Hmaster & _ & input & cfg0 & Hsys & Hlen & _ & Hrun); [lia|].
  split; [exact Hmaster|]. exists input, cfg0. split; [exact Hsys|]. split; [exact Hlen|].
  destruct (Hrun [] cfg0 eq_refl) as (_ & _ & _ & sched & cfg & Hexec & Hfinal).
  exists sched, cfg. split; [exact Hexec|]. split; [exact Hfinal|].
  exact (proj1 (proj2 (Hrun sched cfg Hexec)) Hfinal).
Defined.

Lemma trapezoidal_negative_witness :
  INT_MIN ≤ -3 ≤ -1
  ∧ Qc_trapezoidal 0 0%Qc 1%Qc (-3) = Some (Qc_of_Z 0 * ((1 - 0) / Qc_of_Z (-3 + 1)))%Qc.
Proof.
  assert (INT_MIN ≤ -3 ≤ -1) as H by (unfold INT_MIN; lia).
  split; [exact H|].
  apply (trapezoidal_negative Qcplus Qcminus Qcmult Qcdiv Qc_of_Z (/ 2)%Qc Qc_bump
           0 0%Qc 1%Qc (-3) H).
  lia.
Defined.
